(** * Serbian transliteration: a shallow embedding of [src/index.ts]

    The class [SerbianTransliteration] is embedded function by function.
    A JavaScript string is the list of its UTF-16 code units; string
    literals of the source are written as ordinary (UTF-8) literals and
    decoded by [js]. *)

From Stdlib Require Import String Ascii DecimalNat DecimalFacts.
From Stdlib Require Import List NArith Arith Lia Bool.
Import ListNotations.

Local Open Scope N_scope.

(** ** JavaScript strings *)

Definition jsstring := list N.

Fixpoint bytes_of (s : string) : list N :=
  match s with
  | EmptyString => []
  | String a s' => N_of_ascii a :: bytes_of s'
  end.

(** UTF-8 decoding into UTF-16 code units (astral code points become a
    surrogate pair). *)
Fixpoint utf16_of_utf8 (bs : list N) : jsstring :=
  match bs with
  | [] => []
  | b0 :: r0 =>
    if b0 <? 128 then b0 :: utf16_of_utf8 r0
    else if b0 <? 224 then
      match r0 with
      | b1 :: r1 => ((b0 - 192) * 64 + (b1 - 128)) :: utf16_of_utf8 r1
      | [] => [b0]
      end
    else if b0 <? 240 then
      match r0 with
      | b1 :: b2 :: r2 =>
        ((b0 - 224) * 4096 + (b1 - 128) * 64 + (b2 - 128)) :: utf16_of_utf8 r2
      | _ => [b0]
      end
    else
      match r0 with
      | b1 :: b2 :: b3 :: r3 =>
        let cp := (b0 - 240) * 262144 + (b1 - 128) * 4096
                  + (b2 - 128) * 64 + (b3 - 128) in
        let v := cp - 65536 in
        (55296 + v / 1024) :: (56320 + v mod 1024) :: utf16_of_utf8 r3
      | _ => [b0]
      end
  end.

Definition js (s : string) : jsstring := utf16_of_utf8 (bytes_of s).

(** The single code unit of a one-character literal. *)
Definition ch (s : string) : N := hd 0 (js s).

Fixpoint str_eqb (a b : jsstring) : bool :=
  match a, b with
  | [], [] => true
  | x :: a', y :: b' => (x =? y) && str_eqb a' b'
  | _, _ => false
  end.

Lemma str_eqb_eq a b : str_eqb a b = true <-> a = b.
Proof.
  revert b; induction a as [|x a IH]; intros [|y b]; simpl;
    try (split; intros H; [reflexivity || discriminate | reflexivity || discriminate]).
  rewrite andb_true_iff, N.eqb_eq, IH. split.
  - intros [-> ->]; reflexivity.
  - intros H; inversion H; auto.
Qed.

Lemma str_eqb_refl a : str_eqb a a = true.
Proof. apply str_eqb_eq; reflexivity. Qed.

(** ** The two character maps

    A [Record<string, string>] with single-character keys: an association
    list from the key's code unit to the value. *)

Definition charmap := list (N * jsstring).

Definition entry (kv : string * string) : N * jsstring :=
  (ch (fst kv), js (snd kv)).

Fixpoint lookup (m : charmap) (c : N) : option jsstring :=
  match m with
  | [] => None
  | (k, v) :: m' => if k =? c then Some v else lookup m' c
  end.

Definition cyrillic2LatinMap : charmap := Eval vm_compute in map entry
  [ ("а","a"); ("б","b"); ("в","v"); ("г","g"); ("д","d"); ("ђ","đ"); ("е","e");
    ("ж","ž"); ("з","z"); ("и","i"); ("ј","j"); ("к","k"); ("л","l"); ("љ","lj");
    ("м","m"); ("н","n"); ("њ","nj"); ("о","o"); ("п","p"); ("р","r"); ("с","s");
    ("т","t"); ("ћ","ć"); ("у","u"); ("ф","f"); ("х","h"); ("ц","c"); ("ч","č");
    ("џ","dž"); ("ш","š");
    ("А","A"); ("Б","B"); ("В","V"); ("Г","G"); ("Д","D"); ("Ђ","Đ"); ("Е","E");
    ("Ж","Ž"); ("З","Z"); ("И","I"); ("Ј","J"); ("К","K"); ("Л","L"); ("Љ","Lj");
    ("М","M"); ("Н","N"); ("Њ","Nj"); ("О","O"); ("П","P"); ("Р","R"); ("С","S");
    ("Т","T"); ("Ћ","Ć"); ("У","U"); ("Ф","F"); ("Х","H"); ("Ц","C"); ("Ч","Č");
    ("Џ","Dž"); ("Ш","Š") ]%string.

Definition latin2CyrillicMap : charmap := Eval vm_compute in map entry
  [ ("a","а"); ("b","б"); ("v","в"); ("g","г"); ("d","д"); ("đ","ђ"); ("e","е");
    ("ž","ж"); ("z","з"); ("i","и"); ("j","ј"); ("k","к"); ("l","л"); ("m","м");
    ("n","н"); ("o","о"); ("p","п"); ("r","р"); ("s","с"); ("t","т"); ("ć","ћ");
    ("u","у"); ("f","ф"); ("h","х"); ("c","ц"); ("č","ч"); ("š","ш");
    ("A","А"); ("B","Б"); ("V","В"); ("G","Г"); ("D","Д"); ("Đ","Ђ"); ("E","Е");
    ("Ž","Ж"); ("Z","З"); ("I","И"); ("J","Ј"); ("K","К"); ("L","Л"); ("M","М");
    ("N","Н"); ("O","О"); ("P","П"); ("R","Р"); ("S","С"); ("T","Т"); ("Ć","Ћ");
    ("U","У"); ("F","Ф"); ("H","Х"); ("C","Ц"); ("Č","Ч"); ("Š","Ш") ]%string.

(** [map[char] ?? char] for a one-unit string [char] *)
Definition mapped (m : charmap) (c : N) : jsstring :=
  match lookup m c with
  | Some v => v
  | None => [c]
  end.

(** The string iterator ([for (const char of text)]): one string per code
    point, a well-formed surrogate pair being one character. *)
Fixpoint chars (s : jsstring) : list jsstring :=
  match s with
  | [] => []
  | h :: t =>
    match t with
    | l :: r =>
      if ((55296 <=? h) && (h <=? 56319)) && ((56320 <=? l) && (l <=? 57343))
      then [h; l] :: chars r
      else [h] :: chars t
    | [] => [[h]]
    end
  end.

(** [map[char]]: the keys are one-unit strings *)
Definition get (m : charmap) (char : jsstring) : option jsstring :=
  match char with
  | [c] => lookup m c
  | _ => None
  end.

(** ** toLatin *)
Definition toLatin (text : jsstring) : jsstring :=
  match text with
  | [] => []
  | _ =>
    fold_left
      (fun result char =>
         result ++ match get cyrillic2LatinMap char with
                   | Some v => v
                   | None => char
                   end)
      (chars text) []
  end.

(** ** Script detection *)

Record LetterCount := { cyrillic : nat; latin : nat }.

Definition countCyrillicAndLatinLetters (text : jsstring) : LetterCount :=
  fold_left
    (fun acc char =>
       match get cyrillic2LatinMap char with
       | Some _ => {| cyrillic := S (cyrillic acc); latin := latin acc |}
       | None =>
         match get latin2CyrillicMap char with
         | Some _ => {| cyrillic := cyrillic acc; latin := S (latin acc) |}
         | None => acc
         end
       end)
    (chars text) {| cyrillic := 0; latin := 0 |}.

Definition isCyrillic (text : jsstring) : bool :=
  match text with
  | [] => false
  | _ => let letters := countCyrillicAndLatinLetters text in
         (latin letters <? cyrillic letters)%nat
  end.

Definition isLatin (text : jsstring) : bool :=
  match text with
  | [] => false
  | _ => let letters := countCyrillicAndLatinLetters text in
         (cyrillic letters <? latin letters)%nat
  end.

(** ** String primitives of the runtime *)

Definition between (lo hi c : N) : bool := (lo <=? c) && (c <=? hi).

(** [Canonicalize] of a RegExp with the [i] flag and without the [u] flag:
    the upper-case form of a code unit when that is a single code unit,
    except that a non-ASCII unit is never folded onto an ASCII one.  The
    table covers Basic Latin, Latin-1 Supplement, Latin Extended-A and
    Cyrillic U+0400..U+045F, the blocks of Serbian text; a code unit
    outside them is compared as it is. *)
Definition canonicalize (c : N) : N :=
  if between 97 122 c then c - 32
  else if c =? 181 then 924
  else if between 224 254 c && negb (c =? 247) then c - 32
  else if c =? 255 then 376
  else if between 256 303 c || between 306 311 c || between 330 375 c
       then (if N.odd c then c - 1 else c)
  else if between 313 328 c || between 377 382 c
       then (if N.even c then c - 1 else c)
  else if between 1072 1103 c then c - 32
  else if between 1104 1119 c then c - 80
  else c.

(** [Canonicalize] with the [u] flag: simple case folding of a code point,
    for the same blocks. *)
Definition canonicalizeU (c : N) : N :=
  if between 65 90 c then c + 32
  else if c =? 181 then 956
  else if between 192 222 c && negb (c =? 215) then c + 32
  else if between 256 303 c || between 306 311 c || between 330 375 c
       then (if N.even c then c + 1 else c)
  else if between 313 328 c || between 377 382 c
       then (if N.odd c then c + 1 else c)
  else if c =? 376 then 255
  else if c =? 383 then 115
  else if between 1024 1039 c then c + 80
  else if between 1040 1071 c then c + 32
  else c.

(** Membership of a code point in [\p{L}] or [\p{N}], for Basic Latin,
    Latin-1 Supplement, Latin Extended-A and -B, and Cyrillic. *)
Definition isLetterOrNumber (c : N) : bool :=
  between 48 57 c || between 65 90 c || between 97 122 c
  || (c =? 170) || (c =? 178) || (c =? 179) || (c =? 181) || (c =? 185)
  || (c =? 186) || between 188 190 c
  || between 192 214 c || between 216 246 c || between 248 591 c
  || between 1024 1153 c || between 1162 1327 c.

(** [\w] without the [u] and [i] flags *)
Definition isWordChar (c : N) : bool :=
  between 48 57 c || between 65 90 c || (c =? 95) || between 97 122 c.

(** Line terminators, which [.] does not match *)
Definition isLineTerminator (c : N) : bool :=
  (c =? 10) || (c =? 13) || (c =? 8232) || (c =? 8233).

Definition unit_eq (ci : bool) (a b : N) : bool :=
  if ci then canonicalize a =? canonicalize b else a =? b.

Definition codepoint_eq (ci : bool) (a b : N) : bool :=
  if ci then canonicalizeU a =? canonicalizeU b else a =? b.

Fixpoint prefix_by (eq : N -> N -> bool) (p s : list N) : bool :=
  match p, s with
  | [], _ => true
  | x :: p', y :: s' => eq x y && prefix_by eq p' s'
  | _ :: _, [] => false
  end.

Definition isPrefix (p s : jsstring) : bool := prefix_by N.eqb p s.

(** [s.indexOf(p, from)]; [None] stands for [-1]. *)
Fixpoint indexOf_here (p s : jsstring) (pos : nat) : option nat :=
  if isPrefix p s then Some pos
  else match s with
       | [] => None
       | _ :: s' => indexOf_here p s' (S pos)
       end.

Definition indexOf (p s : jsstring) (from : nat) : option nat :=
  if (length s <? from)%nat
  then (match p with [] => Some (length s) | _ => None end)
  else indexOf_here p (skipn from s) from.

(** [s.slice(i, e)] for [0 <= i] and [0 <= e] *)
Definition slice (s : jsstring) (i e : nat) : jsstring :=
  firstn (e - i) (skipn i s).

(** Code points of a string (the view of a RegExp with the [u] flag and of
    string iteration) and back. *)
Definition isHighSurrogate (c : N) : bool := between 55296 56319 c.
Definition isLowSurrogate (c : N) : bool := between 56320 57343 c.

Fixpoint codePoints (s : jsstring) : list N :=
  match s with
  | [] => []
  | h :: t =>
    match t with
    | l :: r =>
      if isHighSurrogate h && isLowSurrogate l
      then (65536 + (h - 55296) * 1024 + (l - 56320)) :: codePoints r
      else h :: codePoints t
    | [] => [h]
    end
  end.

Definition unitsOf (cp : N) : jsstring :=
  if cp <? 65536 then [cp]
  else [55296 + (cp - 65536) / 1024; 56320 + (cp - 65536) mod 1024].

Definition fromCodePoints (cps : list N) : jsstring := flat_map unitsOf cps.

(** Decimal digits of an array index, as in a template literal [`${i}`] *)
Fixpoint digits (d : Decimal.uint) : jsstring :=
  match d with
  | Decimal.Nil => []
  | Decimal.D0 d => 48 :: digits d
  | Decimal.D1 d => 49 :: digits d
  | Decimal.D2 d => 50 :: digits d
  | Decimal.D3 d => 51 :: digits d
  | Decimal.D4 d => 52 :: digits d
  | Decimal.D5 d => 53 :: digits d
  | Decimal.D6 d => 54 :: digits d
  | Decimal.D7 d => 55 :: digits d
  | Decimal.D8 d => 56 :: digits d
  | Decimal.D9 d => 57 :: digits d
  end.

Definition decimal (n : nat) : jsstring := digits (Nat.to_uint n).

(** [GetSubstitution] for [String.prototype.replace] with a string pattern:
    there are no captures, so only [$$], [$&], [$`] and [$'] are
    expanded and every other [$] stands for itself. *)
Fixpoint getSubstitution (matched before after repl : jsstring) : jsstring :=
  match repl with
  | [] => []
  | c :: r =>
    if c =? 36 then
      match r with
      | d :: r' =>
        if d =? 36 then 36 :: getSubstitution matched before after r'
        else if d =? 38 then matched ++ getSubstitution matched before after r'
        else if d =? 96 then before ++ getSubstitution matched before after r'
        else if d =? 39 then after ++ getSubstitution matched before after r'
        else c :: getSubstitution matched before after r
      | [] => [c]
      end
    else c :: getSubstitution matched before after r
  end.

(** [s.replace(p, repl)] with both arguments strings: the first occurrence
    only. *)
Definition replaceFirst (p repl s : jsstring) : jsstring :=
  match indexOf p s 0 with
  | None => s
  | Some pos =>
    let before := firstn pos s in
    let after := skipn (pos + length p) s in
    before ++ getSubstitution p before after repl ++ after
  end.

(** ** Global replacement by a regular expression

    [s.replace(re, replacer)] for a RegExp with the [g] flag.  A matcher
    [m prev s] tells whether the expression matches at the current
    position, given the preceding character [prev] ([None] at the start
    of the input) and the remaining input [s]; it returns the length of
    the match and the first capture.  The search proceeds from left to
    right, resumes after each match, and steps over one character after
    an empty match.  The replacer threads the state [St] of the closure
    (the arrays it pushes to). *)

Section Replace.
Context {A St : Type}.
Variable m : option A -> list A -> option (nat * list A).
Variable replacer : St -> list A -> list A -> St * list A.

Fixpoint replace_at (prev : option A) (s : list A) (skip : nat) (st : St)
  : St * list A :=
  match skip with
  | S k =>
    match s with
    | [] => (st, [])
    | c :: s' => replace_at (Some c) s' k st
    end
  | O =>
    match m prev s with
    | Some (len, cap) =>
      let (st1, r) := replacer st (firstn len s) cap in
      match s with
      | [] => (st1, r)
      | c :: s' =>
        match len with
        | O => let (st2, out) := replace_at (Some c) s' 0 st1 in
               (st2, r ++ c :: out)
        | S k => let (st2, out) := replace_at (Some c) s' k st1 in
                 (st2, r ++ out)
        end
      end
    | None =>
      match s with
      | [] => (st, [])
      | c :: s' => let (st2, out) := replace_at (Some c) s' 0 st in
                   (st2, c :: out)
      end
    end
  end.

Definition replaceAll (s : list A) (st : St) : St * list A :=
  replace_at None s 0 st.
End Replace.

(** A literal pattern: [/abc/g] or [/abc/gi]. *)
Definition literal (ci : bool) (p : jsstring)
  : option N -> jsstring -> option (nat * jsstring) :=
  fun _ s => if prefix_by (unit_eq ci) p s then Some (length p, []) else None.

(** [s.replace(/p/g, repl)] with a replacement string free of [$] *)
Definition replaceLiteral (ci : bool) (p repl s : jsstring) : jsstring :=
  snd (replaceAll (literal ci p) (fun (st : unit) _ _ => (st, repl)) s tt).

(** [s.replace(/p/g, (match) => f(match))] *)
Definition replaceLiteralWith (ci : bool) (p : jsstring)
  (f : jsstring -> jsstring) (s : jsstring) : jsstring :=
  snd (replaceAll (literal ci p) (fun (st : unit) matched _ => (st, f matched)) s tt).

(** ** Constants of the class *)

Definition digraphRegexps : list (jsstring * jsstring) := Eval vm_compute in
  map (fun kv => (js (fst kv), js (snd kv)))
  [ ("Lj","Љ"); ("Nj","Њ"); ("Dž","Џ"); ("lj","љ"); ("nj","њ"); ("dž","џ") ]%string.

Definition digraphExceptionPatterns : list (jsstring * list jsstring) :=
  Eval vm_compute in map (fun kv => (js (fst kv), map js (snd kv)))
  [
    ("dj",
    [ "adjektiv"; "adjunkt"; "bazdje"; "bdje"; "bezdje"; "blijedje"; "bludje";
      "bridjе"; "vidjel"; "vidjet"; "vindjakn"; "višenedje"; "vrijedje"; "gdje";
      "gudje"; "gdjir"; "daždje"; "dvonedje"; "devetonedje"; "desetonedje";
      "djb"; "djeva"; "djevi"; "djevo"; "djed"; "djejstv"; "djel"; "djenem";
      "djeneš"; "djenu"; "djet"; "djec"; "dječ"; "djuar"; "djubison"; "djubouz";
      "djuer"; "djui"; "djuks"; "djulej"; "djumars"; "djupont"; "djurant";
      "djusenberi"; "djuharst"; "djuherst"; "dovdje"; "dogrdje"; "dodjel";
      "drvodje"; "drugdje"; "elektrosnabdje"; "žudje"; "zabludje"; "zavidje";
      "zavrijedje"; "zagudje"; "zadjev"; "zadjen"; "zalebdje"; "zaludje";
      "zaodje"; "zapodje"; "zarudje"; "zasjedje"; "zasmrdje"; "zastidje";
      "zaštedje"; "zdje"; "zlodje"; "igdje"; "izbledje"; "izblijedje"; "izvidje";
      "izdjejst"; "izdjelj"; "izludje"; "isprdje"; "jednonedje"; "kojegdje";
      "kudjelj"; "lebdje"; "ludjel"; "ludjet"; "makfadjen"; "marmadjuk";
      "međudjel"; "nadjaha"; "nadjača"; "nadjeb"; "nadjev"; "nadjenul";
      "nadjenuo"; "nadjenut"; "negdje"; "nedjel"; "nadjunač"; "nenadjača";
      "nenavidje"; "neodje"; "nepodjarm"; "nerazdje"; "nigdje"; "obdjel";
      "obnevidje"; "ovdje"; "odjav"; "odjah"; "odjaš"; "odjeb"; "odjev"; "odjed";
      "odjezd"; "odjek"; "odjel"; "odjen"; "odjeć"; "odjec"; "odjur"; "odsjedje";
      "ondje"; "opredje"; "osijedje"; "osmonedje"; "pardju"; "perdju";
      "petonedje"; "poblijedje"; "povidje"; "pogdjegdje"; "pogdje"; "podjakn";
      "podjamč"; "podjemč"; "podjar"; "podjeb"; "podjebrad"; "podjed";
      "podjezič"; "podjel"; "podjen"; "podjet"; "pododjel"; "pozavidje";
      "poludje"; "poljodjel"; "ponegdje"; "ponedjelj"; "porazdje"; "posijedje";
      "posjedje"; "postidje"; "potpodjel"; "poštedje"; "pradjed"; "prdje";
      "preblijedje"; "previdje"; "predvidje"; "predjel"; "preodjen";
      "preraspodje"; "presjedje"; "pridjev"; "pridjen"; "prismrdje"; "prištedje";
      "probdje"; "problijedje"; "prodjen"; "prolebdje"; "prosijedje";
      "prosjedje"; "protivdjel"; "prošlonedje"; "razvidje"; "razdjev"; "razdjel";
      "razodje"; "raspodje"; "rasprdje"; "remekdjel"; "rudjen"; "rudjet";
      "sadje"; "svagdje"; "svidje"; "svugdje"; "sedmonedjelj"; "sijedje";
      "sjedje"; "smrdje"; "snabdje"; "snovidje"; "starosjedje"; "stidje";
      "studje"; "sudjel"; "tronedje"; "ublijedje"; "uvidje"; "udjel"; "udjen";
      "uprdje"; "usidjel"; "usjedje"; "usmrdje"; "uštedje"; "cjelonedje";
      "četvoronedje"; "čukundjed"; "šestonedjelj"; "štedje"; "štogdje";
      "šukundjed" ]);
    ("dž",
    [ "feldžandarm"; "nadžanj"; "nadždrel"; "nadžel"; "nadžeo"; "nadžet";
      "nadživ"; "nadžinj"; "nadžnj"; "nadžrec"; "nadžup"; "odžali"; "odžari";
      "odžel"; "odžive"; "odživljava"; "odžubor"; "odžvaka"; "odžval"; "odžvać";
      "podžanr"; "podžel"; "podže"; "podžig"; "podžiz"; "podžil"; "podžnje";
      "podžupan"; "predželu"; "predživot" ]);
    ("nj",
    [ "anjon"; "injaric"; "injekc"; "injekt"; "injicira"; "injurij"; "kenjon";
      "konjug"; "konjunk"; "nekonjug"; "nekonjunk"; "ssrnj"; "tanjug";
      "vanjezičk" ])
  ]%string.

Definition ZWNJ : N := 8204.
Definition SKIP_PREFIX : jsstring := Eval vm_compute in 57344 :: js "__SKIP__".

(** ** handleDigraphExceptions *)

(** [match.replace(new RegExp(digraph, 'g'), digraph[0] + ZWNJ + digraph[1])] *)
Definition splitDigraph (digraph matched : jsstring) : jsstring :=
  replaceLiteral false digraph
    (firstn 1 digraph ++ [ZWNJ] ++ firstn 1 (skipn 1 digraph)) matched.

Definition handleDigraphExceptions (text : jsstring) : jsstring :=
  fold_left
    (fun result (e : jsstring * list jsstring) =>
       let (digraph, exceptionPatterns) := e in
       fold_left
         (fun result pattern =>
            replaceLiteralWith true pattern (splitDigraph digraph) result)
         exceptionPatterns result)
    digraphExceptionPatterns text.

(** ** Options *)

Record ToCyrillicSkipOptions := {
  caseSensitive : option bool;
  words : option (list jsstring);
  markers : option (list jsstring)
}.

Record ToCyrillicOptions := { skip : option ToCyrillicSkipOptions }.

Definition default2CyrillicOptions_caseSensitive : bool := true.
Definition default2CyrillicOptions_words : list jsstring := [].
Definition default2CyrillicOptions_markers : list jsstring :=
  Eval vm_compute in [js "<skip>"; js "</skip>"].

(** [options?.skip?.field ?? default] *)
Definition resolve {T} (options : option ToCyrillicOptions)
  (field : ToCyrillicSkipOptions -> option T) (default : T) : T :=
  match options with
  | Some o =>
    match skip o with
    | Some s => match field s with Some v => v | None => default end
    | None => default
    end
  | None => default
  end.

Inductive outcome :=
| Returned (s : jsstring)
| Threw (message : jsstring)
| OutOfFuel.

Definition identicalMarkers : jsstring :=
  Eval vm_compute in js "The opening and closing markers cannot be the same.".

(** ** The matchers of toCyrillic *)

(** [(.*?)close]: the shortest run of characters other than line
    terminators after which [close] matches *)
Fixpoint lazyDot (ci : bool) (close s : jsstring) : option nat :=
  if prefix_by (unit_eq ci) close s then Some O
  else match s with
       | [] => None
       | c :: s' =>
         if isLineTerminator c then None
         else match lazyDot ci close s' with
              | Some k => Some (S k)
              | None => None
              end
       end.

(** [escapeRegExp(open) + '(.*?)' + escapeRegExp(close)]; every character
    special to a RegExp is escaped, so both markers match literally. *)
Definition markerRegex (ci : bool) (open close : jsstring)
  : option N -> jsstring -> option (nat * jsstring) :=
  fun _ s =>
    if prefix_by (unit_eq ci) open s then
      let rest := skipn (length open) s in
      match lazyDot ci close rest with
      | Some k => Some (length open + k + length close, firstn k rest)%nat
      | None => None
      end
    else None.

Fixpoint takeWhile (f : N -> bool) (s : jsstring) : jsstring :=
  match s with
  | [] => []
  | c :: s' => if f c then c :: takeWhile f s' else []
  end.

(** [/\b\w+\b/g].  The first [\b] holds when exactly one of the previous
    and the current character is a word character; [\w+] then takes the
    whole run of word characters, after which the second [\b] holds (a
    shorter run would end between two word characters). *)
Definition wordRegex : option N -> jsstring -> option (nat * jsstring) :=
  fun prev s =>
    let before := match prev with Some p => isWordChar p | None => false end in
    let here := match s with c :: _ => isWordChar c | [] => false end in
    if xorb before here then
      match takeWhile isWordChar s with
      | [] => None
      | run => Some (length run, [])
      end
    else None.

(** [/[qwyxQWYX]/.test(word)] *)
Definition containsEnglishLetter (word : jsstring) : bool :=
  existsb (fun c => existsb (N.eqb c) [113; 119; 121; 120; 81; 87; 89; 88]) word.

(** [[^\p{L}\p{N}_]] *)
Definition isBoundary (cp : N) : bool :=
  negb (isLetterOrNumber cp || (cp =? 95)).

(** [(^|[^\p{L}\p{N}_])(word)(?=[^\p{L}\p{N}_]|$)] with the [u] flag, over
    code points: first the alternative [^], then the alternative that
    consumes one boundary character. *)
Definition skipWordRegex (ci : bool) (word : list N)
  : option N -> list N -> option (nat * list N) :=
  fun prev s =>
    let lookahead r := match r with [] => true | c :: _ => isBoundary c end in
    let wordAt r := prefix_by (codepoint_eq ci) word r
                    && lookahead (skipn (length word) r) in
    let consuming :=
      match s with
      | c :: s' => if isBoundary c && wordAt s'
                   then Some (S (length word), word) else None
      | [] => None
      end in
    match prev with
    | None => if wordAt s then Some (length word, word) else consuming
    | Some _ => consuming
    end.

(** ** Placeholders *)

Definition markerPlaceholder (i : nat) : jsstring :=
  SKIP_PREFIX ++ js "MARKER_" ++ decimal i ++ js "__".

Definition wordPlaceholder (i : nat) : jsstring :=
  SKIP_PREFIX ++ js "WORD_" ++ decimal i ++ js "__".

(** The marker callback: [markerReplacement.push(content)] and [i++] *)
Definition markerReplacer (st : list jsstring * nat) (_ content : jsstring)
  : (list jsstring * nat) * jsstring :=
  let (markerReplacement, i) := st in
  ((markerReplacement ++ [content], S i), markerPlaceholder i).

(** The callback of the forced skip *)
Definition forcedReplacer (skipReplacement : list jsstring) (word _ : jsstring)
  : list jsstring * jsstring :=
  if containsEnglishLetter word
  then (skipReplacement ++ [word], wordPlaceholder (length (skipReplacement ++ [word]) - 1))
  else (skipReplacement, word).

(** The callback of a listed skip word, over code points *)
Definition skipWordReplacer (skipReplacement : list jsstring) (matched _ : list N)
  : list jsstring * list N :=
  let pushed := skipReplacement ++ [fromCodePoints matched] in
  (pushed, codePoints (wordPlaceholder (length pushed - 1))).

Definition skipListedWord (ci : bool) (st : list jsstring * jsstring) (word : jsstring)
  : list jsstring * jsstring :=
  let (skipReplacement, workingText) := st in
  let (pushed, out) :=
    replaceAll (skipWordRegex ci (codePoints word)) skipWordReplacer
               (codePoints workingText) skipReplacement in
  (pushed, fromCodePoints out).

(** ** The placeholder-aware scan

    One iteration of the [while (i < result.length)] loop on the state
    [(i, cyrillicResult)]. *)
Definition scan_step (result : jsstring) (st : nat * jsstring) : nat * jsstring :=
  let (i, cyrillicResult) := st in
  let nextMarker := indexOf SKIP_PREFIX result i in
  match nextMarker with
  | Some k =>
    if (k =? i)%nat then
      match indexOf (js "__") result (i + length SKIP_PREFIX) with
      | Some e => let e := (e + 2)%nat in (e, cyrillicResult ++ slice result i e)
      | None => (i, cyrillicResult)
      end
    else
      match nth_error result i with
      | Some char =>
        (S i, if char =? ZWNJ then cyrillicResult
              else cyrillicResult ++ mapped latin2CyrillicMap char)
      | None => (S i, cyrillicResult)
      end
  | None =>
    match nth_error result i with
    | Some char =>
      (S i, if char =? ZWNJ then cyrillicResult
            else cyrillicResult ++ mapped latin2CyrillicMap char)
    | None => (S i, cyrillicResult)
    end
  end.

Fixpoint scan_loop (fuel : nat) (result : jsstring) (st : nat * jsstring)
  : option jsstring :=
  if (fst st <? length result)%nat then
    match fuel with
    | O => None
    | S fuel' => scan_loop fuel' result (scan_step result st)
    end
  else Some (snd st).

(** [for (i = 0; i < table.length; i++) result = result.replace(placeholder(i), table[i])] *)
Fixpoint restore (placeholder : nat -> jsstring) (table : list jsstring)
  (i : nat) (result : jsstring) : jsstring :=
  match table with
  | [] => result
  | t :: table' =>
    restore placeholder table' (S i) (replaceFirst (placeholder i) t result)
  end.

(** ** toCyrillic *)

(** [Handle skip markers]: the working text and [markerReplacement] *)
Definition extractMarkers (ci : bool) (skip_markers : list jsstring)
  (text : jsstring) : list jsstring * jsstring :=
  if (length skip_markers =? 2)%nat then
    let open := nth 0 skip_markers [] in
    let close := nth 1 skip_markers [] in
    let (st, workingText) :=
      replaceAll (markerRegex ci open close) markerReplacer text ([], O) in
    (fst st, workingText)
  else ([], text).

(** [Handle skip words]: the working text and [skipReplacement] *)
Definition extractWords (ci : bool) (skip_words : list jsstring)
  (workingText : jsstring) : list jsstring * jsstring :=
  let forced := replaceAll wordRegex forcedReplacer workingText [] in
  if (0 <? length skip_words)%nat
  then fold_left (skipListedWord ci) skip_words forced
  else forced.

(** [Handle digraphs] *)
Definition mergeDigraphs (result : jsstring) : jsstring :=
  fold_left
    (fun r (d : jsstring * jsstring) => replaceLiteral false (fst d) (snd d) r)
    digraphRegexps result.

(** [Restore skip markers], [Restore skip words] and the removal of the
    separators *)
Definition restoreAll (markerReplacement skipReplacement : list jsstring)
  (cyrillicResult : jsstring) : jsstring :=
  let result := restore markerPlaceholder markerReplacement O cyrillicResult in
  let result := restore wordPlaceholder skipReplacement O result in
  replaceLiteral false [ZWNJ] [] result.

Definition toCyrillic (fuel : nat) (text : jsstring)
  (options : option ToCyrillicOptions) : outcome :=
  match text with
  | [] => Returned []
  | _ =>
    let skip_caseSensitive :=
      resolve options caseSensitive default2CyrillicOptions_caseSensitive in
    let skip_words := resolve options words default2CyrillicOptions_words in
    let skip_markers := resolve options markers default2CyrillicOptions_markers in
    let handleSkipMarkers := (length skip_markers =? 2)%nat in
    let ci := negb skip_caseSensitive in
    if handleSkipMarkers
       && str_eqb (nth 0 skip_markers []) (nth 1 skip_markers [])
    then Threw identicalMarkers
    else
      let (markerReplacement, workingText) :=
        extractMarkers ci skip_markers text in
      let (skipReplacement, workingText) :=
        extractWords ci skip_words workingText in
      let result := mergeDigraphs (handleDigraphExceptions workingText) in
      match scan_loop fuel result (O, []) with
      | None => OutOfFuel
      | Some cyrillicResult =>
        Returned (restoreAll markerReplacement skipReplacement cyrillicResult)
      end
  end.

(** [toCyrillic(text, options)] returns [v]: some number of iterations of
    the scan loop suffices. *)
Definition returns (text : jsstring) (options : option ToCyrillicOptions)
  (v : jsstring) : Prop :=
  exists fuel, toCyrillic fuel text options = Returned v.

(** The call never comes back: the scan loop runs out of every budget. *)
Definition diverges (text : jsstring) (options : option ToCyrillicOptions) : Prop :=
  forall fuel, toCyrillic fuel text options = OutOfFuel.

(** ** autoTransliterate *)

Definition autoTransliterate (fuel : nat) (text : jsstring)
  (options : option ToCyrillicOptions) : outcome :=
  match text with
  | [] => Returned []
  | _ =>
    if isCyrillic text then Returned (toLatin text)
    else if isLatin text then toCyrillic fuel text options
    else Returned text
  end.

(** * Properties *)

(** ** Facts about the two maps *)

Definition is_some {T} (o : option T) : bool :=
  match o with Some _ => true | None => false end.

Lemma lookup_In (m : charmap) c v : lookup m c = Some v -> In c (map fst m).
Proof.
  induction m as [|[k w] m IH]; simpl; [discriminate|].
  destruct (N.eqb_spec k c); auto.
Qed.

Lemma keys_forall (m : charmap) (P : N -> bool) :
  forallb P (map fst m) = true ->
  forall c v, lookup m c = Some v -> P c = true.
Proof.
  intros H c v Hl. rewrite forallb_forall in H. eapply H, lookup_In, Hl.
Qed.

(** No character is a key of both maps. *)
Lemma maps_disjoint c v :
  lookup cyrillic2LatinMap c = Some v -> lookup latin2CyrillicMap c = None.
Proof.
  intros H.
  apply (keys_forall cyrillic2LatinMap
           (fun k => negb (is_some (lookup latin2CyrillicMap k)))) in H;
    [|vm_compute; reflexivity].
  destruct (lookup latin2CyrillicMap c); [discriminate|reflexivity].
Qed.

(** ** toLatin is a character-wise substitution *)

Definition latinOf (char : jsstring) : jsstring :=
  match get cyrillic2LatinMap char with
  | Some v => v
  | None => char
  end.

Lemma fold_left_append {T} (f : T -> jsstring) (l : list T) (acc : jsstring) :
  fold_left (fun result x => result ++ f x) l acc = acc ++ flat_map f l.
Proof.
  revert acc; induction l as [|x l IH]; intros acc; simpl.
  - now rewrite app_nil_r.
  - now rewrite IH, app_assoc.
Qed.

(** C5. [toLatin] is total and replaces every character of the text by
    its value in the Cyrillic-to-Latin map when it has one and leaves it
    as it is otherwise; the empty text gives the empty string. *)
Theorem toLatin_characterwise :
  (forall text, toLatin text = flat_map latinOf (chars text))
  /\ toLatin [] = [].
Proof.
  split; [|reflexivity].
  intros [|c text]; [reflexivity|].
  unfold toLatin. apply (fold_left_append latinOf).
Qed.

Lemma toLatin_flat_map text : toLatin text = flat_map latinOf (chars text).
Proof.
  destruct text as [|c text]; [reflexivity|].
  unfold toLatin. apply (fold_left_append latinOf).
Qed.

(** ** Script detection compares two tallies *)

(** Number of characters of [text] that are keys of [m] *)
Definition countIn (m : charmap) (text : jsstring) : nat :=
  length (filter (fun char => is_some (get m char)) (chars text)).

Lemma get_disjoint char v :
  get cyrillic2LatinMap char = Some v -> get latin2CyrillicMap char = None.
Proof.
  destruct char as [|c [|d r]]; simpl; try discriminate. apply maps_disjoint.
Qed.

Lemma count_letters text :
  countCyrillicAndLatinLetters text =
  {| cyrillic := countIn cyrillic2LatinMap text;
     latin := countIn latin2CyrillicMap text |}.
Proof.
  unfold countCyrillicAndLatinLetters, countIn.
  set (step := fun acc char => _).
  assert (G : forall l acc,
    fold_left step l acc =
    {| cyrillic := cyrillic acc
         + length (filter (fun char => is_some (get cyrillic2LatinMap char)) l);
       latin := latin acc
         + length (filter (fun char => is_some (get latin2CyrillicMap char)) l) |}).
  { induction l as [|char l IH]; intros [cy la]; simpl.
    - now rewrite !Nat.add_0_r.
    - rewrite IH. unfold step.
      destruct (get cyrillic2LatinMap char) eqn:E; simpl.
      + rewrite (get_disjoint _ _ E); simpl. f_equal; lia.
      + destruct (get latin2CyrillicMap char); simpl; f_equal; lia. }
  now rewrite G.
Qed.

(** C7. [isCyrillic] holds exactly when the characters of the Cyrillic
    map strictly outnumber those of the Latin map, [isLatin] is the mirror
    comparison, and a tie makes both false, as on the three examples. *)
Theorem script_detection_by_majority :
  (forall text,
      isCyrillic text
      = (countIn latin2CyrillicMap text <? countIn cyrillic2LatinMap text)%nat
      /\ isLatin text
         = (countIn cyrillic2LatinMap text <? countIn latin2CyrillicMap text)%nat
      /\ (if (countIn cyrillic2LatinMap text =? countIn latin2CyrillicMap text)%nat
          then isCyrillic text || isLatin text else false) = false)
  /\ isCyrillic (js "Добар Dobar") = false
  /\ isLatin (js "Добар Dobar") = false
  /\ isCyrillic (js "123!@#") = false.
Proof.
  assert (A : forall text,
      isCyrillic text
      = (countIn latin2CyrillicMap text <? countIn cyrillic2LatinMap text)%nat
      /\ isLatin text
         = (countIn cyrillic2LatinMap text <? countIn latin2CyrillicMap text)%nat).
  { intros [|c text]; [split; reflexivity|].
    unfold isCyrillic, isLatin. rewrite count_letters. split; reflexivity. }
  split; [|repeat split; vm_compute; reflexivity].
  intros text. destruct (A text) as [HC HL]. repeat split; auto.
  destruct (Nat.eqb_spec (countIn cyrillic2LatinMap text)
                         (countIn latin2CyrillicMap text)) as [E|]; [|reflexivity].
  rewrite HC, HL, E, Nat.ltb_irrefl. reflexivity.
Qed.

(** C10. No text is both Cyrillic and Latin by majority. *)
Theorem isCyrillic_isLatin_exclusive :
  forall text, isCyrillic text && isLatin text = false.
Proof.
  intros [|c text]; [reflexivity|].
  unfold isCyrillic, isLatin. rewrite count_letters. simpl.
  destruct (Nat.ltb_spec (countIn latin2CyrillicMap (c :: text))
                         (countIn cyrillic2LatinMap (c :: text)));
    destruct (Nat.ltb_spec (countIn cyrillic2LatinMap (c :: text))
                           (countIn latin2CyrillicMap (c :: text)));
    simpl; try reflexivity; lia.
Qed.

(** ** Fuel *)

Lemma scan_loop_more fuel result st v :
  scan_loop fuel result st = Some v ->
  forall fuel', (fuel <= fuel')%nat -> scan_loop fuel' result st = Some v.
Proof.
  revert st; induction fuel as [|fuel IH]; intros st H fuel' Hle.
  - simpl in H. destruct (fst st <? length result)%nat eqn:E; [discriminate|].
    destruct fuel'; simpl; rewrite E; exact H.
  - destruct fuel' as [|fuel']; [lia|].
    simpl in *. destruct (fst st <? length result)%nat; [|exact H].
    apply IH; [exact H|lia].
Qed.

Lemma toCyrillic_more fuel text options v :
  toCyrillic fuel text options = Returned v ->
  forall fuel', (fuel <= fuel')%nat -> toCyrillic fuel' text options = Returned v.
Proof.
  unfold toCyrillic. destruct text as [|c text]; [auto|].
  destruct (_ && _); [discriminate|].
  destruct (extractMarkers _ _ _) as [mr wt].
  destruct (extractWords _ _ _) as [sr wt'].
  destruct (scan_loop fuel _ _) as [cyr|] eqn:E; [|discriminate].
  intros H fuel' Hle. now rewrite (scan_loop_more _ _ _ _ E fuel' Hle).
Qed.

(** The value a call returns does not depend on the budget. *)
Lemma returns_unique text options v w :
  returns text options v -> returns text options w -> v = w.
Proof.
  intros [f Hf] [g Hg].
  pose proof (toCyrillic_more _ _ _ _ Hf (f + g)%nat ltac:(lia)) as A.
  pose proof (toCyrillic_more _ _ _ _ Hg (f + g)%nat ltac:(lia)) as B.
  congruence.
Qed.

(** A state that an iteration leaves unchanged is never left. *)
Lemma scan_loop_stuck result st :
  scan_step result st = st ->
  (fst st <? length result)%nat = true ->
  forall fuel, scan_loop fuel result st = None.
Proof.
  intros Hfix Hlt fuel. induction fuel as [|fuel IH]; simpl; rewrite Hlt.
  - reflexivity.
  - now rewrite Hfix.
Qed.

(** ** The error for identical markers *)

Definition skipOptions (cs : option bool) (ws ms : option (list jsstring))
  : option ToCyrillicOptions :=
  Some {| skip := Some {| caseSensitive := cs; words := ws; markers := ms |} |}.

(** C3. On a non-empty text, a marker pair with equal elements makes
    [toCyrillic] throw the identical-markers error instead of producing
    any text, whatever the other options are; a pair of distinct markers
    never raises an error. *)
Theorem identical_markers_rejected :
  forall fuel text cs ws a b,
    text <> [] ->
    (a = b ->
     toCyrillic fuel text (skipOptions cs ws (Some [a; b])) = Threw identicalMarkers)
    /\ (a <> b ->
        forall message,
          toCyrillic fuel text (skipOptions cs ws (Some [a; b])) <> Threw message).
Proof.
  intros fuel [|c text] cs ws a b Hne; [congruence|].
  unfold toCyrillic, skipOptions, resolve; cbn [skip markers nth length Nat.eqb andb].
  split.
  - intros ->. now rewrite str_eqb_refl.
  - intros Hab message.
    destruct (str_eqb a b) eqn:E; [apply str_eqb_eq in E; congruence|].
    destruct (extractMarkers _ _ _) as [mr wt].
    destruct (extractWords _ _ _) as [sr wt'].
    destruct (scan_loop _ _ _); discriminate.
Qed.

Lemma identical_markers_rejected_witness :
  toCyrillic 8 (js "test") (skipOptions None None (Some [js "<tag>"; js "<tag>"]))
  = Threw identicalMarkers
  /\ forall message,
       toCyrillic 8 (js "test") (skipOptions None None (Some [js "<a>"; js "</a>"]))
       <> Threw message.
Proof.
  split.
  - apply (identical_markers_rejected 8 (js "test") None None (js "<tag>") (js "<tag>")).
    + discriminate.
    + reflexivity.
  - apply (identical_markers_rejected 8 (js "test") None None (js "<a>") (js "</a>")).
    + discriminate.
    + discriminate.
Defined.

(** ** The scan loop on a placeholder prefix without terminator *)

(** C4. The text made of the reserved prefix alone, [U+E000 "__SKIP__"],
    puts the scan loop in a state it never leaves: the prefix is found at
    [i], no ["__"] follows it, and [i] is not advanced.  The call does
    not terminate. *)
Theorem placeholder_prefix_diverges : diverges SKIP_PREFIX None.
Proof.
  intros fuel.
  assert (P : toCyrillic fuel SKIP_PREFIX None
              = match scan_loop fuel SKIP_PREFIX (O, []) with
                | None => OutOfFuel
                | Some c => Returned (restoreAll [] [] c)
                end) by (vm_compute; reflexivity).
  rewrite P, scan_loop_stuck; reflexivity.
Qed.

(** ** The examples of the test suite *)

(** C9. With [words: ["TEST"]] and case-sensitive matching only the
    upper-case occurrence is skipped; with [words: ["test"]] and
    case-insensitive matching all three occurrences are skipped and the
    text comes back unchanged. *)
Theorem skip_words_case_sensitivity :
  returns (js "Test TEST test")
          (skipOptions (Some true) (Some [js "TEST"]) None)
          (js "Тест TEST тест")
  /\ returns (js "Test TEST test")
             (skipOptions (Some false) (Some [js "test"]) None)
             (js "Test TEST test").
Proof.
  split; exists 32%nat; vm_compute; reflexivity.
Qed.

(** The skip-marker example of the test suite: markers removed, content
    kept, the rest converted. *)
Lemma skip_region_example :
  returns (js "ovo je <skip>some code</skip> za primer") None
          (js "ово је some code за пример").
Proof. exists 64%nat; vm_compute; reflexivity. Qed.

(** C2. A skip region directly followed by a word with q, w, x or y is
    not restored: the placeholder of the region ends in word characters,
    the forced skip takes it together with the word that follows as one
    token, and the restoration of the region no longer finds it.  The
    content [a] is lost and the placeholder text reaches the output. *)
Theorem skip_region_lost_before_foreign_word :
  returns (js "<skip>a</skip>quick") None
          (57344 :: js "__SKIP__MARKER_0__quick").
Proof. exists 64%nat; vm_compute; reflexivity. Qed.

(** The restoration goes through [String.prototype.replace], which
    expands [$$] in the retained content. *)
Lemma skip_region_dollar :
  returns (js "<skip>$$</skip>") None (js "$").
Proof. exists 64%nat; vm_compute; reflexivity. Qed.

(** The digraph-exception examples of the test suite. *)
Lemma digraph_exception_examples :
  returns (js "adjektiv") None (js "адјектив")
  /\ returns (js "nadživeti") None (js "надживети")
  /\ returns (js "injekcionu terapiju") None (js "инјекциону терапију").
Proof. repeat split; exists 64%nat; vm_compute; reflexivity. Qed.


(** The examples of [autoTransliterate] in the test suite. *)
Lemma autoTransliterate_examples :
  autoTransliterate 32 (js "Dobar dan") None = Returned (js "Добар дан")
  /\ autoTransliterate 32 (js "Добар дан") None = Returned (js "Dobar dan")
  /\ autoTransliterate 32 (js "123!@#") None = Returned (js "123!@#").
Proof. repeat split; vm_compute; reflexivity. Qed.

(** ** Global replacement: general facts *)

Section ReplaceFacts.
Context {A St : Type}.
Variable m : option A -> list A -> option (nat * list A).
Variable replacer : St -> list A -> list A -> St * list A.

(** A replacer that gives back what was matched changes nothing. *)
Lemma replace_at_identity (Q : A -> Prop) :
  (forall prev s st len cap,
      Forall Q s -> m prev s = Some (len, cap) ->
      replacer st (firstn len s) cap = (st, firstn len s)) ->
  forall s, Forall Q s ->
  forall prev k st, replace_at m replacer prev s k st = (st, skipn k s).
Proof.
  intros Hid s; induction s as [|c s IH]; intros HQ prev k st.
  - destruct k; simpl; [|reflexivity].
    destruct (m prev []) as [[len cap]|] eqn:E; [|reflexivity].
    rewrite (Hid _ _ st _ _ HQ E). now destruct len.
  - pose proof (Forall_inv_tail HQ) as HQ'.
    destruct k; simpl; [|apply IH, HQ'].
    destruct (m prev (c :: s)) as [[len cap]|] eqn:E.
    + rewrite (Hid _ _ st _ _ HQ E). destruct len; rewrite (IH HQ'); simpl.
      * reflexivity.
      * now rewrite firstn_skipn.
    + now rewrite (IH HQ').
Qed.

(** Where the expression matches nowhere, nothing is replaced. *)
Lemma replace_at_no_match (Q : A -> Prop) :
  (forall prev s, Forall Q s -> m prev s = None) ->
  forall s, Forall Q s ->
  forall prev st, replace_at m replacer prev s 0 st = (st, s).
Proof.
  intros Hno s HQ prev st.
  rewrite (replace_at_identity Q); [reflexivity| |exact HQ].
  intros p s' st' len cap HQ' E. rewrite (Hno _ _ HQ') in E. discriminate.
Qed.
End ReplaceFacts.

Section PrevFree.
Context {A St : Type}.
Variable m : option A -> list A -> option (nat * list A).
Variable replacer : St -> list A -> list A -> St * list A.
Hypothesis prev_free : forall p q s, m p s = m q s.

Lemma replace_at_prev p q s k st :
  replace_at m replacer p s k st = replace_at m replacer q s k st.
Proof.
  destruct s as [|c s]; destruct k; simpl; try reflexivity;
    now rewrite (prev_free p q).
Qed.

(** Skipping [k] characters of a match resumes the search after them. *)
Lemma replace_at_skip s k p st :
  (k <= length s)%nat ->
  replace_at m replacer p s k st = replace_at m replacer None (skipn k s) 0 st.
Proof.
  revert k p; induction s as [|c s IH]; intros k p Hk.
  - destruct k; [apply replace_at_prev|simpl in Hk; lia].
  - destruct k; [apply replace_at_prev|]. simpl in Hk.
    change (replace_at m replacer p (c :: s) (S k) st)
      with (replace_at m replacer (Some c) s k st).
    rewrite IH by lia. reflexivity.
Qed.
End PrevFree.

Lemma prefix_by_length eq p s :
  prefix_by eq p s = true -> (length p <= length s)%nat.
Proof.
  revert s; induction p as [|x p IH]; intros [|y s]; simpl; try lia; try discriminate.
  rewrite andb_true_iff. intros [_ H]. apply IH in H. lia.
Qed.

(** ** Replacement of a literal *)

Lemma literal_prev_free ci p a b s : literal ci p a s = literal ci p b s.
Proof. reflexivity. Qed.

Lemma replaceLiteral_With ci p repl s :
  replaceLiteral ci p repl s = replaceLiteralWith ci p (fun _ => repl) s.
Proof. reflexivity. Qed.

Lemma replaceLiteralWith_nil ci p f :
  p <> [] -> replaceLiteralWith ci p f [] = [].
Proof. destruct p; [congruence|reflexivity]. Qed.

Lemma replaceLiteralWith_miss ci p f c s :
  prefix_by (unit_eq ci) p (c :: s) = false ->
  replaceLiteralWith ci p f (c :: s) = c :: replaceLiteralWith ci p f s.
Proof.
  intros H. unfold replaceLiteralWith, replaceAll. simpl.
  unfold literal at 1. rewrite H.
  rewrite (replace_at_prev _ _ (literal_prev_free ci p) (Some c) None).
  now destruct (replace_at _ _ None s 0 tt).
Qed.

Lemma replaceLiteralWith_hit ci p f s :
  p <> [] -> prefix_by (unit_eq ci) p s = true ->
  replaceLiteralWith ci p f s
  = f (firstn (length p) s) ++ replaceLiteralWith ci p f (skipn (length p) s).
Proof.
  intros Hp H. pose proof (prefix_by_length _ _ _ H) as Hl.
  destruct s as [|c s]; [destruct p; [congruence|discriminate]|].
  unfold replaceLiteralWith, replaceAll. simpl replace_at.
  unfold literal at 1. rewrite H.
  destruct (length p) as [|k] eqn:E; [destruct p; [congruence|discriminate]|].
  simpl in Hl.
  rewrite (replace_at_skip _ _ (literal_prev_free ci p)) by lia.
  simpl skipn. now destruct (replace_at _ _ None (skipn k s) 0 tt).
Qed.

(** A literal that occurs nowhere *)
Fixpoint occurs (ci : bool) (p s : jsstring) : bool :=
  prefix_by (unit_eq ci) p s
  || match s with
     | [] => false
     | _ :: s' => occurs ci p s'
     end.

Lemma replaceLiteralWith_absent ci p f s :
  occurs ci p s = false -> replaceLiteralWith ci p f s = s.
Proof.
  induction s as [|c s IH]; simpl; rewrite orb_false_iff; intros [H1 H2].
  - apply replaceLiteralWith_nil. destruct p; [discriminate|congruence].
  - rewrite replaceLiteralWith_miss by exact H1. now rewrite IH.
Qed.

(** ** The round trip *)

Definition alphabet : list N := Eval vm_compute in map fst cyrillic2LatinMap.

Definition lat (c : N) : jsstring := mapped cyrillic2LatinMap c.

Definition mappedCyrillic (text : jsstring) : bool :=
  forallb (fun c => is_some (lookup cyrillic2LatinMap c)) text.

(** The letters of the working text between guard and scan: the mapped
    letters and the separator, which [lat] leaves as it is *)
Definition letters : list N := Eval vm_compute in ZWNJ :: alphabet.

Definition spelled (text : jsstring) : bool :=
  forallb (fun c => existsb (N.eqb c) letters) text.

(** Two letters whose transliterations together spell a digraph, as
    [н] and [ј] spell [nj] *)
Definition ambiguous (c1 c2 : N) : bool :=
  existsb (fun d => str_eqb (fst d) (lat c1 ++ lat c2)) digraphRegexps.

Fixpoint unambiguous (text : jsstring) : bool :=
  match text with
  | c1 :: t => match t with
               | c2 :: _ => negb (ambiguous c1 c2) && unambiguous t
               | [] => true
               end
  | [] => true
  end.

Lemma mappedCyrillic_alphabet c :
  is_some (lookup cyrillic2LatinMap c) = true -> In c alphabet.
Proof.
  destruct (lookup cyrillic2LatinMap c) eqn:E; [|discriminate].
  intros _. apply (lookup_In _ _ _ E).
Qed.

Lemma spelled_In c : existsb (N.eqb c) letters = true -> In c letters.
Proof.
  rewrite existsb_exists. intros (x & Hx & E). apply N.eqb_eq in E. now subst.
Qed.

Lemma mappedCyrillic_spelled text :
  mappedCyrillic text = true -> spelled text = true.
Proof.
  unfold mappedCyrillic, spelled. rewrite !forallb_forall. intros H c Hc.
  apply existsb_exists. exists c. split; [|apply N.eqb_refl].
  right. apply mappedCyrillic_alphabet, H, Hc.
Qed.

Lemma chars_units text :
  forallb (fun c => c <? 55296) text = true ->
  chars text = map (fun c => [c]) text.
Proof.
  induction text as [|h t IH]; [reflexivity|]. simpl forallb.
  rewrite andb_true_iff. intros [Hh Ht]. specialize (IH Ht).
  destruct t as [|l r]; [reflexivity|].
  apply N.ltb_lt in Hh.
  assert (E : (55296 <=? h) = false) by (apply N.leb_gt; lia).
  change (chars (h :: l :: r))
    with (if ((55296 <=? h) && (h <=? 56319)) && ((56320 <=? l) && (l <=? 57343))
          then [h; l] :: chars r else [h] :: chars (l :: r)).
  rewrite E. cbn [andb]. now rewrite IH.
Qed.

(** On a text of mapped letters [toLatin] maps code unit by code unit. *)
Lemma toLatin_units text :
  mappedCyrillic text = true -> toLatin text = flat_map lat text.
Proof.
  intros H. rewrite toLatin_flat_map.
  rewrite chars_units.
  - induction text as [|c t IH]; [reflexivity|]. simpl in *.
    apply andb_true_iff in H. destruct H as [Hc Ht].
    rewrite (IH Ht). unfold latinOf, lat, mapped. simpl.
    now destruct (lookup cyrillic2LatinMap c).
  - unfold mappedCyrillic in H. rewrite forallb_forall in *.
    intros c Hc. specialize (H c Hc).
    destruct (lookup cyrillic2LatinMap c) eqn:E; [|discriminate].
    apply (keys_forall cyrillic2LatinMap (fun k => k <? 55296)) in E; auto.
Qed.

(** The per-letter image of the text after the digraphs [done] have been
    merged *)
Definition stageMap (done : list (jsstring * jsstring)) (c : N) : jsstring :=
  if existsb (fun d => str_eqb (snd d) [c]) done then [c] else lat c.

Definition stage_shape (g g' : N -> jsstring) (x y z c : N) : bool :=
  match g c with
  | [a] => str_eqb (g' c) [a]
  | [a; b] => if (x =? a) && (y =? b) then str_eqb (g' c) [z]
              else negb (x =? a) && negb (x =? b) && str_eqb (g' c) [a; b]
  | _ => false
  end.

Definition stage_pair (g : N -> jsstring) (x y c1 c2 : N) : bool :=
  if str_eqb (g c1) [x] && (y =? hd 0 (g c2)) then ambiguous c1 c2 else true.

Lemma merge_stage (g g' : N -> jsstring) (x y z : N) :
  forallb (stage_shape g g' x y z) letters = true ->
  forallb (fun c1 => forallb (stage_pair g x y c1) letters) letters = true ->
  forall text,
    spelled text = true -> unambiguous text = true ->
    replaceLiteral false [x; y] [z] (flat_map g text) = flat_map g' text.
Proof.
  intros Hshape Hpair. rewrite forallb_forall in Hshape.
  assert (Hp : forall c1 c2, In c1 letters -> In c2 letters ->
                             stage_pair g x y c1 c2 = true).
  { intros c1 c2 H1 H2. rewrite forallb_forall in Hpair.
    specialize (Hpair c1 H1). rewrite forallb_forall in Hpair. auto. }
  clear Hpair.
  induction text as [|c t IH]; intros Hm Hu; [reflexivity|].
  simpl in Hm. apply andb_true_iff in Hm. destruct Hm as [Hc Hm].
  apply spelled_In in Hc.
  assert (Hu' : unambiguous t = true).
  { simpl in Hu. destruct t; [reflexivity|].
    apply andb_true_iff in Hu. tauto. }
  specialize (IH Hm Hu'). rewrite replaceLiteral_With in *.
  pose proof (Hshape c Hc) as Hs. unfold stage_shape in Hs.
  simpl flat_map.
  destruct (g c) as [|a [|b [|? ?]]] eqn:Eg; try discriminate.
  - (* one unit *)
    apply str_eqb_eq in Hs. rewrite Hs. simpl app.
    rewrite replaceLiteralWith_miss; [now rewrite IH|].
    simpl. destruct (N.eqb_spec x a) as [->|]; [|reflexivity].
    simpl. destruct t as [|c2 t']; [reflexivity|].
    simpl in Hu. apply andb_true_iff in Hu. destruct Hu as [Hamb _].
    simpl in Hm. apply andb_true_iff in Hm. destruct Hm as [Hc2 _].
    apply spelled_In in Hc2.
    pose proof (Hp c c2 Hc Hc2) as Hpc. unfold stage_pair in Hpc.
    rewrite Eg, str_eqb_refl in Hpc. simpl in Hpc.
    pose proof (Hshape c2 Hc2) as Hs2. unfold stage_shape in Hs2.
    simpl flat_map.
    destruct (g c2) as [|b r]; [discriminate|]. simpl in *.
    destruct (y =? b); [|reflexivity].
    rewrite Hpc in Hamb. discriminate.
  - (* two units *)
    simpl app.
    destruct ((x =? a) && (y =? b)) eqn:E.
    + apply str_eqb_eq in Hs. rewrite Hs.
      rewrite replaceLiteralWith_hit; [|discriminate|].
      * simpl. now rewrite IH.
      * simpl. apply andb_true_iff in E. destruct E as [E1 E2].
        now rewrite E1, E2.
    + apply andb_true_iff in Hs. destruct Hs as [Hs Hs3].
      apply andb_true_iff in Hs. destruct Hs as [Hs1 Hs2].
      apply str_eqb_eq in Hs3. rewrite Hs3.
      apply negb_true_iff in Hs1. apply negb_true_iff in Hs2.
      rewrite replaceLiteralWith_miss by (simpl; now rewrite Hs1).
      rewrite replaceLiteralWith_miss by (simpl; now rewrite Hs2).
      now rewrite IH.
Qed.

Lemma mergeDigraphs_letters text :
  spelled text = true -> unambiguous text = true ->
  mergeDigraphs (flat_map lat text) = flat_map (stageMap digraphRegexps) text.
Proof.
  intros Hm Hu. unfold mergeDigraphs.
  change (flat_map lat text) with (flat_map (stageMap []) text).
  assert (G : forall todo done,
             done ++ todo = digraphRegexps ->
             fold_left (fun r (d : jsstring * jsstring) =>
                          replaceLiteral false (fst d) (snd d) r)
                       todo (flat_map (stageMap done) text)
             = flat_map (stageMap digraphRegexps) text).
  { induction todo as [|d todo IH]; intros done E.
    - rewrite app_nil_r in E. now subst.
    - simpl fold_left.
      assert (S : replaceLiteral false (fst d) (snd d) (flat_map (stageMap done) text)
                  = flat_map (stageMap (done ++ [d])) text).
      { unfold digraphRegexps in E.
        do 6 (destruct done as [|? done];
              [ simpl in E; injection E as -> ->; cbn [fst snd app];
                apply merge_stage; [vm_compute; reflexivity ..|exact Hm|exact Hu]
              | simpl in E; injection E as -> E ]).
        destruct done; discriminate. }
      rewrite S. apply IH. now rewrite <- app_assoc. }
  apply (G digraphRegexps []). reflexivity.
Qed.

(** ** The scan loop on text without placeholder *)

Definition cyrOf (c : N) : jsstring :=
  if c =? ZWNJ then [] else mapped latin2CyrillicMap c.

Lemma skipn_cons {T} (s : list T) i c r :
  skipn i s = c :: r ->
  nth_error s i = Some c /\ skipn (S i) s = r /\ (i < length s)%nat.
Proof.
  revert i; induction s as [|a s IH]; intros i H.
  - destruct i; discriminate.
  - destruct i as [|i].
    + simpl in H. injection H as -> ->. simpl. repeat split; lia.
    + simpl in H. apply IH in H. simpl. destruct H as (? & ? & ?).
      repeat split; auto; lia.
Qed.

Lemma indexOf_here_ge p s pos k :
  indexOf_here p s pos = Some k -> (pos <= k)%nat.
Proof.
  revert pos; induction s as [|a s IH]; intros pos; simpl.
  - destruct (isPrefix p []); [intros [= <-]; lia|discriminate].
  - destruct (isPrefix p (a :: s)); [intros [= <-]; lia|].
    intros H. apply IH in H. lia.
Qed.

Lemma isPrefix_head p x p' c r :
  p = x :: p' -> x <> c -> isPrefix p (c :: r) = false.
Proof.
  intros -> H. unfold isPrefix. simpl.
  destruct (N.eqb_spec x c); [congruence|reflexivity].
Qed.

Lemma scan_step_plain result i acc c r :
  skipn i result = c :: r -> c <> 57344 ->
  scan_step result (i, acc) = (S i, acc ++ cyrOf c).
Proof.
  intros Hs Hc. apply skipn_cons in Hs. destruct Hs as (Hn & _ & Hl).
  assert (E : match indexOf SKIP_PREFIX result i with
              | Some k => (k =? i)%nat
              | None => false
              end = false).
  { unfold indexOf. replace (length result <? i)%nat with false
      by (symmetry; apply Nat.ltb_ge; lia).
    destruct (skipn i result) as [|c' r'] eqn:Es.
    { apply (f_equal (@length _)) in Es. rewrite length_skipn in Es. simpl in Es. lia. }
    apply skipn_cons in Es. destruct Es as (Hn' & _). rewrite Hn in Hn'.
    injection Hn' as <-.
    unfold indexOf_here; fold indexOf_here.
    rewrite (isPrefix_head SKIP_PREFIX 57344 _ c r' eq_refl) by congruence.
    destruct (indexOf_here SKIP_PREFIX r' (S i)) as [k|] eqn:Ek; [|reflexivity].
    apply indexOf_here_ge in Ek. apply Nat.eqb_neq. lia. }
  unfold scan_step. rewrite Hn.
  assert (R : (if c =? ZWNJ then acc else acc ++ mapped latin2CyrillicMap c)
              = acc ++ cyrOf c).
  { unfold cyrOf. destruct (c =? ZWNJ); [now rewrite app_nil_r|reflexivity]. }
  rewrite R.
  destruct (indexOf SKIP_PREFIX result i) as [k|]; [|reflexivity].
  now rewrite E.
Qed.

Lemma scan_loop_step fuel result i acc :
  (i < length result)%nat ->
  scan_loop (S fuel) result (i, acc) = scan_loop fuel result (scan_step result (i, acc)).
Proof.
  intros H. simpl. apply Nat.ltb_lt in H. now rewrite H.
Qed.

Lemma scan_loop_end fuel result i acc :
  (length result <= i)%nat -> scan_loop fuel result (i, acc) = Some acc.
Proof.
  intros H. apply Nat.ltb_ge in H. destruct fuel; simpl; now rewrite H.
Qed.

(** A stretch without [U+E000] is mapped character by character. *)
Lemma scan_loop_plain x : forall fuel result i acc rest,
  skipn i result = x ++ rest ->
  Forall (fun c => c <> 57344) x ->
  scan_loop (length x + fuel) result (i, acc)
  = scan_loop fuel result ((i + length x)%nat, acc ++ flat_map cyrOf x).
Proof.
  induction x as [|c x IH]; intros fuel result i acc rest Hs Hx.
  - simpl. now rewrite Nat.add_0_r, app_nil_r.
  - simpl app in Hs. pose proof (skipn_cons _ _ _ _ Hs) as (_ & Hs' & Hl).
    simpl length. simpl Nat.add. rewrite scan_loop_step by exact Hl.
    rewrite (scan_step_plain _ _ _ _ _ Hs (Forall_inv Hx)).
    rewrite (IH _ _ _ _ _ Hs' (Forall_inv_tail Hx)).
    simpl flat_map. rewrite app_assoc. f_equal. f_equal. lia.
Qed.

(** ** The extraction passes on text they do not concern *)

Lemma markerRegex_open_absent open' close s prev x :
  Forall (fun c => c <> x) s ->
  markerRegex false (x :: open') close prev s = None.
Proof.
  intros H. unfold markerRegex. destruct s as [|c s]; [reflexivity|].
  simpl. apply Forall_inv in H.
  destruct (N.eqb_spec x c); [congruence|reflexivity].
Qed.

(** Without a [<] in the text the default markers match nowhere. *)
Lemma extractMarkers_default_absent text :
  Forall (fun c => c <> 60) text ->
  extractMarkers false default2CyrillicOptions_markers text = ([], text).
Proof.
  intros H. unfold extractMarkers, default2CyrillicOptions_markers, replaceAll.
  cbn [length Nat.eqb nth].
  rewrite (replace_at_no_match _ _ (fun c => c <> 60)); [reflexivity| |exact H].
  intros prev s Hs. now apply markerRegex_open_absent.
Qed.

Definition isEnglishLetter (c : N) : bool :=
  existsb (N.eqb c) [113; 119; 121; 120; 81; 87; 89; 88].

Lemma containsEnglishLetter_firstn n s :
  Forall (fun c => isEnglishLetter c = false) s ->
  containsEnglishLetter (firstn n s) = false.
Proof.
  revert n; induction s as [|c s IH]; intros n H; destruct n; try reflexivity.
  simpl firstn.
  change (containsEnglishLetter (c :: firstn n s))
    with (isEnglishLetter c || containsEnglishLetter (firstn n s)).
  rewrite (Forall_inv H). apply IH, (Forall_inv_tail H).
Qed.

(** Without q, w, x, y in the text the forced skip extracts nothing. *)
Lemma extractWords_none text :
  Forall (fun c => isEnglishLetter c = false) text ->
  extractWords false [] text = ([], text).
Proof.
  intros H. unfold extractWords, replaceAll. cbn [length Nat.ltb Nat.leb].
  rewrite (replace_at_identity _ _ (fun c => isEnglishLetter c = false));
    [reflexivity| |exact H].
  intros prev s st len cap Hs _. unfold forcedReplacer.
  now rewrite containsEnglishLetter_firstn.
Qed.

Lemma occurs_single x s :
  forallb (fun c => negb (c =? x)) s = true -> occurs false [x] s = false.
Proof.
  induction s as [|c t IH]; [reflexivity|].
  simpl. rewrite andb_true_iff. intros [Hc Ht]. rewrite (IH Ht).
  apply negb_true_iff in Hc. rewrite N.eqb_sym in Hc. now rewrite Hc.
Qed.

Lemma strip_absent text :
  forallb (fun c => negb (c =? ZWNJ)) text = true ->
  replaceLiteral false [ZWNJ] [] text = text.
Proof.
  intros H. rewrite replaceLiteral_With.
  apply replaceLiteralWith_absent, occurs_single, H.
Qed.

Lemma forallb_flat_map (P : N -> bool) (g : N -> jsstring) text :
  (forall c, In c letters -> forallb P (g c) = true) ->
  spelled text = true ->
  forallb P (flat_map g text) = true.
Proof.
  intros Hg. induction text as [|c t IH]; [reflexivity|].
  simpl. rewrite andb_true_iff. intros [Hc Ht].
  rewrite forallb_app, (Hg c (spelled_In _ Hc)), (IH Ht). reflexivity.
Qed.

Lemma alphabet_check (P : N -> bool) :
  forallb P alphabet = true -> forall c, In c alphabet -> P c = true.
Proof. intros H. now rewrite forallb_forall in H. Qed.

Lemma letters_check (P : N -> bool) :
  forallb P letters = true -> forall c, In c letters -> P c = true.
Proof. intros H. now rewrite forallb_forall in H. Qed.

Lemma Forall_forallb (P : N -> bool) (Q : N -> Prop) s :
  (forall c, P c = true -> Q c) -> forallb P s = true -> Forall Q s.
Proof.
  intros H Hs. apply Forall_forall. intros c Hc.
  rewrite forallb_forall in Hs. auto.
Qed.

Lemma toCyrillic_default fuel c r :
  toCyrillic fuel (c :: r) None =
  let (markerReplacement, workingText) :=
    extractMarkers false default2CyrillicOptions_markers (c :: r) in
  let (skipReplacement, workingText) := extractWords false [] workingText in
  match scan_loop fuel (mergeDigraphs (handleDigraphExceptions workingText)) (O, []) with
  | None => OutOfFuel
  | Some cyrillicResult =>
    Returned (restoreAll markerReplacement skipReplacement cyrillicResult)
  end.
Proof. reflexivity. Qed.

(** The scan gives every letter back and drops the separators. *)
Lemma scan_merged_letters text :
  spelled text = true ->
  flat_map cyrOf (flat_map (stageMap digraphRegexps) text)
  = filter (fun c => negb (c =? ZWNJ)) text.
Proof.
  induction text as [|c t IH]; [reflexivity|].
  simpl. rewrite andb_true_iff. intros [Hc Ht].
  rewrite flat_map_app, (IH Ht).
  apply spelled_In in Hc.
  apply (letters_check
           (fun c => str_eqb (flat_map cyrOf (stageMap digraphRegexps c))
                             (if negb (c =? ZWNJ) then [c] else [])))
    in Hc; [|vm_compute; reflexivity].
  apply str_eqb_eq in Hc. rewrite Hc.
  now destruct (negb (c =? ZWNJ)).
Qed.

(** ** Where the round trip fails *)

(** The round trip fails where two letters spell a digraph. *)
Lemma roundtrip_counterexample :
  mappedCyrillic (js "нј") = true
  /\ ~ returns (toLatin (js "нј")) None (js "нј").
Proof.
  split; [reflexivity|]. intros H.
  assert (R : returns (toLatin (js "нј")) None (js "њ"))
    by (exists 8%nat; vm_compute; reflexivity).
  pose proof (returns_unique _ _ _ _ H R) as E. vm_compute in E. discriminate.
Qed.

(** It also fails where a merged letter falls into an exception word. *)
Lemma roundtrip_exception_counterexample :
  mappedCyrillic (js "ањон") = true
  /\ unambiguous (js "ањон") = true
  /\ returns (toLatin (js "ањон")) None (js "анјон").
Proof.
  repeat split. exists 8%nat; vm_compute; reflexivity.
Qed.

(** ** The forced skip, token by token *)

Definition lastSeen (x : jsstring) (prev : option N) : option N :=
  fold_left (fun _ c => Some c) x prev.

Lemma replace_at_skip_app {A St} (m : option A -> list A -> option (nat * list A))
  (r : St -> list A -> list A -> St * list A) (x y : list A) prev st :
  replace_at m r prev (x ++ y) (length x) st
  = replace_at m r (fold_left (fun _ c => Some c) x prev) y 0 st.
Proof.
  revert prev; induction x as [|c x IH]; intros prev; [reflexivity|].
  simpl. apply IH.
Qed.

Definition forcedPass (prev : option N) (s : jsstring) (st : list jsstring)
  : list jsstring * jsstring :=
  replace_at wordRegex forcedReplacer prev s 0 st.

(** The previous character is no word character. *)
Definition outside (prev : option N) : bool :=
  match prev with
  | Some p => negb (isWordChar p)
  | None => true
  end.

Lemma forcedPass_nil prev st : forcedPass prev [] st = (st, []).
Proof.
  unfold forcedPass, wordRegex. simpl.
  destruct prev as [p|]; [destruct (isWordChar p)|]; reflexivity.
Qed.

Lemma forcedPass_sep prev c s st :
  isWordChar c = false ->
  forcedPass prev (c :: s) st
  = let (st', o) := forcedPass (Some c) s st in (st', c :: o).
Proof.
  intros H. unfold forcedPass. simpl replace_at. unfold wordRegex at 1.
  simpl takeWhile. rewrite H.
  destruct prev as [p|]; [destruct (isWordChar p)|]; reflexivity.
Qed.

Lemma takeWhile_run run rest :
  forallb isWordChar run = true ->
  isWordChar (hd 0 rest) = false ->
  takeWhile isWordChar (run ++ rest) = run.
Proof.
  intros Hr Hs. induction run as [|c run IH].
  - destruct rest as [|d rest]; [reflexivity|].
    cbn [hd] in Hs. cbn [app takeWhile]. now rewrite Hs.
  - cbn [forallb] in Hr. apply andb_true_iff in Hr. destruct Hr as [Hc Hr].
    cbn [app takeWhile]. now rewrite Hc, (IH Hr).
Qed.

Lemma forcedPass_run prev c run rest st :
  outside prev = true ->
  forallb isWordChar (c :: run) = true ->
  isWordChar (hd 0 rest) = false ->
  forcedPass prev ((c :: run) ++ rest) st
  = let (st1, r) := forcedReplacer st (c :: run) [] in
    let (st2, o) := forcedPass (lastSeen run (Some c)) rest st1 in
    (st2, r ++ o).
Proof.
  intros Hp Hr Hs. unfold forcedPass.
  change ((c :: run) ++ rest) with (c :: (run ++ rest)).
  simpl replace_at. unfold wordRegex at 1.
  change (c :: run ++ rest) with ((c :: run) ++ rest).
  rewrite (takeWhile_run (c :: run) rest Hr Hs).
  simpl in Hr. apply andb_true_iff in Hr. destruct Hr as [Hc Hr].
  simpl app. rewrite Hc.
  assert (B : match prev with Some p => isWordChar p | None => false end = false).
  { destruct prev as [p|]; [|reflexivity]. simpl in Hp.
    now apply negb_true_iff in Hp. }
  rewrite B. cbn [xorb length].
  change (firstn (S (length run)) (c :: run ++ rest))
    with (c :: firstn (length run) (run ++ rest)).
  rewrite firstn_app, Nat.sub_diag, firstn_all. simpl firstn. rewrite app_nil_r.
  destruct (forcedReplacer st (c :: run) []) as [st1 r].
  rewrite replace_at_skip_app. reflexivity.
Qed.

(** A text cut into the tokens of the forced skip and the stretches
    between them: [Segmented t x l] reads [t] as the stretch [x] followed,
    for every [(w, y)] of [l], by the token [w] and the stretch [y]. *)
Inductive Segmented : jsstring -> jsstring -> list (jsstring * jsstring) -> Prop :=
| Seg_nil : Segmented [] [] []
| Seg_sep c s x l :
    isWordChar c = false ->
    Segmented s x l -> Segmented (c :: s) (c :: x) l
| Seg_word c run rest x l :
    forallb isWordChar (c :: run) = true ->
    isWordChar (hd 0 rest) = false ->
    containsEnglishLetter (c :: run) = false ->
    Segmented rest x l -> Segmented ((c :: run) ++ rest) ((c :: run) ++ x) l
| Seg_token c run rest x l :
    forallb isWordChar (c :: run) = true ->
    isWordChar (hd 0 rest) = false ->
    containsEnglishLetter (c :: run) = true ->
    Segmented rest x l -> Segmented ((c :: run) ++ rest) [] ((c :: run, x) :: l).

(** The working text: every token replaced by its placeholder, numbered
    from [i] *)
Fixpoint renderTail (i : nat) (l : list (jsstring * jsstring)) : jsstring :=
  match l with
  | [] => []
  | (_, y) :: l' => wordPlaceholder i ++ y ++ renderTail (S i) l'
  end.

Definition render (i : nat) (x : jsstring) (l : list (jsstring * jsstring)) : jsstring :=
  x ++ renderTail i l.

Lemma forcedPass_segmented t x l :
  Segmented t x l ->
  forall prev st,
    outside prev = true \/ isWordChar (hd 0 t) = false ->
    forcedPass prev t st = (st ++ map fst l, render (length st) x l).
Proof.
  induction 1 as [|c s x l Hc _ IH|c run rest x l Hr Hs He _ IH
                  |c run rest x l Hr Hs He _ IH]; intros prev st Hp.
  - rewrite forcedPass_nil. now rewrite app_nil_r.
  - rewrite (forcedPass_sep _ _ _ _ Hc), IH; [reflexivity|].
    left. simpl. now rewrite Hc.
  - assert (Hp' : outside prev = true).
    { destruct Hp as [|Hp]; [assumption|]. cbn [app hd] in Hp.
      cbn [forallb] in Hr. apply andb_true_iff in Hr. destruct Hr as [Hr _].
      congruence. }
    rewrite (forcedPass_run _ _ _ _ _ Hp' Hr Hs).
    unfold forcedReplacer. rewrite He, IH by (right; exact Hs).
    unfold render. now rewrite <- app_assoc.
  - assert (Hp' : outside prev = true).
    { destruct Hp as [|Hp]; [assumption|]. cbn [app hd] in Hp.
      cbn [forallb] in Hr. apply andb_true_iff in Hr. destruct Hr as [Hr _].
      congruence. }
    rewrite (forcedPass_run _ _ _ _ _ Hp' Hr Hs).
    unfold forcedReplacer. rewrite He, IH by (right; exact Hs).
    unfold render. cbn [map fst renderTail app].
    rewrite !length_app. cbn [length].
    replace (length st + 1 - 1)%nat with (length st) by lia.
    replace (length st + 1)%nat with (S (length st)) by lia.
    now rewrite <- app_assoc.
Qed.

Fixpoint dropWhile (f : N -> bool) (s : jsstring) : jsstring :=
  match s with
  | [] => []
  | c :: s' => if f c then dropWhile f s' else s
  end.

Lemma takeWhile_dropWhile f s : takeWhile f s ++ dropWhile f s = s.
Proof.
  induction s as [|c s IH]; [reflexivity|]. simpl.
  destruct (f c); [simpl; now rewrite IH|reflexivity].
Qed.

Lemma takeWhile_all f s : forallb f (takeWhile f s) = true.
Proof.
  induction s as [|c s IH]; [reflexivity|]. simpl.
  destruct (f c) eqn:E; [simpl; now rewrite E|reflexivity].
Qed.

Lemma dropWhile_head s : isWordChar (hd 0 (dropWhile isWordChar s)) = false.
Proof.
  induction s as [|c s IH]; [reflexivity|]. cbn [dropWhile].
  destruct (isWordChar c) eqn:E; [exact IH|exact E].
Qed.

Lemma dropWhile_length f s : (length (dropWhile f s) <= length s)%nat.
Proof.
  induction s as [|c s IH]; [simpl; lia|]. simpl.
  destruct (f c); simpl; lia.
Qed.

(** Every text can be read in this way. *)
Lemma segmented_exists t : exists x l, Segmented t x l.
Proof.
  remember (length t) as n eqn:En. revert t En.
  induction n as [n IH] using lt_wf_ind. intros t En.
  destruct t as [|c s].
  - exists [], []. constructor.
  - destruct (isWordChar c) eqn:Ec.
    + pose proof (takeWhile_dropWhile isWordChar (c :: s)) as Esplit.
      pose proof (takeWhile_all isWordChar (c :: s)) as Hall.
      pose proof (dropWhile_head (c :: s)) as Hhd.
      pose proof (dropWhile_length isWordChar s) as Hlen.
      cbn [takeWhile dropWhile] in *. rewrite Ec in *.
      destruct (IH (length (dropWhile isWordChar s))) with (t := dropWhile isWordChar s)
        as (x & l & HS); [simpl in En; lia|reflexivity|].
      rewrite <- Esplit.
      destruct (containsEnglishLetter (c :: takeWhile isWordChar s)) eqn:He.
      * eexists _, _. apply Seg_token; eauto.
      * eexists _, _. apply Seg_word; eauto.
    + destruct (IH (length s)) with (t := s) as (x & l & HS);
        [simpl in En; lia|reflexivity|].
      eexists _, _. apply Seg_sep; eauto.
Qed.

Lemma last_append (u v : jsstring) d : v <> [] -> last (u ++ v) d = last v d.
Proof.
  intros Hv. induction u as [|a u IH]; [reflexivity|].
  cbn [app]. rewrite <- IH. simpl. destruct (u ++ v) eqn:E; [|reflexivity].
  apply app_eq_nil in E. destruct E; congruence.
Qed.

Lemma last_word_run u :
  forallb isWordChar u = true -> u <> [] -> isWordChar (last u 0) = true.
Proof.
  induction u as [|e u IHu]; [congruence|]. cbn [forallb].
  rewrite andb_true_iff. intros [He' Hu] _.
  destruct u; [exact He'|]. apply IHu; [exact Hu|discriminate].
Qed.

(** A token between two texts joins their readings. *)
Lemma segmented_token a x l : Segmented a x l ->
  forall c run b y l',
    isWordChar (last a 0) = false ->
    forallb isWordChar (c :: run) = true ->
    containsEnglishLetter (c :: run) = true ->
    isWordChar (hd 0 b) = false ->
    Segmented b y l' ->
    Segmented (a ++ (c :: run) ++ b) x (l ++ (c :: run, y) :: l').
Proof.
  induction 1 as [|d s x l Hd _ IH|d r rest x l Hr Hs He HS IH
                  |d r rest x l Hr Hs He HS IH];
    intros c run b y l' Ha Hw Hq Hb Sb.
  - cbn [app]. now apply Seg_token.
  - cbn [app]. apply Seg_sep; [exact Hd|]. apply IH; auto.
    destruct s; [reflexivity|exact Ha].
  - assert (Hrest : rest <> []).
    { intros ->. rewrite app_nil_r in Ha.
      rewrite last_word_run in Ha; [discriminate|exact Hr|discriminate]. }
    rewrite <- app_assoc. apply Seg_word; auto.
    + destruct rest; [congruence|exact Hs].
    + apply IH; auto. rewrite last_append in Ha by exact Hrest. exact Ha.
  - assert (Hrest : rest <> []).
    { intros ->. rewrite app_nil_r in Ha.
      rewrite last_word_run in Ha; [discriminate|exact Hr|discriminate]. }
    rewrite <- app_assoc. cbn [app]. 
    change (d :: r ++ rest ++ (c :: run) ++ b) with ((d :: r) ++ rest ++ (c :: run) ++ b).
    apply Seg_token; auto.
    + destruct rest; [congruence|exact Hs].
    + apply IH; auto. rewrite last_append in Ha by exact Hrest. exact Ha.
Qed.

(** ** Placeholders are inert for the literal replacements *)

(** [f] works on both sides of [P] and leaves [P] alone. *)
Definition Inert (f : jsstring -> jsstring) (P : jsstring) : Prop :=
  forall x y, f (x ++ P ++ y) = f x ++ P ++ f y.

Lemma Inert_app f P1 P2 :
  f [] = [] -> Inert f P1 -> Inert f P2 -> Inert f (P1 ++ P2).
Proof.
  intros H0 H1 H2 x y. rewrite <- app_assoc, H1.
  change (P2 ++ y) with ([] ++ P2 ++ y). rewrite H2, H0.
  now rewrite <- app_assoc.
Qed.

Lemma Inert_compose f g P : Inert f P -> Inert g P -> Inert (fun s => g (f s)) P.
Proof. intros Hf Hg x y. now rewrite Hf, Hg. Qed.

Lemma Inert_fold {T} (F : jsstring -> T -> jsstring) (es : list T) P :
  Forall (fun e => Inert (fun s => F s e) P) es ->
  Inert (fun s => fold_left F es s) P.
Proof.
  induction 1 as [|e es He _ IH]; intros x y; [reflexivity|].
  simpl. rewrite He. apply IH.
Qed.

Lemma prefix_by_barrier eq p c :
  forallb (fun q => negb (eq q c)) p = true ->
  forall x y, prefix_by eq p (x ++ c :: y) = prefix_by eq p x.
Proof.
  induction p as [|q p IH]; intros Hb x y; [reflexivity|].
  cbn [forallb] in Hb. apply andb_true_iff in Hb. destruct Hb as [Hq Hb].
  destruct x as [|a x]; simpl.
  - apply negb_true_iff in Hq. now rewrite Hq.
  - now rewrite (IH Hb).
Qed.

(** A character that no character of the pattern matches splits the
    replacement. *)
Lemma replaceLiteralWith_barrier ci p f c :
  p <> [] ->
  forallb (fun q => negb (unit_eq ci q c)) p = true ->
  Inert (replaceLiteralWith ci p f) [c].
Proof.
  intros Hp Hb x. remember (length x) as n eqn:En. revert x En.
  induction n as [n IH] using lt_wf_ind. intros x En y.
  cbn [app].
  destruct (prefix_by (unit_eq ci) p x) eqn:E.
  - pose proof (prefix_by_length _ _ _ E) as Hl.
    assert (Hpl : (0 < length p)%nat) by (destruct p; [congruence|simpl; lia]).
    rewrite (replaceLiteralWith_hit ci p f x Hp E).
    rewrite replaceLiteralWith_hit;
      [|exact Hp|now rewrite (prefix_by_barrier _ _ _ Hb)].
    rewrite firstn_app, skipn_app.
    replace (length p - length x)%nat with O by lia.
    cbn [firstn skipn]. rewrite app_nil_r, <- app_assoc. f_equal.
    apply (IH (length (skipn (length p) x))); [|reflexivity].
    rewrite length_skipn. lia.
  - destruct x as [|a x].
    + rewrite (replaceLiteralWith_nil _ _ _ Hp). cbn [app].
      apply replaceLiteralWith_miss.
      pose proof (prefix_by_barrier _ _ _ Hb [] y) as Eb. cbn [app] in Eb.
      now rewrite Eb.
    + pose proof (prefix_by_barrier _ _ _ Hb (a :: x) y) as Eb. cbn [app] in Eb.
      cbn [app]. rewrite replaceLiteralWith_miss by (now rewrite Eb).
      rewrite (replaceLiteralWith_miss _ _ _ _ _ E). cbn [app]. f_equal.
      apply (IH (length x)); [simpl in En; lia|reflexivity].
Qed.

Definition isDigit (c : N) : bool := (48 <=? c) && (c <=? 57).

(** No character of the pattern matches [U+E000], the underscore or a
    digit, and the pattern occurs neither in [SKIP] nor in [WORD]. *)
Definition pass_ok (ci : bool) (p : jsstring) (f : jsstring -> jsstring) : bool :=
  negb (str_eqb p [])
  && forallb (fun c => forallb (fun q => negb (unit_eq ci q c)) p)
             [57344; 95; 48; 49; 50; 51; 52; 53; 54; 55; 56; 57]
  && str_eqb (replaceLiteralWith ci p f (js "SKIP")) (js "SKIP")
  && str_eqb (replaceLiteralWith ci p f (js "WORD")) (js "WORD").

Lemma digits_all d : forallb isDigit (digits d) = true.
Proof. induction d; simpl; auto. Qed.

Lemma decimal_nonempty k : decimal k <> [].
Proof.
  unfold decimal. pose proof (Unsigned.to_of (Nat.to_uint k)) as E.
  rewrite Unsigned.of_to in E.
  pose proof (unorm_nonnil (Nat.to_uint k)) as H. rewrite <- E in H.
  destruct (Nat.to_uint k); simpl; congruence.
Qed.

Lemma isDigit_cases c :
  isDigit c = true -> In c [48; 49; 50; 51; 52; 53; 54; 55; 56; 57].
Proof.
  unfold isDigit. rewrite andb_true_iff, !N.leb_le. intros [H1 H2].
  assert (E : c = 48 \/ c = 49 \/ c = 50 \/ c = 51 \/ c = 52 \/ c = 53 \/ c = 54
              \/ c = 55 \/ c = 56 \/ c = 57) by lia.
  simpl. intuition.
Qed.

Lemma pass_inert ci p f :
  pass_ok ci p f = true -> forall k, Inert (replaceLiteralWith ci p f) (wordPlaceholder k).
Proof.
  unfold pass_ok. rewrite !andb_true_iff. intros [[[Hp Hb] HS] HW] k.
  assert (Hp' : p <> []).
  { intros ->. discriminate. }
  rewrite forallb_forall in Hb.
  assert (B : forall c, In c [57344; 95; 48; 49; 50; 51; 52; 53; 54; 55; 56; 57] ->
                        Inert (replaceLiteralWith ci p f) [c]).
  { intros c Hc. apply replaceLiteralWith_barrier; auto. }
  pose proof (replaceLiteralWith_nil ci p f Hp') as H0.
  apply str_eqb_eq in HS. apply str_eqb_eq in HW.
  assert (U : Inert (replaceLiteralWith ci p f) [95]) by (apply B; simpl; tauto).
  assert (C : forall w, replaceLiteralWith ci p f w = w ->
                        Inert (replaceLiteralWith ci p f) (95 :: w ++ [95])).
  { intros w Hw x y.
    change (x ++ (95 :: w ++ [95]) ++ y) with (x ++ [95] ++ ((w ++ [95]) ++ y)).
    rewrite U. rewrite <- app_assoc, U, Hw.
    cbn [app]. now rewrite <- app_assoc. }
  assert (D : forall ds, ds <> [] -> forallb isDigit ds = true ->
                         Inert (replaceLiteralWith ci p f) ds).
  { induction ds as [|d ds IH]; [congruence|]. intros _ Hd.
    cbn [forallb] in Hd. apply andb_true_iff in Hd. destruct Hd as [Hd Hds].
    assert (Bd : Inert (replaceLiteralWith ci p f) [d]).
    { apply B. apply isDigit_cases in Hd. simpl in *. tauto. }
    destruct ds as [|e ds]; [exact Bd|].
    change (d :: e :: ds) with ([d] ++ e :: ds).
    apply Inert_app; auto. apply IH; [discriminate|exact Hds]. }
  unfold wordPlaceholder.
  change (SKIP_PREFIX ++ js "WORD_" ++ decimal k ++ js "__")
    with (([57344] ++ [95] ++ (95 :: js "SKIP" ++ [95]))
            ++ (95 :: js "WORD" ++ [95]) ++ decimal k ++ [95] ++ [95]).
  repeat apply Inert_app; auto.
  - apply B; simpl; tauto.
  - apply D; [apply decimal_nonempty|apply digits_all].
Qed.

(** The transformation of the working text between extraction and scan *)
Definition guardAndMerge (s : jsstring) : jsstring :=
  mergeDigraphs (handleDigraphExceptions s).

Arguments handleDigraphExceptions : simpl never.
Arguments mergeDigraphs : simpl never.
Arguments guardAndMerge : simpl never.

Lemma handleDigraphExceptions_inert k :
  Inert handleDigraphExceptions (wordPlaceholder k).
Proof.
  unfold handleDigraphExceptions.
  apply (Inert_fold (fun result (e : jsstring * list jsstring) =>
                       let (digraph, exceptionPatterns) := e in
                       fold_left
                         (fun result pattern =>
                            replaceLiteralWith true pattern (splitDigraph digraph) result)
                         exceptionPatterns result)).
  assert (C : forallb (fun e : jsstring * list jsstring =>
                         forallb (fun p => pass_ok true p (splitDigraph (fst e))) (snd e))
                      digraphExceptionPatterns = true) by (vm_compute; reflexivity).
  apply Forall_forall. intros [d pats] He.
  rewrite forallb_forall in C. specialize (C _ He). cbn [fst snd] in C.
  apply (Inert_fold (fun result pattern =>
                       replaceLiteralWith true pattern (splitDigraph d) result)).
  apply Forall_forall. intros p Hp. rewrite forallb_forall in C.
  exact (pass_inert _ _ _ (C p Hp) k).
Qed.

Lemma mergeDigraphs_inert k : Inert mergeDigraphs (wordPlaceholder k).
Proof.
  unfold mergeDigraphs.
  apply (Inert_fold (fun r (d : jsstring * jsstring) =>
                       replaceLiteral false (fst d) (snd d) r)).
  assert (C : forallb (fun d : jsstring * jsstring =>
                         pass_ok false (fst d) (fun _ => snd d))
                      digraphRegexps = true) by (vm_compute; reflexivity).
  apply Forall_forall. intros d Hd. rewrite forallb_forall in C.
  exact (pass_inert _ _ _ (C d Hd) k).
Qed.

Lemma guardAndMerge_inert k : Inert guardAndMerge (wordPlaceholder k).
Proof.
  apply (Inert_compose handleDigraphExceptions mergeDigraphs).
  - apply handleDigraphExceptions_inert.
  - apply mergeDigraphs_inert.
Qed.

Definition mapStretches (f : jsstring -> jsstring) (l : list (jsstring * jsstring))
  : list (jsstring * jsstring) :=
  map (fun wy => (fst wy, f (snd wy))) l.

Lemma guardAndMerge_render l : forall i x,
  guardAndMerge (render i x l)
  = render i (guardAndMerge x) (mapStretches guardAndMerge l).
Proof.
  induction l as [|[w y] l IH]; intros i x; unfold render in *.
  - cbn [renderTail mapStretches map]. now rewrite !app_nil_r.
  - cbn [renderTail mapStretches map fst snd].
    rewrite guardAndMerge_inert. f_equal. f_equal. apply IH.
Qed.

(** ** What the replacements preserve *)

Section Preserved.
Context {St : Type}.
Variable Q : N -> bool.
Variable m : option N -> jsstring -> option (nat * jsstring).
Variable replacer : St -> jsstring -> jsstring -> St * jsstring.
Hypothesis replacer_ok :
  forall st w cap, forallb Q w = true -> forallb Q (snd (replacer st w cap)) = true.

Lemma forallb_firstn n s : forallb Q s = true -> forallb Q (firstn n s) = true.
Proof.
  revert n; induction s as [|c s IH]; intros [|n] H; try reflexivity.
  simpl in *. apply andb_true_iff in H. destruct H as [Hc Hs].
  now rewrite Hc, IH.
Qed.

Lemma replace_at_preserves s : forall prev k st,
  forallb Q s = true ->
  forallb Q (snd (replace_at m replacer prev s k st)) = true.
Proof.
  induction s as [|c s IH]; intros prev k st H.
  - destruct k; simpl; [|reflexivity].
    destruct (m prev []) as [[len cap]|]; [|reflexivity].
    pose proof (replacer_ok st (firstn len []) cap) as R.
    destruct (replacer st (firstn len []) cap) as [st1 r]. simpl in *.
    apply R. now destruct len.
  - assert (Hs : forallb Q s = true).
    { simpl in H. apply andb_true_iff in H. tauto. }
    assert (Hc : Q c = true).
    { simpl in H. apply andb_true_iff in H. tauto. }
    destruct k; simpl; [|apply IH, Hs].
    destruct (m prev (c :: s)) as [[len cap]|].
    + pose proof (replacer_ok st (firstn len (c :: s)) cap (forallb_firstn _ _ H)) as R.
      destruct (replacer st (firstn len (c :: s)) cap) as [st1 r]. simpl in R.
      destruct len.
      * pose proof (IH (Some c) O st1 Hs) as I.
        destruct (replace_at m replacer (Some c) s 0 st1). simpl in *.
        rewrite forallb_app, R. simpl. now rewrite Hc, I.
      * pose proof (IH (Some c) len st1 Hs) as I.
        destruct (replace_at m replacer (Some c) s len st1). simpl in *.
        now rewrite forallb_app, R, I.
    + pose proof (IH (Some c) O st Hs) as I.
      destruct (replace_at m replacer (Some c) s 0 st). simpl in *.
      now rewrite Hc, I.
Qed.
End Preserved.

Lemma replaceLiteralWith_preserves (Q : N -> bool) ci p f s :
  (forall w, forallb Q w = true -> forallb Q (f w) = true) ->
  forallb Q s = true -> forallb Q (replaceLiteralWith ci p f s) = true.
Proof.
  intros Hf Hs. unfold replaceLiteralWith, replaceAll.
  apply replace_at_preserves; [|exact Hs]. intros st w cap Hw. now apply Hf.
Qed.

Lemma fold_preserves {T} (Q : N -> bool) (F : jsstring -> T -> jsstring) es :
  (forall e s, In e es -> forallb Q s = true -> forallb Q (F s e) = true) ->
  forall s, forallb Q s = true -> forallb Q (fold_left F es s) = true.
Proof.
  induction es as [|e es IH]; intros H s Hs; [exact Hs|].
  simpl. apply IH.
  - intros e' s' He'. apply H. now right.
  - apply H; [now left|exact Hs].
Qed.

(** The replacements add nothing but letters and the separator. *)
Lemma guardAndMerge_preserves (Q : N -> bool) s :
  forallb Q (ZWNJ :: flat_map (fun d => fst d ++ snd d) digraphRegexps
               ++ flat_map fst digraphExceptionPatterns) = true ->
  forallb Q s = true -> forallb Q (guardAndMerge s) = true.
Proof.
  intros HQ Hs. unfold guardAndMerge, mergeDigraphs, handleDigraphExceptions.
  cbn [forallb] in HQ. apply andb_true_iff in HQ. destruct HQ as [HZ HQ].
  rewrite forallb_app in HQ. apply andb_true_iff in HQ. destruct HQ as [HM HE].
  apply fold_preserves.
  - intros d r Hd Hr. rewrite replaceLiteral_With.
    apply replaceLiteralWith_preserves; [|exact Hr]. intros _ _.
    rewrite forallb_forall in HM. apply forallb_forall. intros c Hc.
    apply HM. apply in_flat_map. exists d. split; [exact Hd|].
    apply in_or_app. now right.
  - apply fold_preserves; [|exact Hs].
    intros [d pats] r Hd Hr. apply fold_preserves; [|exact Hr].
    intros p r' _ Hr'. apply replaceLiteralWith_preserves; [|exact Hr'].
    intros w Hw. unfold splitDigraph. rewrite replaceLiteral_With.
    apply replaceLiteralWith_preserves; [|exact Hw]. intros _ _.
    assert (Hdq : forallb Q d = true).
    { rewrite forallb_forall in HE. apply forallb_forall. intros c Hc.
      apply HE. apply in_flat_map. exists (d, pats). split; [exact Hd|exact Hc]. }
    rewrite !forallb_app. cbn [forallb]. rewrite HZ.
    rewrite !forallb_firstn; auto.
    rewrite <- (firstn_skipn 1 d), forallb_app in Hdq.
    apply andb_true_iff in Hdq. tauto.
Qed.

(** ** The scan loop on a placeholder *)

Lemma isPrefix_app p s : isPrefix p (p ++ s) = true.
Proof.
  unfold isPrefix. induction p as [|x p IH]; [reflexivity|].
  simpl. now rewrite N.eqb_refl, IH.
Qed.

Lemma indexOf_here_skip p h p' x : forall s pos,
  p = h :: p' ->
  forallb (fun c => negb (c =? h)) x = true ->
  indexOf_here p (x ++ s) pos = indexOf_here p s (pos + length x).
Proof.
  induction x as [|c x IH]; intros s pos Hp Hx.
  - simpl. now rewrite Nat.add_0_r.
  - cbn [forallb] in Hx. apply andb_true_iff in Hx. destruct Hx as [Hc Hx].
    cbn [app indexOf_here].
    rewrite (isPrefix_head p h p' c (x ++ s) Hp).
    + rewrite (IH _ _ Hp Hx). f_equal. simpl. lia.
    + apply negb_true_iff, N.eqb_neq in Hc. congruence.
Qed.

Lemma indexOf_from p s i :
  (i <= length s)%nat -> indexOf p s i = indexOf_here p (skipn i s) i.
Proof.
  intros H. unfold indexOf. apply Nat.ltb_ge in H. now rewrite H.
Qed.

Lemma isDigit_not_underscore ds :
  forallb isDigit ds = true -> forallb (fun c => negb (c =? 95)) ds = true.
Proof.
  induction ds as [|d ds IH]; [reflexivity|]. cbn [forallb].
  rewrite !andb_true_iff. intros [Hd Hds]. split; [|auto].
  unfold isDigit in Hd. apply andb_true_iff in Hd. rewrite !N.leb_le in Hd.
  apply negb_true_iff, N.eqb_neq. lia.
Qed.

Lemma indexOf_here_cons p c s pos :
  indexOf_here p (c :: s) pos
  = if isPrefix p (c :: s) then Some pos else indexOf_here p s (S pos).
Proof. reflexivity. Qed.

Lemma indexOf_here_found p s pos :
  isPrefix p s = true -> indexOf_here p s pos = Some pos.
Proof. intros H. destruct s; simpl; now rewrite H. Qed.

(** After the prefix of a word placeholder the first [__] is its end. *)
Lemma indexOf_terminator k rest pos :
  indexOf_here (js "__") (js "WORD_" ++ decimal k ++ js "__" ++ rest) pos
  = Some (pos + 5 + length (decimal k))%nat.
Proof.
  change (js "WORD_") with (js "WORD" ++ [95]). rewrite <- app_assoc.
  rewrite (indexOf_here_skip (js "__") 95 [95] (js "WORD")); [|reflexivity..].
  pose proof (decimal_nonempty k) as Hne.
  pose proof (digits_all (Nat.to_uint k)) as Hd. fold (decimal k) in Hd.
  destruct (decimal k) as [|d ds] eqn:E; [congruence|].
  pose proof (isDigit_not_underscore _ Hd) as Hu.
  cbn [app]. rewrite indexOf_here_cons.
  assert (F : isPrefix (js "__") (95 :: d :: ds ++ js "__" ++ rest) = false).
  { cbn [forallb] in Hu. apply andb_true_iff in Hu. destruct Hu as [Hu _].
    apply negb_true_iff in Hu. rewrite N.eqb_sym in Hu.
    unfold isPrefix. change (js "__") with [95; 95]. cbn [prefix_by].
    rewrite Hu. now rewrite andb_false_r. }
  rewrite F.
  change (d :: ds ++ js "__" ++ rest) with ((d :: ds) ++ js "__" ++ rest).
  rewrite (indexOf_here_skip (js "__") 95 [95] (d :: ds)); [|reflexivity|exact Hu].
  rewrite indexOf_here_found by apply isPrefix_app. f_equal. simpl. lia.
Qed.

Lemma wordPlaceholder_length k :
  length (wordPlaceholder k) = (16 + length (decimal k))%nat.
Proof.
  unfold wordPlaceholder. rewrite !length_app. simpl. lia.
Qed.

Lemma scan_step_hole result i acc k rest :
  skipn i result = wordPlaceholder k ++ rest ->
  scan_step result (i, acc)
  = ((i + length (wordPlaceholder k))%nat, acc ++ wordPlaceholder k).
Proof.
  intros Hs.
  pose proof (wordPlaceholder_length k) as HL.
  assert (Hl : (i + length (wordPlaceholder k) <= length result)%nat).
  { pose proof (f_equal (@length _) Hs) as Hn.
    rewrite length_skipn, length_app in Hn. lia. }
  unfold scan_step.
  rewrite indexOf_from by lia. rewrite Hs.
  unfold wordPlaceholder at 1. rewrite <- app_assoc.
  rewrite indexOf_here_found by apply isPrefix_app. rewrite Nat.eqb_refl.
  rewrite indexOf_from by (change (length SKIP_PREFIX) with 9%nat; lia).
  replace (skipn (i + length SKIP_PREFIX) result)
    with (skipn (length SKIP_PREFIX) (skipn i result))
    by (rewrite skipn_skipn; f_equal; lia).
  rewrite Hs. unfold wordPlaceholder at 1. rewrite <- app_assoc.
  rewrite skipn_app, skipn_all, Nat.sub_diag. cbn [skipn app].
  rewrite <- !app_assoc. rewrite indexOf_terminator.
  unfold slice. rewrite Hs.
  replace (i + length SKIP_PREFIX + 5 + length (decimal k) + 2 - i)%nat
    with (length (wordPlaceholder k))
    by (rewrite HL; change (length SKIP_PREFIX) with 9%nat; lia).
  rewrite firstn_app, Nat.sub_diag, firstn_all. cbn [firstn]. rewrite app_nil_r.
  f_equal. rewrite HL. change (length SKIP_PREFIX) with 9%nat. lia.
Qed.

Definition notPrefixChar (c : N) : bool := negb (c =? 57344).

Lemma notPrefixChar_Forall s :
  forallb notPrefixChar s = true -> Forall (fun c => c <> 57344) s.
Proof.
  apply Forall_forallb. intros c H. now apply negb_true_iff, N.eqb_neq in H.
Qed.

Fixpoint scanSteps (l : list (jsstring * jsstring)) : nat :=
  match l with
  | [] => O
  | (_, y) :: l' => S (length y + scanSteps l')
  end.

(** The scan maps the stretches and copies the placeholders. *)
Lemma scan_loop_render l : forall k x fuel result i acc rest,
  skipn i result = render k x l ++ rest ->
  forallb notPrefixChar x = true ->
  Forall (fun wy => forallb notPrefixChar (snd wy) = true) l ->
  scan_loop (length x + scanSteps l + fuel) result (i, acc)
  = scan_loop fuel result
      ((i + length (render k x l))%nat,
       acc ++ render k (flat_map cyrOf x) (mapStretches (flat_map cyrOf) l)).
Proof.
  induction l as [|[w y] l IH]; intros k x fuel result i acc rest Hs Hx Hl;
    unfold render in *.
  - cbn [renderTail scanSteps mapStretches map] in *. rewrite !app_nil_r in *.
    rewrite Nat.add_0_r.
    apply (scan_loop_plain x fuel result i acc rest Hs (notPrefixChar_Forall _ Hx)).
  - cbn [renderTail scanSteps mapStretches map fst snd] in *.
    rewrite <- !app_assoc in Hs.
    rewrite <- Nat.add_assoc.
    rewrite (scan_loop_plain x _ result i acc _ Hs (notPrefixChar_Forall _ Hx)).
    assert (Hs' : skipn (i + length x) result
                  = wordPlaceholder k ++ (y ++ renderTail (S k) l) ++ rest).
    { rewrite Nat.add_comm, <- skipn_skipn, Hs.
      rewrite skipn_app, skipn_all, Nat.sub_diag. cbn [skipn app].
      now rewrite <- app_assoc. }
    assert (Hlt : (i + length x < length result)%nat).
    { pose proof (f_equal (@length _) Hs') as Hn.
      pose proof (wordPlaceholder_length k) as HL.
      rewrite length_skipn, length_app in Hn. lia. }
    cbn [Nat.add]. rewrite scan_loop_step by exact Hlt.
    rewrite (scan_step_hole _ _ _ _ _ Hs').
    assert (Hs'' : skipn (i + length x + length (wordPlaceholder k)) result
                   = (y ++ renderTail (S k) l) ++ rest).
    { rewrite (Nat.add_comm _ (length (wordPlaceholder k))), <- skipn_skipn, Hs'.
      rewrite skipn_app, skipn_all, Nat.sub_diag. reflexivity. }
    rewrite (IH (S k) y fuel result _ _ rest Hs'');
      [|exact (Forall_inv Hl)|exact (Forall_inv_tail Hl)].
    rewrite !length_app, <- !app_assoc. f_equal. f_equal. lia.
Qed.

(** ** Restoration *)

Lemma getSubstitution_plain matched before after repl :
  forallb (fun c => negb (c =? 36)) repl = true ->
  getSubstitution matched before after repl = repl.
Proof.
  induction repl as [|c r IH]; [reflexivity|]. cbn [forallb].
  rewrite andb_true_iff. intros [Hc Hr]. apply negb_true_iff in Hc.
  cbn [getSubstitution]. rewrite Hc. now rewrite (IH Hr).
Qed.

Lemma replaceFirst_placeholder k w x z :
  forallb notPrefixChar x = true ->
  forallb (fun c => negb (c =? 36)) w = true ->
  replaceFirst (wordPlaceholder k) w (x ++ wordPlaceholder k ++ z) = x ++ w ++ z.
Proof.
  intros Hx Hw. unfold replaceFirst.
  rewrite indexOf_from by (simpl; lia). cbn [skipn].
  rewrite (indexOf_here_skip (wordPlaceholder k) 57344
             (js "__SKIP__" ++ js "WORD_" ++ decimal k ++ js "__") x);
    [|reflexivity|exact Hx].
  rewrite indexOf_here_found by apply isPrefix_app.
  cbn [Nat.add]. rewrite firstn_app, Nat.sub_diag, firstn_all. cbn [firstn].
  rewrite app_nil_r, (getSubstitution_plain _ _ _ _ Hw).
  rewrite skipn_app. replace (length x + length (wordPlaceholder k) - length x)%nat
    with (length (wordPlaceholder k)) by lia.
  rewrite (skipn_all2 x) by lia.
  rewrite skipn_app, skipn_all, Nat.sub_diag. reflexivity.
Qed.

Lemma wordChar_facts c :
  isWordChar c = true ->
  notPrefixChar c = true /\ negb (c =? 36) = true /\ negb (c =? ZWNJ) = true
  /\ negb (c =? 60) = true.
Proof.
  unfold isWordChar, between, notPrefixChar, ZWNJ.
  rewrite !orb_true_iff, !andb_true_iff, !N.leb_le, N.eqb_eq.
  intros H. rewrite !negb_true_iff, !N.eqb_neq. lia.
Qed.

Lemma wordChar_clean c :
  isWordChar c = true -> negb (c =? 60) && notPrefixChar c = true.
Proof.
  intros H. destruct (wordChar_facts c H) as (A & _ & _ & D). now rewrite A, D.
Qed.

Lemma wordChars_forall (P : N -> bool) w :
  (forall c, isWordChar c = true -> P c = true) ->
  forallb isWordChar w = true -> forallb P w = true.
Proof.
  intros HP Hw. rewrite forallb_forall in *. auto.
Qed.

(** Every placeholder is replaced, in turn, by its token. *)
Lemma restore_render l : forall k x,
  forallb notPrefixChar x = true ->
  Forall (fun wy => forallb isWordChar (fst wy) = true
                    /\ forallb notPrefixChar (snd wy) = true) l ->
  restore wordPlaceholder (map fst l) k (render k x l)
  = x ++ concat (map (fun wy => fst wy ++ snd wy) l).
Proof.
  induction l as [|[w y] l IH]; intros k x Hx Hl; unfold render in *.
  - reflexivity.
  - destruct (Forall_inv Hl) as [Hw Hy]. cbn [fst snd] in Hw, Hy.
    cbn [map fst snd restore renderTail concat].
    rewrite replaceFirst_placeholder;
      [|exact Hx|apply (wordChars_forall _ _ (fun c H => proj1 (proj2 (wordChar_facts c H))) Hw)].
    replace (x ++ w ++ y ++ renderTail (S k) l)
      with ((x ++ w ++ y) ++ renderTail (S k) l) by (now rewrite <- !app_assoc).
    rewrite IH; [now rewrite <- !app_assoc| |exact (Forall_inv_tail Hl)].
    rewrite !forallb_app, Hx, Hy.
    now rewrite (wordChars_forall _ _ (fun c H => proj1 (wordChar_facts c H)) Hw).
Qed.

(** ** The forced skip end to end *)

Lemma segmented_forall (Q : N -> bool) t x l :
  Segmented t x l -> forallb Q t = true ->
  forallb Q x = true
  /\ Forall (fun wy => forallb Q (fst wy) = true /\ forallb Q (snd wy) = true) l.
Proof.
  induction 1 as [|c s x l Hc _ IH|c run rest x l Hr Hs He _ IH
                  |c run rest x l Hr Hs He _ IH]; intros HQ.
  - split; [reflexivity|constructor].
  - cbn [forallb] in *. apply andb_true_iff in HQ. destruct HQ as [H1 H2].
    destruct (IH H2) as [Hx Hl]. now rewrite H1, Hx.
  - rewrite forallb_app in HQ. apply andb_true_iff in HQ. destruct HQ as [H1 H2].
    destruct (IH H2) as [Hx Hl]. now rewrite forallb_app, H1, Hx.
  - rewrite forallb_app in HQ. apply andb_true_iff in HQ. destruct HQ as [H1 H2].
    destruct (IH H2) as [Hx Hl]. split; [reflexivity|]. constructor; auto.
Qed.

Lemma segmented_tokens t x l :
  Segmented t x l -> Forall (fun wy => forallb isWordChar (fst wy) = true) l.
Proof.
  induction 1; auto.
Qed.

Lemma lookup_value (m : charmap) c v : lookup m c = Some v -> In v (map snd m).
Proof.
  induction m as [|[k w] m IH]; simpl; [discriminate|].
  destruct (k =? c); [intros [= ->]; auto|auto].
Qed.

Lemma cyrOf_preserves (Q : N -> bool) s :
  forallb (forallb Q) (map snd latin2CyrillicMap) = true ->
  forallb Q s = true -> forallb Q (flat_map cyrOf s) = true.
Proof.
  intros HV. induction s as [|c s IH]; [reflexivity|]. cbn [forallb flat_map].
  rewrite andb_true_iff. intros [Hc Hs]. rewrite forallb_app, (IH Hs), andb_true_r.
  unfold cyrOf, mapped. destruct (c =? ZWNJ); [reflexivity|].
  destruct (lookup latin2CyrillicMap c) as [v|] eqn:E.
  - rewrite forallb_forall in HV. apply HV, (lookup_value _ _ _ E).
  - cbn [forallb]. now rewrite Hc.
Qed.

Lemma cyrOf_no_separator s :
  forallb (fun c => negb (c =? ZWNJ)) (flat_map cyrOf s) = true.
Proof.
  induction s as [|c s IH]; [reflexivity|]. cbn [flat_map].
  rewrite forallb_app, IH, andb_true_r.
  unfold cyrOf, mapped. destruct (c =? ZWNJ) eqn:Ec; [reflexivity|].
  destruct (lookup latin2CyrillicMap c) as [v|] eqn:E.
  - assert (C : forallb (forallb (fun c => negb (c =? ZWNJ)))
                        (map snd latin2CyrillicMap) = true) by (vm_compute; reflexivity).
    rewrite forallb_forall in C. apply C, (lookup_value _ _ _ E).
  - cbn [forallb]. now rewrite Ec.
Qed.

(** A text free of [<] and of [U+E000] *)
Definition clean (s : jsstring) : bool :=
  forallb (fun c => negb (c =? 60) && notPrefixChar c) s.

(** What [toCyrillic] makes of a stretch without token *)
Definition translit (x : jsstring) : jsstring := flat_map cyrOf (guardAndMerge x).

Definition assemble (x : jsstring) (l : list (jsstring * jsstring)) : jsstring :=
  translit x ++ concat (map (fun wy => fst wy ++ translit (snd wy)) l).

Lemma forallb_weaken (P Q : N -> bool) s :
  (forall c, P c = true -> Q c = true) -> forallb P s = true -> forallb Q s = true.
Proof. intros H Hs. rewrite forallb_forall in *. auto. Qed.

Lemma toCyrillic_segmented t x l :
  clean t = true -> Segmented t x l -> returns t None (assemble x l).
Proof.
  intros Hc HS.
  destruct t as [|c r].
  { inversion HS; subst. exists O. vm_compute. reflexivity. }
  exists (length (guardAndMerge x) + scanSteps (mapStretches guardAndMerge l) + 0)%nat.
  rewrite toCyrillic_default.
  rewrite extractMarkers_default_absent.
  2:{ apply (Forall_forallb (fun c => negb (c =? 60))).
      - intros a Ha. now apply negb_true_iff, N.eqb_neq in Ha.
      - revert Hc. apply forallb_weaken. intros a Ha.
        apply andb_true_iff in Ha. tauto. }
  assert (EW : extractWords false [] (c :: r) = (map fst l, render 0 x l)).
  { unfold extractWords, replaceAll. cbn [length Nat.ltb Nat.leb].
    apply (forcedPass_segmented _ _ _ HS None []). now left. }
  rewrite EW. fold (guardAndMerge (render 0 x l)). rewrite guardAndMerge_render.
  assert (Hn : forallb notPrefixChar (c :: r) = true).
  { revert Hc. apply forallb_weaken. intros a Ha. apply andb_true_iff in Ha. tauto. }
  destruct (segmented_forall notPrefixChar _ _ _ HS Hn) as [Hx Hl].
  assert (GP : forall s, forallb notPrefixChar s = true ->
                         forallb notPrefixChar (guardAndMerge s) = true).
  { intros s. apply guardAndMerge_preserves. vm_compute. reflexivity. }
  assert (CP : forall s, forallb notPrefixChar s = true ->
                         forallb notPrefixChar (flat_map cyrOf s) = true).
  { intros s. apply cyrOf_preserves. vm_compute. reflexivity. }
  rewrite (scan_loop_render _ 0 _ 0 _ 0 [] []).
  2:{ now rewrite app_nil_r. }
  2:{ apply GP, Hx. }
  2:{ unfold mapStretches. apply Forall_map. cbn [snd].
      revert Hl. apply Forall_impl. intros wy [_ H]. apply GP, H. }
  rewrite scan_loop_end by (cbn [Nat.add]; lia). cbn [app]. f_equal.
  unfold restoreAll. cbn [restore].
  replace (map fst l)
    with (map fst (mapStretches (flat_map cyrOf) (mapStretches guardAndMerge l))).
  2:{ unfold mapStretches. rewrite !map_map. reflexivity. }
  pose proof (segmented_tokens _ _ _ HS) as Ht.
  rewrite restore_render.
  2:{ apply CP, GP, Hx. }
  2:{ unfold mapStretches. apply Forall_map, Forall_map. cbn [fst snd].
      rewrite Forall_forall in *. intros wy Hwy. split; [apply Ht, Hwy|].
      apply CP, GP. exact (proj2 (Hl wy Hwy)). }
  unfold assemble, translit, mapStretches. rewrite !map_map. cbn [fst snd].
  apply strip_absent.
  rewrite forallb_app, cyrOf_no_separator. cbn [andb].
  clear -Ht. induction l as [|[w y] l IH]; [reflexivity|].
  cbn [map concat fst snd]. rewrite !forallb_app, cyrOf_no_separator.
  rewrite (IH (Forall_inv_tail Ht)).
  pose proof (Forall_inv Ht) as Hw. cbn [fst] in Hw.
  rewrite (wordChars_forall (fun c => negb (c =? ZWNJ)) w
             (fun c H => proj1 (proj2 (proj2 (wordChar_facts c H)))) Hw).
  reflexivity.
Qed.

(** With the default options every text free of [<] and of [U+E000] is
    converted: the scan loop ends. *)
Lemma clean_text_returns t : clean t = true -> exists v, returns t None v.
Proof.
  intros H. destruct (segmented_exists t) as (x & l & S).
  exists (assemble x l). now apply toCyrillic_segmented.
Qed.


(** The same loss without options: the token [xyz] of a skip region that
    a foreign word follows is lost with the region. *)
Lemma forced_skip_lost_after_region :
  returns (js "<skip>" ++ js "xyz" ++ js "</skip>quick") None
          (57344 :: js "__SKIP__MARKER_0__quick")
  /\ occurs false (js "xyz") (57344 :: js "__SKIP__MARKER_0__quick") = false.
Proof.
  split; [|reflexivity]. exists 32%nat. vm_compute. reflexivity.
Qed.

(** ** The exception words themselves

    Every pattern filed under [dž] or [nj] (the digraphs that have a
    merged form), written in lower case, with a capital initial and in
    capitals, comes out with the two letters of its digraph one after the
    other. *)

Definition spellings (p : jsstring) : list jsstring :=
  [p; match p with [] => [] | c :: r => canonicalize c :: r end; map canonicalize p].

Definition keepsApart (digraph w : jsstring) : bool :=
  match toCyrillic 64 w None with
  | Returned out => occurs true (flat_map cyrOf digraph) out
  | _ => false
  end.

Lemma exception_words_kept_apart :
  forallb (fun e : jsstring * list jsstring =>
             forallb (fun p => forallb (keepsApart (fst e)) (spellings p)) (snd e))
          (skipn 1 digraphExceptionPatterns) = true.
Proof. vm_compute. reflexivity. Qed.

(** * Further properties of the code *)

(** ** toLatin, code unit by code unit *)

Lemma surrogate_no_key (m : charmap) h :
  forallb (fun k => k <? 55296) (map fst m) = true ->
  55296 <= h -> lookup m h = None.
Proof.
  intros Hk Hh. destruct (lookup m h) as [v|] eqn:E; [|reflexivity].
  apply (keys_forall m (fun k => k <? 55296) Hk) in E.
  apply N.ltb_lt in E. lia.
Qed.

(** Walking a string by code points or by code units gives the same
    result for a map whose keys are no surrogates. *)
Lemma chars_flat_map (m : charmap) (s : jsstring) :
  forallb (fun k => k <? 55296) (map fst m) = true ->
  flat_map (fun char => match get m char with Some v => v | None => char end)
           (chars s)
  = flat_map (mapped m) s.
Proof.
  intros Hk. remember (length s) as n eqn:En. revert s En.
  induction n as [n IH] using lt_wf_ind. intros s En.
  destruct s as [|h [|l r]]; [reflexivity| |].
  - cbn [chars flat_map get app]. unfold mapped.
    now destruct (lookup m h).
  - change (chars (h :: l :: r))
      with (if ((55296 <=? h) && (h <=? 56319)) && ((56320 <=? l) && (l <=? 57343))
            then [h; l] :: chars r else [h] :: chars (l :: r)).
    destruct (((55296 <=? h) && (h <=? 56319)) && ((56320 <=? l) && (l <=? 57343)))
      eqn:E.
    + apply andb_true_iff in E. destruct E as [E1 E2].
      apply andb_true_iff in E1. destruct E1 as [E1 _].
      apply andb_true_iff in E2. destruct E2 as [E2 _].
      apply N.leb_le in E1. apply N.leb_le in E2.
      cbn [flat_map get]. unfold mapped.
      rewrite (surrogate_no_key m h Hk) by lia.
      rewrite (surrogate_no_key m l Hk) by lia.
      cbn [app]. f_equal. f_equal.
      apply (IH (length r)); [simpl in En; lia|reflexivity].
    + pose proof (IH (length (l :: r)) ltac:(simpl in En |- *; lia) (l :: r) eq_refl)
        as I.
      cbn [flat_map get]. cbn [flat_map] in I. rewrite I. reflexivity.
Qed.

Lemma toLatin_by_units text : toLatin text = flat_map lat text.
Proof.
  rewrite toLatin_flat_map. unfold latinOf, lat.
  apply chars_flat_map. vm_compute. reflexivity.
Qed.

(** X1. [toLatin] converts a concatenation piece by piece. *)
Theorem toLatin_app a b : toLatin (a ++ b) = toLatin a ++ toLatin b.
Proof. rewrite !toLatin_by_units. apply flat_map_app. Qed.

Definition isCyrillicKey (c : N) : bool := is_some (lookup cyrillic2LatinMap c).
Definition isLatinKey (c : N) : bool := is_some (lookup latin2CyrillicMap c).

Lemma lat_facts c :
  forallb (fun u => negb (isCyrillicKey u) && isLatinKey u || (u =? c)) (lat c) = true
  /\ (isCyrillicKey c = false -> lat c = [c])
  /\ (1 <= length (lat c) <= 2)%nat
  /\ (isCyrillicKey c = true ->
      forallb (fun u => negb (isCyrillicKey u) && isLatinKey u) (lat c) = true).
Proof.
  assert (K : isCyrillicKey c = is_some (lookup cyrillic2LatinMap c)) by reflexivity.
  unfold lat, mapped. rewrite K.
  destruct (lookup cyrillic2LatinMap c) as [v|] eqn:E; cbn [is_some].
  - assert (C : forallb (fun v : jsstring =>
                  forallb (fun u => negb (isCyrillicKey u) && isLatinKey u) v
                  && (1 <=? length v)%nat && (length v <=? 2)%nat)
                  (map snd cyrillic2LatinMap) = true) by (vm_compute; reflexivity).
    rewrite forallb_forall in C. specialize (C v (lookup_value _ _ _ E)).
    apply andb_true_iff in C. destruct C as [C C3].
    apply andb_true_iff in C. destruct C as [C1 C2].
    apply Nat.leb_le in C2. apply Nat.leb_le in C3.
    repeat split; try lia; try discriminate; auto.
    revert C1. apply forallb_weaken. intros u Hu. now rewrite Hu.
  - repeat split; simpl; try lia; try discriminate.
    now rewrite N.eqb_refl, orb_true_r.
Qed.

(** Nothing that [toLatin] writes is a key of the Cyrillic map. *)
Lemma toLatin_no_cyrillic text :
  forallb (fun u => negb (isCyrillicKey u)) (toLatin text) = true.
Proof.
  rewrite toLatin_by_units. induction text as [|c t IH]; [reflexivity|].
  cbn [flat_map]. rewrite forallb_app, IH, andb_true_r.
  destruct (isCyrillicKey c) eqn:E.
  - destruct (lat_facts c) as (_ & _ & _ & H). specialize (H E).
    revert H. apply forallb_weaken. intros u Hu.
    apply andb_true_iff in Hu. tauto.
  - destruct (lat_facts c) as (_ & H & _). rewrite (H E). simpl. now rewrite E.
Qed.

Lemma toLatin_fixed text :
  forallb (fun u => negb (isCyrillicKey u)) text = true -> toLatin text = text.
Proof.
  rewrite toLatin_by_units. induction text as [|c t IH]; [reflexivity|].
  cbn [forallb flat_map]. rewrite andb_true_iff. intros [Hc Ht].
  apply negb_true_iff in Hc. destruct (lat_facts c) as (_ & H & _).
  now rewrite (H Hc), (IH Ht).
Qed.

(** X2. A text without letter of the Cyrillic map is left as it is. *)
Theorem toLatin_without_cyrillic text :
  forallb (fun u => negb (isCyrillicKey u)) text = true -> toLatin text = text.
Proof. apply toLatin_fixed. Qed.

Lemma toLatin_without_cyrillic_witness :
  toLatin (js "Beograd (Belgrade) 2024, šđčćž") = js "Beograd (Belgrade) 2024, šđčćž".
Proof.
  apply (toLatin_without_cyrillic (js "Beograd (Belgrade) 2024, šđčćž")).
  vm_compute. reflexivity.
Defined.

(** X3. [toLatin] is idempotent: its result holds no letter it would
    convert. *)
Theorem toLatin_idempotent text : toLatin (toLatin text) = toLatin text.
Proof. apply toLatin_fixed, toLatin_no_cyrillic. Qed.

(** X4. [toLatin] never shortens a text and at most doubles it. *)
Theorem toLatin_length text :
  (length text <= length (toLatin text) <= 2 * length text)%nat.
Proof.
  rewrite toLatin_by_units. induction text as [|c t IH]; [simpl; lia|].
  cbn [flat_map]. rewrite length_app. destruct (lat_facts c) as (_ & _ & H & _).
  simpl length. lia.
Qed.

(** ** Script detection, code unit by code unit *)

Definition keyCount (m : charmap) (s : jsstring) : nat :=
  length (filter (fun c => is_some (lookup m c)) s).

Lemma countIn_by_units (m : charmap) (s : jsstring) :
  forallb (fun k => k <? 55296) (map fst m) = true ->
  countIn m s = keyCount m s.
Proof.
  intros Hk. unfold countIn, keyCount.
  remember (length s) as n eqn:En. revert s En.
  induction n as [n IH] using lt_wf_ind. intros s En.
  destruct s as [|h [|l r]]; [reflexivity| |].
  { cbn [chars filter get]. now destruct (is_some (lookup m h)). }
  change (chars (h :: l :: r))
    with (if ((55296 <=? h) && (h <=? 56319)) && ((56320 <=? l) && (l <=? 57343))
          then [h; l] :: chars r else [h] :: chars (l :: r)).
  destruct (((55296 <=? h) && (h <=? 56319)) && ((56320 <=? l) && (l <=? 57343)))
    eqn:E.
  - apply andb_true_iff in E. destruct E as [E1 E2].
    apply andb_true_iff in E1. destruct E1 as [E1 _].
    apply andb_true_iff in E2. destruct E2 as [E2 _].
    apply N.leb_le in E1. apply N.leb_le in E2.
    cbn [filter get is_some].
    rewrite (surrogate_no_key m h Hk) by lia.
    rewrite (surrogate_no_key m l Hk) by lia.
    cbn [is_some]. apply (IH (length r)); [simpl in En; lia|reflexivity].
  - pose proof (IH (length (l :: r)) ltac:(simpl in En |- *; lia) (l :: r) eq_refl)
      as I.
    cbn [filter get]. destruct (is_some (lookup m h)); cbn [length]; now rewrite I.
Qed.

Lemma cyrillicCount text : countIn cyrillic2LatinMap text = keyCount cyrillic2LatinMap text.
Proof. apply countIn_by_units. vm_compute. reflexivity. Qed.

Lemma latinCount text : countIn latin2CyrillicMap text = keyCount latin2CyrillicMap text.
Proof. apply countIn_by_units. vm_compute. reflexivity. Qed.

Lemma keyCount_app m a b : keyCount m (a ++ b) = (keyCount m a + keyCount m b)%nat.
Proof. unfold keyCount. now rewrite filter_app, length_app. Qed.

Lemma isCyrillic_count text :
  isCyrillic text
  = (keyCount latin2CyrillicMap text <? keyCount cyrillic2LatinMap text)%nat.
Proof.
  destruct text as [|c t]; [reflexivity|].
  unfold isCyrillic. rewrite count_letters, cyrillicCount, latinCount. reflexivity.
Qed.

Lemma isLatin_count text :
  isLatin text
  = (keyCount cyrillic2LatinMap text <? keyCount latin2CyrillicMap text)%nat.
Proof.
  destruct text as [|c t]; [reflexivity|].
  unfold isLatin. rewrite count_letters, cyrillicCount, latinCount. reflexivity.
Qed.

(** X5. Two texts of the same majority script join into a text of that
    script. *)
Theorem majority_app a b :
  (isCyrillic a = true -> isCyrillic b = true -> isCyrillic (a ++ b) = true)
  /\ (isLatin a = true -> isLatin b = true -> isLatin (a ++ b) = true).
Proof.
  rewrite !isCyrillic_count, !isLatin_count, !keyCount_app, !Nat.ltb_lt.
  split; lia.
Qed.

Lemma majority_app_witness :
  isCyrillic (js "Добар d" ++ js "дан, х") = true
  /\ isLatin (js "Dobar д" ++ js "dan, a") = true.
Proof.
  split.
  - apply (proj1 (majority_app (js "Добар d") (js "дан, х"))); reflexivity.
  - apply (proj2 (majority_app (js "Dobar д") (js "dan, a"))); reflexivity.
Defined.

Lemma keyCount_toLatin text :
  keyCount cyrillic2LatinMap (toLatin text) = O
  /\ (keyCount cyrillic2LatinMap text + keyCount latin2CyrillicMap text
      <= keyCount latin2CyrillicMap (toLatin text))%nat
  /\ ((keyCount cyrillic2LatinMap text + keyCount latin2CyrillicMap text)%nat = O ->
      keyCount latin2CyrillicMap (toLatin text) = O).
Proof.
  rewrite toLatin_by_units. induction text as [|c t IH].
  { unfold keyCount. cbn [flat_map filter length]. repeat split; lia. }
  cbn [flat_map]. rewrite !keyCount_app.
  change (c :: t) with ([c] ++ t). rewrite !keyCount_app.
  destruct IH as (I1 & I2 & I3).
  assert (L : keyCount cyrillic2LatinMap (lat c) = O
              /\ (keyCount cyrillic2LatinMap [c] + keyCount latin2CyrillicMap [c]
                  <= keyCount latin2CyrillicMap (lat c))%nat
              /\ ((keyCount cyrillic2LatinMap [c] + keyCount latin2CyrillicMap [c])%nat = O ->
                  keyCount latin2CyrillicMap (lat c) = O)).
  { destruct (lat_facts c) as (_ & H1 & H2 & H3).
    assert (S1 : forall m x, keyCount m [x]
                             = if is_some (lookup m x) then 1%nat else O).
    { intros m x. unfold keyCount. cbn [filter].
      now destruct (is_some (lookup m x)). }
    rewrite !S1. fold (isCyrillicKey c). fold (isLatinKey c).
    destruct (isCyrillicKey c) eqn:Ec.
    - specialize (H3 eq_refl).
      assert (A : forall v, forallb (fun u => negb (isCyrillicKey u) && isLatinKey u) v = true ->
                  keyCount cyrillic2LatinMap v = O
                  /\ keyCount latin2CyrillicMap v = length v).
      { induction v as [|u v IHv]; [split; reflexivity|].
        cbn [forallb]. rewrite !andb_true_iff. intros [[Hu1 Hu2] Hv].
        apply negb_true_iff in Hu1.
        change (u :: v) with ([u] ++ v). rewrite !keyCount_app, !S1.
        fold (isCyrillicKey u). fold (isLatinKey u). rewrite Hu1, Hu2.
        destruct (IHv Hv) as [A1 A2]. rewrite A1, A2. split; reflexivity. }
      destruct (A _ H3) as [A1 A2]. rewrite A1, A2.
      assert (M : isLatinKey c = false).
      { unfold isCyrillicKey, isLatinKey in *.
        destruct (lookup cyrillic2LatinMap c) eqn:Ex; [|discriminate].
        now rewrite (maps_disjoint _ _ Ex). }
      rewrite M. repeat split; lia.
    - rewrite (H1 eq_refl), !S1. fold (isCyrillicKey c). fold (isLatinKey c).
      rewrite Ec. destruct (isLatinKey c); repeat split; lia. }
  destruct L as (L1 & L2 & L3). repeat split; lia.
Qed.

(** X6. What [toLatin] returns is never of Cyrillic majority, and it is
    of Latin majority as soon as the text holds a letter of either map. *)
Theorem toLatin_is_latin text :
  isCyrillic (toLatin text) = false
  /\ isLatin (toLatin text)
     = (0 <? countIn cyrillic2LatinMap text + countIn latin2CyrillicMap text)%nat.
Proof.
  rewrite isCyrillic_count, isLatin_count, cyrillicCount, latinCount.
  destruct (keyCount_toLatin text) as (H1 & H2 & H3). rewrite H1. split.
  - apply Nat.ltb_ge. lia.
  - destruct (Nat.ltb_spec 0 (keyCount cyrillic2LatinMap text
                              + keyCount latin2CyrillicMap text)).
    + apply Nat.ltb_lt. lia.
    + apply Nat.ltb_ge. rewrite H3; lia.
Qed.

(** ** The scan loop ends early or never *)

Lemma indexOf_ge p s from k :
  p <> [] -> indexOf p s from = Some k -> (from <= k)%nat.
Proof.
  intros Hp. unfold indexOf. destruct (length s <? from)%nat.
  - destruct p; [congruence|discriminate].
  - apply indexOf_here_ge.
Qed.

Lemma scan_step_progress result i acc :
  scan_step result (i, acc) = (i, acc)
  \/ (i < fst (scan_step result (i, acc)))%nat.
Proof.
  unfold scan_step.
  destruct (indexOf SKIP_PREFIX result i) as [k|].
  - destruct (k =? i)%nat.
    + destruct (indexOf (js "__") result (i + length SKIP_PREFIX)) as [e|] eqn:E.
      * right. apply indexOf_ge in E; [|discriminate]. cbn [fst]. lia.
      * now left.
    + right. destruct (nth_error result i); cbn [fst]; lia.
  - right. destruct (nth_error result i); cbn [fst]; lia.
Qed.

Lemma scan_loop_within fuel result : forall i acc v,
  scan_loop fuel result (i, acc) = Some v ->
  scan_loop (length result - i) result (i, acc) = Some v.
Proof.
  induction fuel as [|fuel IH]; intros i acc v H.
  - simpl in H. destruct (i <? length result)%nat eqn:E; [discriminate|].
    apply Nat.ltb_ge in E. rewrite scan_loop_end in * by lia. exact H.
  - destruct (Nat.ltb_spec i (length result)) as [Hlt|Hge].
    + rewrite scan_loop_step in H by exact Hlt.
      destruct (scan_step_progress result i acc) as [Hs|Hs].
      * rewrite Hs in H.
        rewrite (scan_loop_stuck result (i, acc) Hs) in H; [discriminate|].
        now apply Nat.ltb_lt.
      * destruct (scan_step result (i, acc)) as [i' acc'] eqn:Es. cbn [fst] in Hs.
        apply IH in H.
        replace (length result - i)%nat with (S (length result - i - 1)) by lia.
        rewrite scan_loop_step, Es by exact Hlt.
        apply (scan_loop_more _ _ _ _ H). lia.
    + rewrite scan_loop_end in * by lia. exact H.
Qed.

(** X7. The scan loop either never ends or ends within as many
    iterations as the scanned text has code units. *)
Theorem scan_loop_ends_early_or_never result :
  (forall fuel, scan_loop fuel result (O, []) = None)
  \/ (exists v, scan_loop (length result) result (O, []) = Some v).
Proof.
  destruct (scan_loop (length result) result (O, [])) as [v|] eqn:E.
  - right. now exists v.
  - left. intros fuel. destruct (scan_loop fuel result (O, [])) as [v|] eqn:F;
      [|reflexivity].
    apply scan_loop_within in F. rewrite Nat.sub_0_r in F.
    exact (eq_trans (eq_sym F) E).
Qed.

(** X8. On a text without [U+E000] the scan loop maps every code unit
    through the Latin map and drops the separators. *)
Theorem scan_loop_without_placeholder result :
  forallb notPrefixChar result = true ->
  scan_loop (length result) result (O, []) = Some (flat_map cyrOf result).
Proof.
  intros H.
  pose proof (scan_loop_plain result O result O [] []
                ltac:(now rewrite app_nil_r) (notPrefixChar_Forall _ H)) as P.
  rewrite Nat.add_0_r in P. etransitivity; [exact P|].
  apply scan_loop_end. simpl. lia.
Qed.

Lemma scan_loop_without_placeholder_witness :
  scan_loop (length (8204 :: js "aЉ1b")) (8204 :: js "aЉ1b") (O, [])
  = Some (flat_map cyrOf (8204 :: js "aЉ1b")).
Proof.
  apply (scan_loop_without_placeholder (8204 :: js "aЉ1b")). reflexivity.
Defined.

(** ** The separator never reaches the caller *)

Lemma strip_filter s :
  replaceLiteral false [ZWNJ] [] s = filter (fun c => negb (c =? ZWNJ)) s.
Proof.
  rewrite replaceLiteral_With. induction s as [|c s IH].
  - now rewrite replaceLiteralWith_nil.
  - cbn [filter]. destruct (c =? ZWNJ) eqn:E.
    + rewrite replaceLiteralWith_hit; [|discriminate|].
      * cbn [length skipn app negb]. exact IH.
      * cbn [prefix_by unit_eq]. rewrite N.eqb_sym, E. reflexivity.
    + rewrite replaceLiteralWith_miss.
      * cbn [negb]. now rewrite IH.
      * cbn [prefix_by unit_eq]. rewrite N.eqb_sym, E. reflexivity.
Qed.

Lemma filter_idem (P : N -> bool) s : forallb P (filter P s) = true.
Proof.
  induction s as [|c s IH]; [reflexivity|]. simpl.
  destruct (P c) eqn:E; [simpl; now rewrite E|exact IH].
Qed.

(** X9. Whatever the options, a text that [toCyrillic] returns holds no
    zero-width non-joiner, also where the input had one. *)
Theorem toCyrillic_no_separator fuel text options v :
  toCyrillic fuel text options = Returned v ->
  forallb (fun c => negb (c =? ZWNJ)) v = true.
Proof.
  unfold toCyrillic. destruct text as [|c text]; [intros [= <-]; reflexivity|].
  destruct (_ && _); [discriminate|].
  destruct (extractMarkers _ _ _) as [mr wt].
  destruct (extractWords _ _ _) as [sr wt'].
  destruct (scan_loop fuel _ _) as [cyr|]; [|discriminate].
  intros [= <-]. unfold restoreAll. rewrite strip_filter. apply filter_idem.
Qed.

Lemma toCyrillic_no_separator_witness :
  forallb (fun c => negb (c =? ZWNJ)) (js "аб цд") = true.
Proof.
  apply (toCyrillic_no_separator 32 (js "a" ++ 8204 :: js "b <skip>" ++ 8204 :: js "цд</skip>")
           None (js "аб цд")).
  vm_compute. reflexivity.
Defined.

(** ** What the guard and the merges keep *)

Section Homomorphism.
Variable g : N -> jsstring.

Lemma replaceLiteralWith_flat_map ci p f s :
  p <> [] ->
  (forall w, prefix_by (unit_eq ci) p w = true ->
     flat_map g (f (firstn (length p) w)) = flat_map g (firstn (length p) w)) ->
  flat_map g (replaceLiteralWith ci p f s) = flat_map g s.
Proof.
  intros Hp Hf. remember (length s) as n eqn:En. revert s En.
  induction n as [n IH] using lt_wf_ind. intros s En.
  destruct (prefix_by (unit_eq ci) p s) eqn:E.
  - rewrite replaceLiteralWith_hit by assumption.
    rewrite flat_map_app, (Hf s E).
    pose proof (prefix_by_length _ _ _ E) as Hl.
    rewrite (IH (length (skipn (length p) s))); [| |reflexivity].
    + now rewrite <- flat_map_app, firstn_skipn.
    + rewrite length_skipn. subst n. destruct p; [congruence|simpl in *; lia].
  - destruct s as [|c s]; [now rewrite replaceLiteralWith_nil|].
    rewrite replaceLiteralWith_miss by exact E. cbn [flat_map].
    rewrite (IH (length s)); [reflexivity| |reflexivity]. subst n. simpl. lia.
Qed.

Lemma fold_flat_map {T} (F : jsstring -> T -> jsstring) es :
  (forall e s, In e es -> flat_map g (F s e) = flat_map g s) ->
  forall s, flat_map g (fold_left F es s) = flat_map g s.
Proof.
  induction es as [|e es IH]; intros H s; [reflexivity|].
  simpl. rewrite IH.
  - apply H. now left.
  - intros e' s' He'. apply H. now right.
Qed.

Lemma prefix_by_exact p : forall w,
  prefix_by (unit_eq false) p w = true -> firstn (length p) w = p.
Proof.
  induction p as [|x p IH]; intros w H; [reflexivity|].
  destruct w as [|y w]; [discriminate|]. cbn [prefix_by unit_eq] in H.
  apply andb_true_iff in H. destruct H as [Hx Hp]. apply N.eqb_eq in Hx. subst y.
  cbn [length firstn]. now rewrite IH.
Qed.

Lemma mergeDigraphs_flat_map s :
  forallb (fun d => negb (str_eqb (fst d) [])
                    && str_eqb (flat_map g (snd d)) (flat_map g (fst d)))
          digraphRegexps = true ->
  flat_map g (mergeDigraphs s) = flat_map g s.
Proof.
  intros H. unfold mergeDigraphs. apply fold_flat_map. intros [p q] r Hd.
  rewrite forallb_forall in H. specialize (H _ Hd). cbn [fst snd] in *.
  apply andb_true_iff in H. destruct H as [Hn He].
  rewrite replaceLiteral_With. apply replaceLiteralWith_flat_map.
  - destruct p; [discriminate|congruence].
  - intros w Hw. rewrite (prefix_by_exact _ _ Hw). now apply str_eqb_eq.
Qed.

Hypothesis g_separator : g ZWNJ = [].

Lemma splitDigraph_flat_map a b w :
  flat_map g (splitDigraph [a; b] w) = flat_map g w.
Proof.
  unfold splitDigraph. rewrite replaceLiteral_With.
  apply replaceLiteralWith_flat_map; [discriminate|].
  intros w' Hw'. rewrite (prefix_by_exact _ _ Hw').
  cbn [firstn skipn app flat_map]. now rewrite g_separator.
Qed.

Lemma handleDigraphExceptions_flat_map s :
  flat_map g (handleDigraphExceptions s) = flat_map g s.
Proof.
  unfold handleDigraphExceptions. apply fold_flat_map. intros [d ps] r Hd.
  assert (C : forallb (fun e : jsstring * list jsstring =>
                         (length (fst e) =? 2)%nat
                         && forallb (fun p => negb (str_eqb p [])) (snd e))
                      digraphExceptionPatterns = true) by (vm_compute; reflexivity).
  rewrite forallb_forall in C. specialize (C _ Hd). cbn [fst snd] in C.
  apply andb_true_iff in C. destruct C as [Hl Hps]. apply Nat.eqb_eq in Hl.
  destruct d as [|a [|b [|? ?]]]; try discriminate.
  apply fold_flat_map. intros p r' Hp.
  rewrite forallb_forall in Hps. specialize (Hps p Hp).
  apply replaceLiteralWith_flat_map.
  - intros ->. discriminate.
  - intros w _. apply splitDigraph_flat_map.
Qed.
End Homomorphism.

Definition dropSeparators (s : jsstring) : jsstring :=
  filter (fun c => negb (c =? ZWNJ)) s.

Lemma dropSeparators_flat_map s :
  dropSeparators s = flat_map (fun c => if c =? ZWNJ then [] else [c]) s.
Proof.
  induction s as [|c s IH]; [reflexivity|]. unfold dropSeparators in *.
  cbn [filter flat_map]. destruct (c =? ZWNJ); cbn [negb app]; now rewrite IH.
Qed.

(** X10. The guard of the digraph exceptions changes a text only by
    zero-width non-joiners it puts in: without them the text is as
    before. *)
Theorem handleDigraphExceptions_only_separates text :
  dropSeparators (handleDigraphExceptions text) = dropSeparators text.
Proof.
  rewrite !dropSeparators_flat_map.
  apply handleDigraphExceptions_flat_map. reflexivity.
Qed.

(** ** From Latin to Cyrillic and back *)

Definition back (c : N) : jsstring := flat_map lat (cyrOf c).

Lemma flat_map_compose (f g : N -> jsstring) s :
  flat_map f (flat_map g s) = flat_map (fun c => flat_map f (g c)) s.
Proof.
  induction s as [|c s IH]; [reflexivity|].
  cbn [flat_map]. now rewrite flat_map_app, IH.
Qed.

Lemma lookup_pair (m : charmap) c v : lookup m c = Some v -> In (c, v) m.
Proof.
  induction m as [|[k w] m IH]; simpl; [discriminate|].
  destruct (N.eqb_spec k c); [intros [= ->]; subst; auto|auto].
Qed.

Lemma back_fixed c :
  isCyrillicKey c = false -> (c =? ZWNJ) = false -> back c = [c].
Proof.
  intros Hc Hz. unfold back, cyrOf, mapped. rewrite Hz.
  destruct (lookup latin2CyrillicMap c) as [v|] eqn:E.
  - apply lookup_pair in E.
    assert (C : forallb (fun kv : N * jsstring =>
                           str_eqb (flat_map lat (snd kv)) [fst kv])
                        latin2CyrillicMap = true) by (vm_compute; reflexivity).
    rewrite forallb_forall in C. apply str_eqb_eq, (C _ E).
  - cbn [flat_map]. rewrite app_nil_r.
    destruct (lat_facts c) as (_ & H & _). now apply H.
Qed.

Lemma flat_map_fixed (g : N -> jsstring) (P : N -> bool) s :
  (forall c, P c = true -> g c = [c]) -> forallb P s = true -> flat_map g s = s.
Proof.
  intros Hg. induction s as [|c s IH]; [reflexivity|]. cbn [forallb flat_map].
  rewrite andb_true_iff. intros [Hc Hs]. now rewrite (Hg c Hc), (IH Hs).
Qed.

Lemma translit_back y : flat_map lat (translit y) = flat_map back y.
Proof.
  unfold translit, guardAndMerge. rewrite flat_map_compose. fold back.
  rewrite mergeDigraphs_flat_map by (vm_compute; reflexivity).
  apply handleDigraphExceptions_flat_map. reflexivity.
Qed.

Lemma segmented_text t x l :
  Segmented t x l ->
  t = x ++ concat (map (fun wy : jsstring * jsstring => fst wy ++ snd wy) l).
Proof.
  induction 1 as [|c s x l Hc _ IH|c run rest x l Hr Hs He _ IH
                  |c run rest x l Hr Hs He _ IH].
  - reflexivity.
  - cbn [app]. now rewrite <- IH.
  - rewrite <- app_assoc. now rewrite <- IH.
  - cbn [map concat fst snd app]. rewrite <- !app_assoc. cbn [app].
    now rewrite <- IH.
Qed.

Definition latinSide (c : N) : bool := negb (isCyrillicKey c) && negb (c =? ZWNJ).

Lemma back_stretch y : forallb latinSide y = true -> flat_map back y = y.
Proof.
  apply flat_map_fixed. intros c Hc. unfold latinSide in Hc.
  apply andb_true_iff in Hc. destruct Hc as [H1 H2].
  apply negb_true_iff in H1, H2. now apply back_fixed.
Qed.

Lemma lat_stretch w : forallb latinSide w = true -> flat_map lat w = w.
Proof.
  apply flat_map_fixed. intros c Hc. unfold latinSide in Hc.
  apply andb_true_iff in Hc. destruct Hc as [H1 _]. apply negb_true_iff in H1.
  destruct (lat_facts c) as (_ & H & _). now apply H.
Qed.

Lemma toLatin_assemble x l :
  forallb latinSide x = true ->
  Forall (fun wy => forallb latinSide (fst wy) = true
                    /\ forallb latinSide (snd wy) = true) l ->
  toLatin (assemble x l)
  = x ++ concat (map (fun wy : jsstring * jsstring => fst wy ++ snd wy) l).
Proof.
  intros Hx Hl. rewrite toLatin_by_units. unfold assemble.
  rewrite flat_map_app, translit_back, (back_stretch _ Hx). f_equal.
  induction Hl as [|[w y] l [Hw Hy] _ IH]; [reflexivity|].
  cbn [map concat fst snd] in *.
  rewrite !flat_map_app, translit_back, (back_stretch _ Hy), (lat_stretch _ Hw).
  now rewrite IH.
Qed.

Lemma latin_text_back text :
  clean text = true -> forallb latinSide text = true ->
  exists v, returns text None v /\ toLatin v = text.
Proof.
  intros Hc Hl. destruct (segmented_exists text) as (x & l & S).
  exists (assemble x l). split; [now apply toCyrillic_segmented|].
  destruct (segmented_forall latinSide _ _ _ S Hl) as [Hx HL].
  rewrite (toLatin_assemble _ _ Hx HL). symmetry. now apply segmented_text.
Qed.

(** X11. A text written without Cyrillic letters, without [<], [U+E000]
    and the zero-width non-joiner is converted by [toCyrillic] under the
    default options, and [toLatin] gives the text back from the result:
    digraphs, digraph exceptions and foreign words included. *)
Theorem latin_round_trip text :
  clean text = true ->
  forallb (fun c => negb (isCyrillicKey c) && negb (c =? ZWNJ)) text = true ->
  exists v, returns text None v /\ toLatin v = text.
Proof. apply latin_text_back. Qed.

Lemma latin_round_trip_witness :
  exists v, returns (js "Ljubljana i Nju Jork: nadživeti injekciju, quickly!") None v
            /\ toLatin v = js "Ljubljana i Nju Jork: nadživeti injekciju, quickly!".
Proof.
  apply (latin_round_trip (js "Ljubljana i Nju Jork: nadživeti injekciju, quickly!"));
    vm_compute; reflexivity.
Defined.

(** ** Text without Latin letters *)

Lemma between_true lo hi c : between lo hi c = true <-> lo <= c <= hi.
Proof.
  unfold between. rewrite andb_true_iff, !N.leb_le. tauto.
Qed.

Lemma between_false lo hi c : between lo hi c = false <-> c < lo \/ hi < c.
Proof.
  unfold between. rewrite andb_false_iff, !N.leb_gt. tauto.
Qed.

(** Only a basic Latin letter is folded onto a basic Latin capital. *)
Lemma canonicalize_ascii c u :
  65 <= u <= 90 -> canonicalize c = u -> c = u \/ c = u + 32.
Proof.
  intros Hu. unfold canonicalize.
  destruct (between 97 122 c) eqn:B1; [apply between_true in B1; lia|].
  apply between_false in B1.
  destruct (c =? 181); [lia|].
  destruct (between 224 254 c) eqn:B2.
  { apply between_true in B2. destruct (negb (c =? 247)); cbn [andb].
    - lia.
    - destruct (c =? 255); [lia|].
      assert (between 256 303 c = false /\ between 306 311 c = false
              /\ between 330 375 c = false /\ between 313 328 c = false
              /\ between 377 382 c = false /\ between 1072 1103 c = false
              /\ between 1104 1119 c = false) as (-> & -> & -> & -> & -> & -> & ->)
        by (repeat split; apply between_false; lia).
      cbn [orb]. lia. }
  cbn [andb]. destruct (c =? 255); [lia|].
  destruct (between 256 303 c || between 306 311 c || between 330 375 c) eqn:B3.
  { assert (256 <= c).
    { rewrite !orb_true_iff, !between_true in B3. lia. }
    destruct (N.odd c); lia. }
  destruct (between 313 328 c || between 377 382 c) eqn:B4.
  { assert (313 <= c).
    { rewrite !orb_true_iff, !between_true in B4. lia. }
    destruct (N.even c); lia. }
  destruct (between 1072 1103 c) eqn:B5; [apply between_true in B5; lia|].
  destruct (between 1104 1119 c) eqn:B6; [apply between_true in B6; lia|].
  lia.
Qed.

(** The letters [D L N d l n]: every pattern of the guard and of the
    merges holds one of them. *)
Definition anchor (q : N) : bool := existsb (N.eqb q) [68; 76; 78; 100; 108; 110].

Lemma anchor_match ci q c :
  anchor q = true -> unit_eq ci q c = true -> isLatinKey c = true.
Proof.
  intros Hq. unfold anchor in Hq. cbn [existsb] in Hq.
  rewrite !orb_true_iff, !N.eqb_eq in Hq.
  destruct ci; cbn [unit_eq]; rewrite N.eqb_eq; intros H.
  - assert (exists u, 65 <= u <= 90 /\ canonicalize q = u
                      /\ isLatinKey u = true /\ isLatinKey (u + 32) = true) as
        (u & Hu & Eq & K1 & K2).
    { destruct Hq as [Hq|[Hq|[Hq|[Hq|[Hq|[Hq|Hq]]]]]]; try discriminate Hq; subst q;
        [exists 68|exists 76|exists 78|exists 68|exists 76|exists 78];
        repeat split; first [lia|vm_compute; reflexivity]. }
    rewrite Eq in H. symmetry in H.
    destruct (canonicalize_ascii c u Hu H) as [-> | ->]; assumption.
  - subst c.
    destruct Hq as [Hq|[Hq|[Hq|[Hq|[Hq|[Hq|Hq]]]]]]; try discriminate Hq; subst q;
      vm_compute; reflexivity.
Qed.

Lemma prefix_by_alien (eq : N -> N -> bool) q p : forall s,
  In q p -> (forall c, In c s -> eq q c = false) -> prefix_by eq p s = false.
Proof.
  induction p as [|x p IH]; intros s Hq Hs; [destruct Hq|].
  destruct s as [|y s]; [reflexivity|]. cbn [prefix_by].
  destruct Hq as [-> |Hq].
  - rewrite Hs; [reflexivity|now left].
  - rewrite (IH s Hq); [apply andb_false_r|]. intros c Hc. apply Hs. now right.
Qed.

Lemma occurs_alien ci p s :
  existsb anchor p = true ->
  forallb (fun c => negb (isLatinKey c)) s = true ->
  occurs ci p s = false.
Proof.
  intros Hp Hs. apply existsb_exists in Hp. destruct Hp as (q & Hq & Ha).
  assert (A : forall c, negb (isLatinKey c) = true -> unit_eq ci q c = false).
  { intros c Hc. destruct (unit_eq ci q c) eqn:E; [|reflexivity].
    rewrite (anchor_match _ _ _ Ha E) in Hc. discriminate. }
  induction s as [|c s IH]; cbn [occurs].
  - rewrite (prefix_by_alien _ q); [reflexivity|exact Hq|intros ? []].
  - cbn [forallb] in Hs. apply andb_true_iff in Hs. destruct Hs as [Hc Hs].
    rewrite (IH Hs), orb_false_r. apply (prefix_by_alien _ q); [exact Hq|].
    intros d Hd. apply A. rewrite forallb_forall in Hs.
    destruct Hd as [<- |Hd]; [exact Hc|now apply Hs].
Qed.

Lemma fold_fixed {T} (F : jsstring -> T -> jsstring) es s :
  (forall e, In e es -> F s e = s) -> fold_left F es s = s.
Proof.
  induction es as [|e es IH]; intros H; [reflexivity|].
  simpl. rewrite H by now left. apply IH. intros e' He'. apply H. now right.
Qed.

Lemma guardAndMerge_fixed s :
  forallb (fun c => negb (isLatinKey c)) s = true -> guardAndMerge s = s.
Proof.
  intros Hs. unfold guardAndMerge.
  assert (G : handleDigraphExceptions s = s).
  { unfold handleDigraphExceptions. apply fold_fixed. intros [d ps] Hd.
    assert (C : forallb (fun e : jsstring * list jsstring =>
                           forallb (existsb anchor) (snd e))
                        digraphExceptionPatterns = true) by (vm_compute; reflexivity).
    rewrite forallb_forall in C. specialize (C _ Hd). cbn [snd] in C.
    apply fold_fixed. intros p Hp. rewrite forallb_forall in C.
    apply replaceLiteralWith_absent, occurs_alien; [now apply C|exact Hs]. }
  rewrite G. unfold mergeDigraphs. apply fold_fixed. intros [p r] Hd.
  assert (C : forallb (fun d : jsstring * jsstring => existsb anchor (fst d))
                      digraphRegexps = true) by (vm_compute; reflexivity).
  rewrite forallb_forall in C. specialize (C _ Hd). cbn [fst snd] in *.
  rewrite replaceLiteral_With.
  apply replaceLiteralWith_absent, occurs_alien; [exact C|exact Hs].
Qed.

Definition cyrillicSide (c : N) : bool := negb (isLatinKey c) && negb (c =? ZWNJ).

Lemma translit_fixed y : forallb cyrillicSide y = true -> translit y = y.
Proof.
  intros Hy. unfold translit. rewrite guardAndMerge_fixed.
  - revert Hy. apply flat_map_fixed. intros c Hc. unfold cyrillicSide in Hc.
    apply andb_true_iff in Hc. destruct Hc as [H1 H2].
    apply negb_true_iff in H1, H2. unfold cyrOf, mapped. rewrite H2.
    unfold isLatinKey in H1. now destruct (lookup latin2CyrillicMap c).
  - revert Hy. apply forallb_weaken. intros c Hc. unfold cyrillicSide in Hc.
    apply andb_true_iff in Hc. tauto.
Qed.

Lemma assemble_fixed x l :
  forallb cyrillicSide x = true ->
  Forall (fun wy => forallb cyrillicSide (fst wy) = true
                    /\ forallb cyrillicSide (snd wy) = true) l ->
  assemble x l
  = x ++ concat (map (fun wy : jsstring * jsstring => fst wy ++ snd wy) l).
Proof.
  intros Hx Hl. unfold assemble. rewrite (translit_fixed _ Hx). f_equal.
  induction Hl as [|[w y] l [Hw Hy] _ IH]; [reflexivity|].
  cbn [map concat fst snd] in *. now rewrite (translit_fixed _ Hy), IH.
Qed.

Lemma cyrillic_text_kept text :
  clean text = true -> forallb cyrillicSide text = true -> returns text None text.
Proof.
  intros Hc Hl. destruct (segmented_exists text) as (x & l & S).
  destruct (segmented_forall cyrillicSide _ _ _ S Hl) as [Hx HL].
  pose proof (toCyrillic_segmented _ _ _ Hc S) as R.
  rewrite (assemble_fixed _ _ Hx HL), <- (segmented_text _ _ _ S) in R. exact R.
Qed.

(** X12. [toCyrillic] under the default options gives back, as it is, a
    text that holds no letter of the Latin map, no [<], no [U+E000] and no
    zero-width non-joiner: Cyrillic text, digits, punctuation, the
    letters [q w x y]. *)
Theorem toCyrillic_keeps_unmapped text :
  clean text = true ->
  forallb (fun c => negb (isLatinKey c) && negb (c =? ZWNJ)) text = true ->
  returns text None text.
Proof. apply cyrillic_text_kept. Qed.

Lemma toCyrillic_keeps_unmapped_witness :
  returns (js "Њујорк 2024: Ђорђе, x+y=w?") None (js "Њујорк 2024: Ђорђе, x+y=w?").
Proof.
  apply (toCyrillic_keeps_unmapped (js "Њујорк 2024: Ђорђе, x+y=w?"));
    vm_compute; reflexivity.
Defined.

(** ** Termination on clean text *)

Lemma translit_no_prefix x :
  forallb notPrefixChar x = true -> forallb notPrefixChar (translit x) = true.
Proof.
  intros H. unfold translit. apply cyrOf_preserves; [vm_compute; reflexivity|].
  apply guardAndMerge_preserves; [vm_compute; reflexivity|exact H].
Qed.

Lemma assemble_no_prefix x l :
  forallb notPrefixChar x = true ->
  Forall (fun wy => forallb notPrefixChar (fst wy) = true
                    /\ forallb notPrefixChar (snd wy) = true) l ->
  forallb notPrefixChar (assemble x l) = true.
Proof.
  intros Hx Hl. unfold assemble.
  rewrite forallb_app, (translit_no_prefix _ Hx). cbn [andb].
  induction Hl as [|[w y] l [Hw Hy] _ IH]; [reflexivity|].
  cbn [map concat fst snd] in *.
  now rewrite !forallb_app, Hw, (translit_no_prefix _ Hy), IH.
Qed.

Lemma clean_text_no_prefix text :
  clean text = true ->
  exists v, returns text None v /\ forallb notPrefixChar v = true.
Proof.
  intros Hc. destruct (segmented_exists text) as (x & l & S).
  exists (assemble x l). split; [now apply toCyrillic_segmented|].
  assert (Hp : forallb notPrefixChar text = true).
  { revert Hc. apply forallb_weaken. intros c H.
    apply andb_true_iff in H. tauto. }
  destruct (segmented_forall notPrefixChar _ _ _ S Hp) as [Hx HL].
  now apply assemble_no_prefix.
Qed.

(** X13. On a text without [<] and without [U+E000], [toCyrillic] under
    the default options comes back with a result, and the result holds no
    [U+E000]: no placeholder is left in it. *)
Theorem clean_text_converted text :
  clean text = true ->
  exists v, returns text None v /\ forallb (fun c => negb (c =? 57344)) v = true.
Proof. apply clean_text_no_prefix. Qed.

Lemma clean_text_converted_witness :
  exists v, returns (js "Windows i Linux, __SKIP_0__ x") None v
            /\ forallb (fun c => negb (c =? 57344)) v = true.
Proof.
  apply (clean_text_converted (js "Windows i Linux, __SKIP_0__ x")).
  vm_compute. reflexivity.
Defined.

(** ** autoTransliterate, there and back *)

Lemma segmented_english t x l :
  Segmented t x l -> Forall (fun wy => containsEnglishLetter (fst wy) = true) l.
Proof.
  induction 1; auto.
Qed.

Lemma latin_keys_no_english w :
  forallb isLatinKey w = true -> containsEnglishLetter w = false.
Proof.
  induction w as [|c w IH]; [reflexivity|]. cbn [forallb].
  rewrite andb_true_iff. intros [Hc Hw].
  change (containsEnglishLetter (c :: w))
    with (isEnglishLetter c || containsEnglishLetter w).
  rewrite (IH Hw), orb_false_r.
  unfold isLatinKey in Hc. destruct (lookup latin2CyrillicMap c) as [v|] eqn:E;
    [|discriminate].
  apply (keys_forall latin2CyrillicMap (fun k => negb (isEnglishLetter k)))
    in E; [|vm_compute; reflexivity].
  now apply negb_true_iff in E.
Qed.

Lemma latin_key_facts c :
  isLatinKey c = true ->
  (negb (c =? 60) && notPrefixChar c) = true /\ latinSide c = true.
Proof.
  unfold isLatinKey. destruct (lookup latin2CyrillicMap c) as [v|] eqn:E;
    [intros _|discriminate].
  apply (keys_forall latin2CyrillicMap
           (fun k => (negb (k =? 60) && notPrefixChar k) && latinSide k))
    in E; [|vm_compute; reflexivity].
  now apply andb_true_iff in E.
Qed.

Lemma cyrOf_cyrillic s :
  forallb (fun c => (c =? ZWNJ) || isLatinKey c || isCyrillicKey c) s = true ->
  forallb isCyrillicKey (flat_map cyrOf s) = true.
Proof.
  induction s as [|c s IH]; [reflexivity|]. cbn [forallb flat_map].
  rewrite andb_true_iff. intros [Hc Hs]. rewrite forallb_app, (IH Hs), andb_true_r.
  unfold cyrOf, mapped. destruct (c =? ZWNJ); [reflexivity|]. cbn [orb] in Hc.
  unfold isLatinKey in Hc.
  destruct (lookup latin2CyrillicMap c) as [v|] eqn:E.
  - assert (C : forallb (forallb isCyrillicKey) (map snd latin2CyrillicMap) = true)
      by (vm_compute; reflexivity).
    rewrite forallb_forall in C. apply C, (lookup_value _ _ _ E).
  - cbn [is_some orb forallb] in *. now rewrite Hc.
Qed.

Lemma keyCount_all (m : charmap) s :
  forallb (fun c => is_some (lookup m c)) s = true -> keyCount m s = length s.
Proof.
  unfold keyCount. induction s as [|c s IH]; [reflexivity|]. cbn [forallb filter].
  rewrite andb_true_iff. intros [-> Hs]. cbn [length]. now rewrite IH.
Qed.

Lemma keyCount_none (m : charmap) s :
  forallb (fun c => negb (is_some (lookup m c))) s = true -> keyCount m s = O.
Proof.
  unfold keyCount. induction s as [|c s IH]; [reflexivity|]. cbn [forallb filter].
  rewrite andb_true_iff. intros [Hc Hs]. apply negb_true_iff in Hc. rewrite Hc.
  now apply IH.
Qed.

Lemma latin_letters_converted text :
  forallb isLatinKey text = true ->
  exists v, returns text None v /\ toLatin v = text
            /\ forallb isCyrillicKey v = true.
Proof.
  intros Hk. destruct (segmented_exists text) as (x & l & S).
  assert (Hc : clean text = true).
  { revert Hk. apply forallb_weaken. intros c Kc. now apply latin_key_facts. }
  assert (Hl : forallb latinSide text = true).
  { revert Hk. apply forallb_weaken. intros c Kc. now apply latin_key_facts. }
  exists (assemble x l). split; [now apply toCyrillic_segmented|]. split.
  - destruct (segmented_forall latinSide _ _ _ S Hl) as [Hx HL].
    rewrite (toLatin_assemble _ _ Hx HL). symmetry. now apply segmented_text.
  - destruct (segmented_forall isLatinKey _ _ _ S Hk) as [Hx HL].
    pose proof (segmented_english _ _ _ S) as He.
    destruct l as [|[w y] l].
    + unfold assemble. cbn [map concat]. rewrite app_nil_r.
      unfold translit. apply cyrOf_cyrillic.
      apply guardAndMerge_preserves; [vm_compute; reflexivity|].
      revert Hx. apply forallb_weaken. intros c ->. now rewrite orb_true_r.
    + inversion HL as [|? ? [Hw _] _]; subst. inversion He as [|? ? Hq _]; subst.
      cbn [fst] in *. rewrite (latin_keys_no_english _ Hw) in Hq. discriminate.
Qed.

Lemma autoTransliterate_there_and_back text :
  text <> [] -> forallb isLatinKey text = true ->
  exists fuel v, autoTransliterate fuel text None = Returned v
                 /\ isCyrillic v = true
                 /\ autoTransliterate fuel v None = Returned text.
Proof.
  intros Hn Hk. destruct (latin_letters_converted text Hk) as (v & [fuel R] & Hb & Hv).
  exists fuel, v.
  assert (Lt : keyCount latin2CyrillicMap text = length text)
    by (apply keyCount_all; exact Hk).
  assert (Ct : keyCount cyrillic2LatinMap text = O).
  { apply keyCount_none. revert Hk. apply forallb_weaken. intros c Hc.
    apply latin_key_facts in Hc. destruct Hc as [_ Hc]. unfold latinSide in Hc.
    apply andb_true_iff in Hc. tauto. }
  assert (Cv : keyCount cyrillic2LatinMap v = length v)
    by (apply keyCount_all; exact Hv).
  assert (Lv : keyCount latin2CyrillicMap v = O).
  { apply keyCount_none. revert Hv. apply forallb_weaken. intros c Hc.
    unfold isCyrillicKey in Hc.
    destruct (lookup cyrillic2LatinMap c) as [w|] eqn:E; [|discriminate].
    now rewrite (maps_disjoint _ _ E). }
  assert (Nt : (0 < length text)%nat) by (destruct text; [congruence|simpl; lia]).
  assert (Nv : (0 < length v)%nat).
  { destruct v; [|simpl; lia]. rewrite <- Hb in Hn. now contradiction Hn. }
  assert (It : isCyrillic text = false).
  { rewrite isCyrillic_count, Lt, Ct. apply Nat.ltb_ge. lia. }
  assert (Jt : isLatin text = true).
  { rewrite isLatin_count, Lt, Ct. apply Nat.ltb_lt. lia. }
  assert (Iv : isCyrillic v = true).
  { rewrite isCyrillic_count, Lv, Cv. apply Nat.ltb_lt. lia. }
  repeat split.
  - unfold autoTransliterate. destruct text; [congruence|]. now rewrite It, Jt.
  - exact Iv.
  - unfold autoTransliterate. destruct v; [simpl in Nv; lia|]. now rewrite Iv, Hb.
Qed.

(** X14. A non-empty text made of letters of the Latin map only is
    turned by [autoTransliterate] into a text of Cyrillic majority, and a
    second [autoTransliterate] gives the first text back. *)
Theorem autoTransliterate_round_trip text :
  text <> [] -> forallb isLatinKey text = true ->
  exists fuel v, autoTransliterate fuel text None = Returned v
                 /\ isCyrillic v = true
                 /\ autoTransliterate fuel v None = Returned text.
Proof. apply autoTransliterate_there_and_back. Qed.

Lemma autoTransliterate_round_trip_witness :
  exists fuel v, autoTransliterate fuel (js "nadživetiLjubavinjekcija") None = Returned v
                 /\ isCyrillic v = true
                 /\ autoTransliterate fuel v None = Returned (js "nadživetiLjubavinjekcija").
Proof.
  apply (autoTransliterate_round_trip (js "nadživetiLjubavinjekcija"));
    [discriminate|vm_compute; reflexivity].
Defined.

(** ** What the skip passes retain *)

Definition forcedToken (w : jsstring) : bool :=
  negb (str_eqb w []) && forallb isWordChar w && containsEnglishLetter w.

Lemma segmented_table t x l :
  Segmented t x l -> Forall (fun w => forcedToken w = true) (map fst l).
Proof.
  induction 1 as [|c s x l Hc _ IH|c run rest x l Hr Hs He _ IH
                  |c run rest x l Hr Hs He _ IH]; try assumption.
  - constructor.
  - cbn [map fst]. constructor; [|exact IH].
    unfold forcedToken. now rewrite Hr, He.
Qed.

(** X15. Without listed skip words, every entry that [Handle skip words]
    retains is a non-empty run of word characters with one of the
    letters [q w x y] in it, in either case. *)
Theorem forced_skip_retains_words ci workingText :
  Forall (fun w => forcedToken w = true) (fst (extractWords ci [] workingText)).
Proof.
  destruct (segmented_exists workingText) as (x & l & S).
  unfold extractWords, replaceAll. cbn [length Nat.ltb Nat.leb].
  pose proof (forcedPass_segmented _ _ _ S None [] (or_introl eq_refl)) as F.
  unfold forcedPass in F. rewrite F. cbn [fst app].
  now apply (segmented_table _ _ _ S).
Qed.

Section StateInvariant.
Context {A St : Type}.
Variable m : option A -> list A -> option (nat * list A).
Variable replacer : St -> list A -> list A -> St * list A.
Variable I : St -> Prop.
Hypothesis step_ok : forall prev s st len cap,
  m prev s = Some (len, cap) -> I st -> I (fst (replacer st (firstn len s) cap)).

Lemma replace_at_state s : forall prev k st,
  I st -> I (fst (replace_at m replacer prev s k st)).
Proof.
  induction s as [|c s IH]; intros prev k st H.
  - destruct k; simpl; [|exact H].
    destruct (m prev []) as [[len cap]|] eqn:E; [|exact H].
    pose proof (step_ok _ _ _ _ _ E H) as R.
    destruct (replacer st (firstn len []) cap) as [st1 r]. exact R.
  - destruct k; simpl; [|apply IH, H].
    destruct (m prev (c :: s)) as [[len cap]|] eqn:E.
    + pose proof (step_ok _ _ _ _ _ E H) as R.
      destruct (replacer st (firstn len (c :: s)) cap) as [st1 r]. cbn [fst] in R.
      destruct len.
      * pose proof (IH (Some c) O st1 R) as J.
        now destruct (replace_at m replacer (Some c) s 0 st1).
      * pose proof (IH (Some c) len st1 R) as J.
        now destruct (replace_at m replacer (Some c) s len st1).
    + pose proof (IH (Some c) O st H) as J.
      now destruct (replace_at m replacer (Some c) s 0 st).
Qed.
End StateInvariant.

Lemma prefix_by_firstn (eq : N -> N -> bool) p : forall k s,
  prefix_by eq p (firstn k s) = true -> prefix_by eq p s = true.
Proof.
  induction p as [|x p IH]; intros k s H; [reflexivity|].
  destruct k, s as [|y s]; try discriminate. cbn [firstn prefix_by] in *.
  apply andb_true_iff in H. destruct H as [-> H]. exact (IH _ _ H).
Qed.

(** A retained content: no line terminator in it and, unless the closing
    marker is empty, no closing marker *)
Definition markerContent (ci : bool) (close content : jsstring) : bool :=
  forallb (fun c => negb (isLineTerminator c)) content
  && (str_eqb close [] || negb (occurs ci close content)).

Lemma lazyDot_content ci close s : forall k,
  lazyDot ci close s = Some k -> markerContent ci close (firstn k s) = true.
Proof.
  assert (Z : markerContent ci close [] = true).
  { unfold markerContent. destruct close; reflexivity. }
  induction s as [|c s IH]; intros k; cbn [lazyDot].
  - destruct (prefix_by (unit_eq ci) close []); [|discriminate].
    intros [= <-]. exact Z.
  - destruct (prefix_by (unit_eq ci) close (c :: s)) eqn:E.
    { intros [= <-]. exact Z. }
    destruct (isLineTerminator c) eqn:L; [discriminate|].
    destruct (lazyDot ci close s) as [k'|]; [|discriminate].
    intros [= <-]. specialize (IH k' eq_refl). unfold markerContent in *.
    apply andb_true_iff in IH. destruct IH as [I1 I2].
    cbn [firstn forallb occurs]. rewrite L, I1. cbn [negb andb].
    destruct (str_eqb close []); [reflexivity|]. cbn [orb] in *.
    apply negb_true_iff in I2. rewrite I2, orb_false_r.
    destruct (prefix_by (unit_eq ci) close (c :: firstn k' s)) eqn:P; [|reflexivity].
    change (c :: firstn k' s) with (firstn (S k') (c :: s)) in P.
    apply prefix_by_firstn in P. congruence.
Qed.

(** X16. Every content that [Handle skip markers] retains is free of line
    terminators and, for a non-empty closing marker, holds no closing
    marker. *)
Theorem marker_content_single_line ci open close text :
  Forall (fun content => markerContent ci close content = true)
         (fst (extractMarkers ci [open; close] text)).
Proof.
  unfold extractMarkers, replaceAll. cbn [length Nat.eqb nth].
  assert (Hstep : forall prev s (st : list jsstring * nat) len cap,
    markerRegex ci open close prev s = Some (len, cap) ->
    Forall (fun content => markerContent ci close content = true) (fst st) ->
    Forall (fun content => markerContent ci close content = true)
           (fst (fst (markerReplacer st (firstn len s) cap)))).
  { intros prev s [table i] len cap M K. cbn [markerReplacer fst] in *.
    apply Forall_app. split; [exact K|]. constructor; [|constructor].
    unfold markerRegex in M.
    destruct (prefix_by (unit_eq ci) open s); [|discriminate].
    destruct (lazyDot ci close (skipn (length open) s)) as [k|] eqn:D; [|discriminate].
    injection M as _ <-. now apply lazyDot_content. }
  pose proof (replace_at_state (markerRegex ci open close) markerReplacer
                (fun st => Forall (fun content => markerContent ci close content = true)
                                  (fst st)) Hstep text None O ([], O)) as R.
  destruct (replace_at (markerRegex ci open close) markerReplacer None text 0 ([], O))
    as [st w]. cbn [fst] in *. apply R. constructor.
Qed.

(** ** Letter counts *)

Lemma keyCount_disjoint s :
  (keyCount cyrillic2LatinMap s + keyCount latin2CyrillicMap s <= length s)%nat.
Proof.
  unfold keyCount. induction s as [|c s IH]; [simpl; lia|]. cbn [filter length].
  destruct (lookup cyrillic2LatinMap c) as [v|] eqn:E.
  - rewrite (maps_disjoint _ _ E). cbn [is_some length]. lia.
  - cbn [is_some]. destruct (is_some (lookup latin2CyrillicMap c)); cbn [length]; lia.
Qed.

(** X17. The letter counts of a concatenation are the sums of the counts
    of its parts, wherever the cut falls, and the two counts together
    never exceed the number of code units. *)
Theorem letter_counts_app a b :
  countCyrillicAndLatinLetters (a ++ b)
  = {| cyrillic := cyrillic (countCyrillicAndLatinLetters a)
                   + cyrillic (countCyrillicAndLatinLetters b);
       latin := latin (countCyrillicAndLatinLetters a)
                + latin (countCyrillicAndLatinLetters b) |}
  /\ (cyrillic (countCyrillicAndLatinLetters a)
      + latin (countCyrillicAndLatinLetters a) <= length a)%nat.
Proof.
  rewrite !count_letters, !cyrillicCount, !latinCount, !keyCount_app.
  cbn [cyrillic latin]. split; [reflexivity|apply keyCount_disjoint].
Qed.

(** ** Markers that are no pair *)

Lemma extractMarkers_no_pair ci ms text :
  length ms <> 2%nat -> extractMarkers ci ms text = ([], text).
Proof.
  intros H. unfold extractMarkers. apply Nat.eqb_neq in H. now rewrite H.
Qed.

(** X18. A marker list that is no pair is not used at all, the default
    markers neither: the call runs as with an empty marker list, and it
    never raises the identical-markers error. *)
Theorem markers_no_pair_ignored fuel text cs ws ms :
  length ms <> 2%nat ->
  toCyrillic fuel text (skipOptions cs ws (Some ms))
  = toCyrillic fuel text (skipOptions cs ws (Some []))
  /\ toCyrillic fuel text (skipOptions cs ws (Some ms)) <> Threw identicalMarkers.
Proof.
  intros H.
  assert (E : toCyrillic fuel text (skipOptions cs ws (Some ms))
              = toCyrillic fuel text (skipOptions cs ws (Some []))).
  { unfold toCyrillic, skipOptions, resolve. cbn [skip markers words caseSensitive].
    destruct text as [|c r]; [reflexivity|].
    rewrite !extractMarkers_no_pair by (exact H || discriminate).
    apply Nat.eqb_neq in H. rewrite H. reflexivity. }
  split; [exact E|]. rewrite E.
  unfold toCyrillic, skipOptions, resolve. cbn [skip markers words caseSensitive].
  destruct text as [|c r]; [discriminate|].
  cbn [length Nat.eqb andb].
  destruct (extractMarkers _ _ _) as [mr wt].
  destruct (extractWords _ _ _) as [sr wt'].
  destruct (scan_loop _ _ _); discriminate.
Qed.

Lemma markers_no_pair_ignored_witness :
  toCyrillic 64 (js "<skip>ok</skip>") (skipOptions None None (Some [js "<skip>"]))
  = toCyrillic 64 (js "<skip>ok</skip>") (skipOptions None None (Some []))
  /\ toCyrillic 64 (js "<skip>ok</skip>") (skipOptions None None (Some [js "<skip>"]))
     <> Threw identicalMarkers.
Proof.
  apply (markers_no_pair_ignored 64 (js "<skip>ok</skip>") None None [js "<skip>"]).
  simpl. lia.
Defined.

(** ** Placeholders *)

Lemma digits_apart a : forall b t t',
  forallb isDigit a = true -> forallb isDigit b = true ->
  isPrefix (a ++ 95 :: t) (b ++ 95 :: t') = true -> a = b.
Proof.
  unfold isPrefix.
  induction a as [|x a IH]; intros [|y b] t t' Ha Hb H; cbn [app prefix_by forallb] in *.
  - reflexivity.
  - apply andb_true_iff in Hb. destruct Hb as [Hy _].
    apply andb_true_iff in H. destruct H as [H _]. apply N.eqb_eq in H. subst y.
    discriminate.
  - apply andb_true_iff in Ha. destruct Ha as [Hx _].
    apply andb_true_iff in H. destruct H as [H _]. apply N.eqb_eq in H. subst x.
    discriminate.
  - apply andb_true_iff in Ha, Hb, H. destruct Ha as [_ Ha], Hb as [_ Hb], H as [E H].
    apply N.eqb_eq in E. subst y. f_equal. exact (IH _ _ _ Ha Hb H).
Qed.

Lemma digits_inj a : forall b, digits a = digits b -> a = b.
Proof.
  induction a; intros b H; destruct b; simpl in H; try discriminate;
    try reflexivity; injection H as H; f_equal; auto.
Qed.

Lemma decimal_inj i j : decimal i = decimal j -> i = j.
Proof.
  unfold decimal. intros H. apply digits_inj in H.
  rewrite <- (Unsigned.of_to i), <- (Unsigned.of_to j). now rewrite H.
Qed.

Lemma isPrefix_strip p : forall a b, isPrefix (p ++ a) (p ++ b) = isPrefix a b.
Proof.
  unfold isPrefix. induction p as [|x p IH]; intros a b; [reflexivity|].
  cbn [app prefix_by]. now rewrite N.eqb_refl, IH.
Qed.

Lemma placeholders_apart i j rest :
  (isPrefix (wordPlaceholder i) (wordPlaceholder j ++ rest) = true -> i = j)
  /\ (isPrefix (markerPlaceholder i) (markerPlaceholder j ++ rest) = true -> i = j)
  /\ isPrefix (markerPlaceholder i) (wordPlaceholder j ++ rest) = false
  /\ isPrefix (wordPlaceholder i) (markerPlaceholder j ++ rest) = false.
Proof.
  unfold wordPlaceholder, markerPlaceholder. rewrite <- !app_assoc.
  rewrite !isPrefix_strip. repeat split; try reflexivity.
  - change (js "__") with (95 :: [95]). intros H.
    apply decimal_inj. cbn [app] in H.
    exact (digits_apart _ _ _ _ (digits_all _) (digits_all _) H).
  - change (js "__") with (95 :: [95]). intros H.
    apply decimal_inj. cbn [app] in H.
    exact (digits_apart _ _ _ _ (digits_all _) (digits_all _) H).
Qed.

(** X19. A placeholder matches at the start of a placeholder only when
    it is the same one: placeholders of different numbers, and a marker
    and a word placeholder, are never mistaken for each other, as [1]
    for [10]. *)
Theorem placeholder_matches_itself_only i j rest :
  isPrefix (markerPlaceholder i) (wordPlaceholder j ++ rest) = false
  /\ isPrefix (wordPlaceholder i) (markerPlaceholder j ++ rest) = false
  /\ isPrefix (wordPlaceholder i) (wordPlaceholder j ++ rest) = (i =? j)%nat
  /\ isPrefix (markerPlaceholder i) (markerPlaceholder j ++ rest) = (i =? j)%nat.
Proof.
  destruct (placeholders_apart i j rest) as (W & M & X1 & X2).
  assert (R : forall p r, isPrefix p (p ++ r) = true).
  { intros p r. rewrite <- (app_nil_r p) at 1. rewrite isPrefix_strip.
    reflexivity. }
  repeat split; try assumption.
  - destruct (Nat.eqb_spec i j) as [->|Hn]; [apply R|].
    destruct (isPrefix _ _); [|reflexivity]. exfalso. now apply Hn, W.
  - destruct (Nat.eqb_spec i j) as [->|Hn]; [apply R|].
    destruct (isPrefix _ _); [|reflexivity]. exfalso. now apply Hn, M.
Qed.

(** ** No digraph is left after the merges *)

Section Merge.
Variable z : N.
Variable q : jsstring.
Hypothesis q_nonempty : q <> [].

Lemma merged_prefix : forall s p,
  forallb (fun c => negb (c =? z)) p = true ->
  prefix_by (unit_eq false) p (replaceLiteralWith false q (fun _ => [z]) s) = true ->
  prefix_by (unit_eq false) p s = true.
Proof.
  induction s as [|c s IH]; intros p Hp H.
  - now rewrite replaceLiteralWith_nil in H.
  - destruct p as [|x p]; [reflexivity|].
    cbn [forallb] in Hp. apply andb_true_iff in Hp. destruct Hp as [Hx Hp].
    destruct (prefix_by (unit_eq false) q (c :: s)) eqn:E.
    + rewrite replaceLiteralWith_hit in H by assumption.
      cbn [app prefix_by unit_eq] in H. apply andb_true_iff in H.
      destruct H as [H _]. apply negb_true_iff in Hx. congruence.
    + rewrite replaceLiteralWith_miss in H by exact E.
      cbn [prefix_by] in *. apply andb_true_iff in H. destruct H as [-> H].
      exact (IH _ Hp H).
Qed.

Lemma occurs_skipn ci p k : forall s,
  occurs ci p (skipn k s) = true -> occurs ci p s = true.
Proof.
  induction k as [|k IH]; intros s H; [exact H|].
  destruct s as [|c s]; [exact H|]. cbn [skipn] in H. cbn [occurs].
  rewrite (IH _ H). apply orb_true_r.
Qed.

Lemma occurs_head p s :
  p <> [] -> forallb (fun c => negb (c =? z)) p = true ->
  occurs false p (z :: s) = occurs false p s.
Proof.
  intros Hn Hp. cbn [occurs]. destruct p as [|x p]; [congruence|].
  cbn [forallb] in Hp. apply andb_true_iff in Hp. destruct Hp as [Hx _].
  apply negb_true_iff in Hx. cbn [prefix_by unit_eq]. now rewrite Hx.
Qed.

Lemma merged_keeps_absent p s :
  p <> [] -> forallb (fun c => negb (c =? z)) p = true ->
  occurs false p s = false ->
  occurs false p (replaceLiteralWith false q (fun _ => [z]) s) = false.
Proof.
  intros Hn Hp. remember (length s) as n eqn:En. revert s En.
  induction n as [n IH] using lt_wf_ind. intros s En H.
  destruct (prefix_by (unit_eq false) q s) eqn:E.
  - rewrite replaceLiteralWith_hit by assumption. cbn [app].
    rewrite (occurs_head p) by assumption.
    pose proof (prefix_by_length _ _ _ E) as Hl.
    apply (IH (length (skipn (length q) s))); [|reflexivity|].
    + rewrite length_skipn. subst n. destruct q; [congruence|simpl in *; lia].
    + destruct (occurs false p (skipn (length q) s)) eqn:O; [|reflexivity].
      apply occurs_skipn in O. congruence.
  - destruct s as [|c s].
    + now rewrite replaceLiteralWith_nil.
    + rewrite replaceLiteralWith_miss by exact E.
      cbn [occurs] in *. apply orb_false_iff in H. destruct H as [H1 H2].
      rewrite (IH (length s)); [|subst n; simpl; lia|reflexivity|exact H2].
      rewrite orb_false_r.
      destruct (prefix_by (unit_eq false) p
                  (c :: replaceLiteralWith false q (fun _ => [z]) s)) eqn:P;
        [|reflexivity].
      rewrite <- (replaceLiteralWith_miss false q (fun _ => [z]) c s E) in P.
      apply merged_prefix in P; [congruence|exact Hp].
Qed.

Lemma merged_absent s :
  forallb (fun c => negb (c =? z)) q = true ->
  occurs false q (replaceLiteralWith false q (fun _ => [z]) s) = false.
Proof.
  intros Hq. remember (length s) as n eqn:En. revert s En.
  induction n as [n IH] using lt_wf_ind. intros s En.
  destruct (prefix_by (unit_eq false) q s) eqn:E.
  - rewrite replaceLiteralWith_hit by assumption. cbn [app].
    rewrite (occurs_head q) by assumption.
    pose proof (prefix_by_length _ _ _ E) as Hl.
    apply (IH (length (skipn (length q) s))); [|reflexivity].
    rewrite length_skipn. subst n. destruct q; [congruence|simpl in *; lia].
  - destruct s as [|c s].
    + rewrite replaceLiteralWith_nil by assumption. cbn [occurs].
      now rewrite E.
    + rewrite replaceLiteralWith_miss by exact E. cbn [occurs].
      rewrite (IH (length s)); [|subst n; simpl; lia|reflexivity].
      rewrite orb_false_r.
      destruct (prefix_by (unit_eq false) q
                  (c :: replaceLiteralWith false q (fun _ => [z]) s)) eqn:P;
        [|reflexivity].
      rewrite <- (replaceLiteralWith_miss false q (fun _ => [z]) c s E) in P.
      apply merged_prefix in P; [congruence|exact Hq].
Qed.
End Merge.

(** Every merge puts in one letter, and no digraph holds a letter that
    a merge puts in. *)
Definition mergesApart (ds : list (jsstring * jsstring)) : bool :=
  forallb (fun d' : jsstring * jsstring =>
             match snd d' with
             | [z] => negb (str_eqb (fst d') [])
                      && forallb (fun d : jsstring * jsstring =>
                                    forallb (fun c => negb (c =? z)) (fst d))
                                 digraphRegexps
             | _ => false
             end) ds.

Lemma merges_keep_absent p ds : forall s,
  mergesApart ds = true -> In p (map fst digraphRegexps) -> p <> [] ->
  occurs false p s = false ->
  occurs false p
    (fold_left (fun r (d : jsstring * jsstring) =>
                  replaceLiteral false (fst d) (snd d) r) ds s) = false.
Proof.
  induction ds as [|[q r] ds IH]; intros s Hds Hp Hn H; [exact H|].
  cbn [mergesApart forallb fst snd] in Hds.
  apply andb_true_iff in Hds. destruct Hds as [Hd Hds].
  destruct r as [|z [|? ?]]; try discriminate.
  apply andb_true_iff in Hd. destruct Hd as [Hq Hz].
  cbn [fold_left fst snd]. apply IH; try assumption.
  rewrite replaceLiteral_With. apply merged_keeps_absent; try assumption.
  - destruct q; [discriminate|congruence].
  - apply in_map_iff in Hp. destruct Hp as (d & <- & Hd).
    rewrite forallb_forall in Hz. now apply Hz.
Qed.

Lemma merges_absent ds : forall s d,
  mergesApart ds = true ->
  (forall d, In d ds -> In d digraphRegexps) ->
  In d ds ->
  occurs false (fst d)
    (fold_left (fun r (d : jsstring * jsstring) =>
                  replaceLiteral false (fst d) (snd d) r) ds s) = false.
Proof.
  induction ds as [|[q r] ds IH]; intros s d Hds Hsub Hd; [destruct Hd|].
  pose proof Hds as Hall.
  cbn [mergesApart forallb fst snd] in Hds.
  apply andb_true_iff in Hds. destruct Hds as [H0 Hds].
  destruct r as [|z [|? ?]]; try discriminate.
  apply andb_true_iff in H0. destruct H0 as [Hq Hz].
  assert (Hqn : q <> []) by (destruct q; [discriminate|congruence]).
  cbn [fold_left fst snd]. destruct Hd as [<- |Hd].
  - cbn [fst]. apply merges_keep_absent; try assumption.
    + apply in_map_iff. exists (q, [z]). split; [reflexivity|].
      apply Hsub. now left.
    + rewrite replaceLiteral_With. apply merged_absent; [exact Hqn|].
      rewrite forallb_forall in Hz. apply (Hz (q, [z])). apply Hsub. now left.
  - apply IH; try assumption. intros d' Hd'. apply Hsub. now right.
Qed.

(** X20. After [Handle digraphs] none of the six digraphs [Lj Nj Dž lj nj
    dž] is left in the text: every one has become its Cyrillic letter. *)
Theorem mergeDigraphs_leaves_no_digraph result :
  forallb (fun d => negb (occurs false (fst d) (mergeDigraphs result)))
          digraphRegexps = true.
Proof.
  apply forallb_forall. intros d Hd. apply negb_true_iff.
  unfold mergeDigraphs. apply merges_absent; [vm_compute; reflexivity|auto|exact Hd].
Qed.

(** ** toCyrillic never lengthens a clean text *)

Lemma dropSeparators_app a b :
  dropSeparators (a ++ b) = dropSeparators a ++ dropSeparators b.
Proof. apply filter_app. Qed.

Lemma dropSeparators_length s : (length (dropSeparators s) <= length s)%nat.
Proof. apply filter_length_le. Qed.

Lemma replaceLiteralWith_shrinks ci p f s :
  p <> [] ->
  (forall w, prefix_by (unit_eq ci) p w = true ->
     (length (dropSeparators (f (firstn (length p) w)))
      <= length (dropSeparators (firstn (length p) w)))%nat) ->
  (length (dropSeparators (replaceLiteralWith ci p f s))
   <= length (dropSeparators s))%nat.
Proof.
  intros Hp Hf. remember (length s) as n eqn:En. revert s En.
  induction n as [n IH] using lt_wf_ind. intros s En.
  destruct (prefix_by (unit_eq ci) p s) eqn:E.
  - rewrite replaceLiteralWith_hit by assumption.
    pose proof (prefix_by_length _ _ _ E) as Hl.
    pose proof (IH (length (skipn (length p) s))
                  ltac:(rewrite length_skipn; subst n;
                        destruct p; [congruence|simpl in *; lia])
                  _ eq_refl) as I.
    pose proof (Hf s E) as F.
    rewrite <- (firstn_skipn (length p) s) at 3.
    rewrite !dropSeparators_app, !length_app. lia.
  - destruct s as [|c s]; [now rewrite replaceLiteralWith_nil|].
    rewrite replaceLiteralWith_miss by exact E.
    pose proof (IH (length s) ltac:(subst n; simpl; lia) s eq_refl) as I.
    change (c :: replaceLiteralWith ci p f s)
      with ([c] ++ replaceLiteralWith ci p f s).
    change (c :: s) with ([c] ++ s).
    rewrite !dropSeparators_app, !length_app. lia.
Qed.

Lemma mergeDigraphs_shrinks s :
  (length (dropSeparators (mergeDigraphs s)) <= length (dropSeparators s))%nat.
Proof.
  unfold mergeDigraphs.
  assert (C : forallb (fun d : jsstring * jsstring =>
                         negb (str_eqb (fst d) [])
                         && (length (dropSeparators (snd d))
                             <=? length (dropSeparators (fst d)))%nat)
                      digraphRegexps = true) by (vm_compute; reflexivity).
  revert s C. induction digraphRegexps as [|[p r] ds IH]; intros s C; [simpl; lia|].
  cbn [forallb fst snd] in C. apply andb_true_iff in C. destruct C as [Cd C].
  apply andb_true_iff in Cd. destruct Cd as [Hn Hle]. apply Nat.leb_le in Hle.
  cbn [fold_left fst snd]. etransitivity; [apply IH, C|].
  rewrite replaceLiteral_With. apply replaceLiteralWith_shrinks.
  - destruct p; [discriminate|congruence].
  - intros w Hw. now rewrite (prefix_by_exact _ _ Hw).
Qed.

Lemma cyrOf_length s : length (flat_map cyrOf s) = length (dropSeparators s).
Proof.
  induction s as [|c s IH]; [reflexivity|]. unfold dropSeparators in *.
  cbn [flat_map filter]. rewrite length_app, IH. unfold cyrOf, mapped.
  destruct (c =? ZWNJ); [reflexivity|]. cbn [negb length].
  destruct (lookup latin2CyrillicMap c) as [v|] eqn:E; [|reflexivity].
  assert (C : forallb (fun v : jsstring => (length v =? 1)%nat)
                      (map snd latin2CyrillicMap) = true) by (vm_compute; reflexivity).
  rewrite forallb_forall in C. specialize (C _ (lookup_value _ _ _ E)).
  apply Nat.eqb_eq in C. now rewrite C.
Qed.

Lemma translit_length y : (length (translit y) <= length y)%nat.
Proof.
  unfold translit, guardAndMerge. rewrite cyrOf_length.
  etransitivity; [apply mergeDigraphs_shrinks|].
  rewrite (dropSeparators_flat_map (handleDigraphExceptions y)).
  rewrite handleDigraphExceptions_flat_map by reflexivity.
  rewrite <- dropSeparators_flat_map. apply dropSeparators_length.
Qed.

Lemma assemble_length x l :
  (length (assemble x l)
   <= length (x ++ concat (map (fun wy : jsstring * jsstring => fst wy ++ snd wy) l)))%nat.
Proof.
  unfold assemble. rewrite !length_app. pose proof (translit_length x) as Hx.
  assert (L : (length (concat (map (fun wy => fst wy ++ translit (snd wy)) l))
               <= length (concat (map (fun wy : jsstring * jsstring =>
                                         fst wy ++ snd wy) l)))%nat).
  { induction l as [|[w y] l IH]; [simpl; lia|].
    cbn [map concat fst snd]. rewrite !length_app.
    pose proof (translit_length y). lia. }
  lia.
Qed.

Lemma clean_text_not_longer text :
  clean text = true ->
  exists v, returns text None v /\ (length v <= length text)%nat.
Proof.
  intros Hc. destruct (segmented_exists text) as (x & l & S).
  exists (assemble x l). split; [now apply toCyrillic_segmented|].
  rewrite (segmented_text _ _ _ S) at 1. apply assemble_length.
Qed.

(** X21. On a text without [<] and without [U+E000], [toCyrillic] under
    the default options returns a text that is no longer than the input,
    in code units. *)
Theorem toCyrillic_not_longer text :
  clean text = true ->
  exists v, returns text None v /\ (length v <= length text)%nat.
Proof. apply clean_text_not_longer. Qed.

Lemma toCyrillic_not_longer_witness :
  exists v, returns (js "Njegoš i džem: quick nadživeti") None v
            /\ (length v <= length (js "Njegoš i džem: quick nadživeti"))%nat.
Proof.
  apply (toCyrillic_not_longer (js "Njegoš i džem: quick nadživeti")).
  vm_compute. reflexivity.
Defined.

(** ** toCyrillic, twice *)

Lemma cyrOf_no_latin s :
  forallb (fun c => negb (isLatinKey c)) (flat_map cyrOf s) = true.
Proof.
  induction s as [|c s IH]; [reflexivity|]. cbn [flat_map].
  rewrite forallb_app, IH, andb_true_r.
  unfold cyrOf, mapped. destruct (c =? ZWNJ); [reflexivity|].
  destruct (lookup latin2CyrillicMap c) as [v|] eqn:E.
  - assert (C : forallb (forallb (fun c => negb (isLatinKey c)))
                        (map snd latin2CyrillicMap) = true) by (vm_compute; reflexivity).
    rewrite forallb_forall in C. apply C, (lookup_value _ _ _ E).
  - cbn [forallb]. unfold isLatinKey. now rewrite E.
Qed.

Lemma no_english_letter w :
  containsEnglishLetter w = false ->
  forallb (fun c => negb (isEnglishLetter c)) w = true.
Proof.
  induction w as [|c w IH]; [reflexivity|].
  change (containsEnglishLetter (c :: w))
    with (isEnglishLetter c || containsEnglishLetter w).
  rewrite orb_false_iff. intros [Hc H]. cbn [forallb]. rewrite Hc. now apply IH.
Qed.

Lemma english_letter_found w :
  forallb (fun c => negb (isEnglishLetter c)) w = true ->
  containsEnglishLetter w = false.
Proof.
  induction w as [|c w IH]; [reflexivity|]. cbn [forallb].
  rewrite andb_true_iff. intros [Hc Hw]. apply negb_true_iff in Hc.
  change (containsEnglishLetter (c :: w))
    with (isEnglishLetter c || containsEnglishLetter w).
  now rewrite Hc, (IH Hw).
Qed.

Lemma forallb_both (P Q : N -> bool) s :
  forallb P s = true -> forallb Q s = true ->
  forallb (fun c => P c && Q c) s = true.
Proof.
  induction s as [|c s IH]; [reflexivity|]. cbn [forallb].
  rewrite !andb_true_iff. intros [-> Hp] [-> Hq]. auto.
Qed.

Lemma plain_text_converted text :
  clean text = true -> containsEnglishLetter text = false ->
  exists v, returns text None v
            /\ forallb (fun c => negb (isLatinKey c)) v = true
            /\ returns v None v.
Proof.
  intros Hc He. destruct (segmented_exists text) as (x & l & S).
  pose proof (toCyrillic_segmented _ _ _ Hc S) as R.
  pose proof (segmented_text _ _ _ S) as T.
  destruct (segmented_forall _ _ _ _ S (no_english_letter _ He)) as [_ HL].
  pose proof (segmented_english _ _ _ S) as HE.
  destruct l as [|[w y] l].
  2:{ inversion HL as [|? ? [Hw _] _]; subst. inversion HE as [|? ? Hq _]; subst.
      cbn [fst] in *. rewrite (english_letter_found _ Hw) in Hq. discriminate. }
  cbn [map concat] in T. rewrite app_nil_r in T. subst x.
  unfold assemble in R. cbn [map concat] in R. rewrite app_nil_r in R.
  exists (translit text). split; [exact R|]. split; [apply cyrOf_no_latin|].
  apply cyrillic_text_kept.
  - unfold translit, clean in *. apply cyrOf_preserves; [vm_compute; reflexivity|].
    apply guardAndMerge_preserves; [vm_compute; reflexivity|exact Hc].
  - unfold cyrillicSide. apply forallb_both;
      [apply cyrOf_no_latin|apply cyrOf_no_separator].
Qed.

(** X22. On a text without [<], [U+E000] and the letters [q w x y],
    [toCyrillic] under the default options leaves no letter of the Latin
    map in its result, and converting the result again changes nothing. *)
Theorem toCyrillic_idempotent text :
  clean text = true -> containsEnglishLetter text = false ->
  exists v, returns text None v
            /\ forallb (fun c => negb (isLatinKey c)) v = true
            /\ returns v None v.
Proof. apply plain_text_converted. Qed.

Lemma toCyrillic_idempotent_witness :
  exists v, returns (js "Džemper, Ljubav и injekcija 2024") None v
            /\ forallb (fun c => negb (isLatinKey c)) v = true
            /\ returns v None v.
Proof.
  apply (toCyrillic_idempotent (js "Džemper, Ljubav и injekcija 2024"));
    vm_compute; reflexivity.
Defined.

(** * The round trip, the skipped pieces and the guard *)

(** ** The round trip, exactly

    What comes back from [toLatin] followed by [toCyrillic] is decided
    by the guard alone: the letters read off the guarded Latin form. *)

(** The Cyrillic letter of a Latin letter; any other character stands
    for itself *)
Definition cyrillicOf (a : N) : N := hd a (mapped latin2CyrillicMap a).

(** The Cyrillic letter that two Latin letters merge into *)
Definition digraphOf (a b : N) : option N :=
  match find (fun d : jsstring * jsstring => str_eqb (fst d) [a; b]) digraphRegexps with
  | Some d => Some (hd 0 (snd d))
  | None => None
  end.

(** The letters of a guarded Latin form, read from the left: two letters
    that stand together are one letter where they spell a digraph. *)
Fixpoint readLetters (g : jsstring) : jsstring :=
  match g with
  | [] => []
  | a :: g' =>
    match g' with
    | b :: g'' =>
      match digraphOf a b with
      | Some z => z :: readLetters g''
      | None => cyrillicOf a :: readLetters g'
      end
    | [] => [cyrillicOf a]
    end
  end.

Definition latinOrSeparator (a : N) : bool :=
  (a =? ZWNJ) || is_some (lookup latin2CyrillicMap a).

Lemma latinOrSeparator_facts a :
  latinOrSeparator a = true ->
  lat (cyrillicOf a) = [a]
  /\ existsb (N.eqb (cyrillicOf a)) letters = true.
Proof.
  unfold latinOrSeparator. intros H.
  assert (C : forallb (fun a => str_eqb (lat (cyrillicOf a)) [a]
                                && existsb (N.eqb (cyrillicOf a)) letters)
                      (ZWNJ :: map fst latin2CyrillicMap) = true)
    by (vm_compute; reflexivity).
  rewrite forallb_forall in C.
  assert (I : In a (ZWNJ :: map fst latin2CyrillicMap)).
  { apply orb_true_iff in H. destruct H as [H|H].
    - apply N.eqb_eq in H. now left.
    - right. destruct (lookup latin2CyrillicMap a) eqn:E; [|discriminate].
      apply (lookup_In _ _ _ E). }
  specialize (C a I). apply andb_true_iff in C. destruct C as [C1 C2].
  apply str_eqb_eq in C1. now split.
Qed.

Lemma digraphOf_facts a b z :
  digraphOf a b = Some z ->
  lat z = [a; b]
  /\ existsb (N.eqb z) letters = true
  /\ forallb (fun c => negb (ambiguous z c) && negb (ambiguous c z)) letters = true.
Proof.
  unfold digraphOf.
  destruct (find _ digraphRegexps) as [d|] eqn:F; [|discriminate].
  intros [= <-]. apply find_some in F. destruct F as [Hd E].
  apply str_eqb_eq in E.
  assert (C : forallb (fun d : jsstring * jsstring =>
                         str_eqb (lat (hd 0 (snd d))) (fst d)
                         && existsb (N.eqb (hd 0 (snd d))) letters
                         && forallb (fun c => negb (ambiguous (hd 0 (snd d)) c)
                                              && negb (ambiguous c (hd 0 (snd d))))
                                    letters)
                      digraphRegexps = true) by (vm_compute; reflexivity).
  rewrite forallb_forall in C. specialize (C d Hd).
  apply andb_true_iff in C. destruct C as [C C3].
  apply andb_true_iff in C. destruct C as [C1 C2].
  apply str_eqb_eq in C1. rewrite C1, E. auto.
Qed.

Lemma digraphOf_none a b :
  digraphOf a b = None ->
  lat (cyrillicOf a) = [a] -> lat (cyrillicOf b) = [b] ->
  ambiguous (cyrillicOf a) (cyrillicOf b) = false.
Proof.
  unfold digraphOf, ambiguous. intros H Ea Eb. rewrite Ea, Eb. cbn [app].
  destruct (find _ digraphRegexps) as [d|] eqn:F; [discriminate|].
  destruct (existsb _ digraphRegexps) eqn:X; [|reflexivity].
  apply existsb_exists in X. destruct X as (d & Hd & E).
  now rewrite (find_none _ _ F d Hd) in E.
Qed.

Lemma readLetters_cons a b g :
  readLetters (a :: b :: g)
  = match digraphOf a b with
    | Some z => z :: readLetters g
    | None => cyrillicOf a :: readLetters (b :: g)
    end.
Proof. reflexivity. Qed.

(** The head of what is read: the letter of the first character, or a
    merged letter *)
Lemma readLetters_head a g :
  hd 0 (readLetters (a :: g)) = cyrillicOf a
  \/ exists b z, digraphOf a b = Some z /\ hd 0 (readLetters (a :: g)) = z.
Proof.
  destruct g as [|b g]; [now left|]. rewrite readLetters_cons.
  destruct (digraphOf a b) as [z|] eqn:E; [right; now exists b, z|now left].
Qed.

Lemma readLetters_spelling : forall n g,
  (length g <= n)%nat ->
  forallb latinOrSeparator g = true ->
  flat_map lat (readLetters g) = g
  /\ spelled (readLetters g) = true
  /\ unambiguous (readLetters g) = true.
Proof.
  induction n as [|n IH]; intros g Hn Hg.
  { destruct g; [repeat split|simpl in Hn; lia]. }
  destruct g as [|a g]; [repeat split|].
  cbn [forallb] in Hg. apply andb_true_iff in Hg. destruct Hg as [Ha Hg].
  destruct (latinOrSeparator_facts a Ha) as [La Sa].
  destruct g as [|b g].
  { cbn [readLetters flat_map spelled forallb unambiguous].
    rewrite La, Sa. repeat split. }
  pose proof Hg as Hbg.
  cbn [forallb] in Hg. apply andb_true_iff in Hg. destruct Hg as [Hb Hg].
  destruct (latinOrSeparator_facts b Hb) as [Lb Sb].
  rewrite readLetters_cons. destruct (digraphOf a b) as [z|] eqn:E.
  - destruct (digraphOf_facts _ _ _ E) as (Lz & Sz & Az).
    destruct (IH g ltac:(simpl in Hn; lia) Hg) as (I1 & I2 & I3).
    cbn [flat_map]. rewrite Lz, I1. repeat split.
    + cbn [spelled forallb]. fold (spelled (readLetters g)). now rewrite Sz, I2.
    + cbn [unambiguous]. destruct (readLetters g) as [|c r] eqn:R; [reflexivity|].
      rewrite I3, andb_true_r.
      cbn [spelled forallb] in I2. apply andb_true_iff in I2. destruct I2 as [Sc _].
      rewrite forallb_forall in Az. specialize (Az c (spelled_In _ Sc)).
      apply andb_true_iff in Az. tauto.
  - destruct (IH (b :: g) ltac:(simpl in Hn |- *; lia) Hbg) as (I1 & I2 & I3).
    cbn [flat_map]. rewrite La, I1. repeat split.
    + cbn [spelled forallb]. fold (spelled (readLetters (b :: g))). now rewrite Sa, I2.
    + cbn [unambiguous]. pose proof (readLetters_head b g) as Hh.
      destruct (readLetters (b :: g)) as [|c r] eqn:R; [reflexivity|].
      rewrite I3, andb_true_r. cbn [hd] in Hh.
      destruct Hh as [-> |(b' & z & Ez & ->)].
      * now rewrite (digraphOf_none _ _ E La Lb).
      * destruct (digraphOf_facts _ _ _ Ez) as (_ & _ & Az).
        rewrite forallb_forall in Az.
        specialize (Az (cyrillicOf a) (spelled_In _ Sa)).
        apply andb_true_iff in Az. destruct Az as [_ Az]. exact Az.
Qed.

Lemma handleDigraphExceptions_preserves (Q : N -> bool) s :
  forallb Q (ZWNJ :: flat_map fst digraphExceptionPatterns) = true ->
  forallb Q s = true -> forallb Q (handleDigraphExceptions s) = true.
Proof.
  intros HQ Hs. unfold handleDigraphExceptions.
  cbn [forallb] in HQ. apply andb_true_iff in HQ. destruct HQ as [HZ HE].
  apply fold_preserves; [|exact Hs].
  intros [d pats] r Hd Hr. apply fold_preserves; [|exact Hr].
  intros p r' _ Hr'. apply replaceLiteralWith_preserves; [|exact Hr'].
  intros w Hw. unfold splitDigraph. rewrite replaceLiteral_With.
  apply replaceLiteralWith_preserves; [|exact Hw]. intros _ _.
  assert (Hdq : forallb Q d = true).
  { rewrite forallb_forall in HE. apply forallb_forall. intros c Hc.
    apply HE. apply in_flat_map. exists (d, pats). split; [exact Hd|exact Hc]. }
  rewrite !forallb_app. cbn [forallb]. rewrite HZ.
  rewrite !forallb_firstn; auto.
  rewrite <- (firstn_skipn 1 d), forallb_app in Hdq.
  apply andb_true_iff in Hdq. tauto.
Qed.

(** The guarded Latin form of a text of mapped letters holds Latin
    letters and separators only. *)
Lemma guarded_latin text :
  mappedCyrillic text = true ->
  forallb latinOrSeparator (handleDigraphExceptions (flat_map lat text)) = true.
Proof.
  intros Hm. apply handleDigraphExceptions_preserves; [vm_compute; reflexivity|].
  apply forallb_flat_map; [|now apply mappedCyrillic_spelled].
  apply letters_check. vm_compute. reflexivity.
Qed.

(** Whatever letters spell the guarded form without a digraph between
    two of them, these letters come back. *)
Lemma roundtrip_letters text t' :
  mappedCyrillic text = true ->
  spelled t' = true -> unambiguous t' = true ->
  handleDigraphExceptions (toLatin text) = flat_map lat t' ->
  returns (toLatin text) None (filter (fun c => negb (c =? ZWNJ)) t').
Proof.
  intros Hm Hs' Hu' Eg. rewrite (toLatin_units _ Hm) in *.
  pose proof (mappedCyrillic_spelled _ Hm) as Hsp.
  destruct (flat_map lat text) as [|c r] eqn:EL.
  { exists O. cbn [toCyrillic].
    assert (G : handleDigraphExceptions [] = []) by (vm_compute; reflexivity).
    rewrite G in Eg. destruct t' as [|a t'']; [reflexivity|].
    cbn [flat_map] in Eg. cbn [spelled forallb] in Hs'.
    apply andb_true_iff in Hs'. destruct Hs' as [Ha _].
    apply spelled_In in Ha.
    apply (letters_check (fun c => negb (str_eqb (lat c) []))) in Ha;
      [|vm_compute; reflexivity].
    destruct (lat a); discriminate. }
  exists (length (flat_map (stageMap digraphRegexps) t') + 0)%nat.
  rewrite toCyrillic_default, <- EL.
  rewrite extractMarkers_default_absent.
  2:{ apply (Forall_forallb (fun c => negb (c =? 60))).
      - intros x Hx. apply negb_true_iff, N.eqb_neq in Hx. exact Hx.
      - apply forallb_flat_map; [|exact Hsp].
        apply letters_check. vm_compute; reflexivity. }
  rewrite extractWords_none.
  2:{ apply (Forall_forallb (fun c => negb (isEnglishLetter c))).
      - intros x Hx. now apply negb_true_iff in Hx.
      - apply forallb_flat_map; [|exact Hsp].
        apply letters_check. vm_compute; reflexivity. }
  rewrite EL, Eg.
  rewrite (mergeDigraphs_letters _ Hs' Hu').
  rewrite (scan_loop_plain _ _ _ O [] []).
  2:{ now rewrite app_nil_r. }
  2:{ apply (Forall_forallb (fun c => negb (c =? 57344))).
      - intros x Hx. apply negb_true_iff, N.eqb_neq in Hx. exact Hx.
      - apply forallb_flat_map; [|exact Hs'].
        apply letters_check. vm_compute; reflexivity. }
  rewrite scan_loop_end by (cbn [Nat.add]; lia).
  cbn [app]. rewrite (scan_merged_letters _ Hs').
  unfold restoreAll. cbn [restore]. f_equal. apply strip_absent.
  clear. induction t' as [|c t IH]; [reflexivity|]. cbn [filter].
  destruct (negb (c =? ZWNJ)) eqn:E; [cbn [forallb]; now rewrite E|exact IH].
Qed.

(** [keptApart text guarded]: the guarded form is the Latin spelling,
    letter by letter, of the text with separators put in, so that no two
    letters that together spell a digraph stand next to each other: the
    Latin form of every letter is whole, and every such pair has a
    separator between its letters. *)
Definition keptApart (text guarded : jsstring) : Prop :=
  exists t', spelled t' = true
             /\ unambiguous t' = true
             /\ filter (fun c => negb (c =? ZWNJ)) t' = text
             /\ guarded = flat_map lat t'.

Lemma roundtrip_decided text :
  mappedCyrillic text = true ->
  returns (toLatin text) None text
  <-> keptApart text (handleDigraphExceptions (toLatin text)).
Proof.
  intros Hm. split.
  - intros R. rewrite (toLatin_units _ Hm) in *.
    pose proof (guarded_latin _ Hm) as Hg.
    destruct (readLetters_spelling _ _ (Nat.le_refl _) Hg) as (E & S & U).
    exists (readLetters (handleDigraphExceptions (flat_map lat text))).
    repeat split; [exact S|exact U| |now rewrite E].
    symmetry in E.
    pose proof (roundtrip_letters text _ Hm S U) as R'.
    rewrite (toLatin_units _ Hm) in R'. specialize (R' E).
    exact (returns_unique _ _ _ _ R' R).
  - intros (t' & S & U & F & E). rewrite <- F at 2.
    now apply roundtrip_letters.
Qed.

(** The same, as a check that runs through the text and the guarded
    form side by side: separators are stepped over, the Latin form of
    every letter must follow whole, and a letter that spells a digraph
    with the next one must have a separator after it. *)
Definition isSeparator (c : N) : bool := c =? ZWNJ.

Fixpoint guardedAs (text guarded : jsstring) : bool :=
  match text with
  | [] => forallb isSeparator guarded
  | c :: t =>
    let g1 := dropWhile isSeparator guarded in
    isPrefix (lat c) g1
    && let g2 := skipn (length (lat c)) g1 in
       match t with
       | d :: _ => negb (ambiguous c d) || isSeparator (hd 0 g2)
       | [] => true
       end
       && guardedAs t g2
  end.

Lemma separators_spelling zs :
  forallb isSeparator zs = true ->
  spelled zs = true /\ flat_map lat zs = zs
  /\ filter (fun c => negb (c =? ZWNJ)) zs = []
  /\ forall u, unambiguous (zs ++ u) = unambiguous u.
Proof.
  induction zs as [|z zs IH]; [repeat split|].
  cbn [forallb]. rewrite andb_true_iff. intros [Hz Hzs].
  apply N.eqb_eq in Hz. subst z. destruct (IH Hzs) as (I1 & I2 & I3 & I4).
  repeat split.
  - cbn [spelled forallb]. fold (spelled zs). now rewrite I1.
  - cbn [flat_map]. now rewrite I2.
  - cbn [filter]. exact I3.
  - intros u. cbn [app unambiguous]. rewrite I4.
    destruct (zs ++ u) as [|d r] eqn:E; [|reflexivity].
    apply app_eq_nil in E. destruct E as [_ ->]. reflexivity.
Qed.

Lemma takeWhile_separators s :
  s = takeWhile isSeparator s ++ dropWhile isSeparator s
  /\ forallb isSeparator (takeWhile isSeparator s) = true.
Proof.
  split; [symmetry; apply takeWhile_dropWhile|apply takeWhile_all].
Qed.

Lemma isPrefix_split p : forall s, isPrefix p s = true -> s = p ++ skipn (length p) s.
Proof.
  unfold isPrefix. induction p as [|x p IH]; intros s H; [reflexivity|].
  destruct s as [|y s]; [discriminate|]. cbn [prefix_by] in H.
  apply andb_true_iff in H. destruct H as [E H]. apply N.eqb_eq in E. subst y.
  cbn [length skipn app]. now rewrite <- (IH s H).
Qed.

Lemma mapped_letter c :
  is_some (lookup cyrillic2LatinMap c) = true ->
  existsb (N.eqb c) letters = true
  /\ (c =? ZWNJ) = false
  /\ lat c <> []
  /\ isSeparator (hd 0 (lat c)) = false
  /\ ambiguous ZWNJ c = false /\ ambiguous c ZWNJ = false.
Proof.
  intros Hc. apply mappedCyrillic_alphabet in Hc.
  pose proof (alphabet_check
                (fun c => existsb (N.eqb c) letters && negb (c =? ZWNJ)
                          && negb (str_eqb (lat c) [])
                          && negb (isSeparator (hd 0 (lat c)))
                          && negb (ambiguous ZWNJ c) && negb (ambiguous c ZWNJ))
                ltac:(vm_compute; reflexivity) c Hc) as H.
  repeat (apply andb_true_iff in H; destruct H as [H ?]).
  repeat match goal with
         | X : negb _ = true |- _ => apply negb_true_iff in X
         end.
  repeat split; try assumption.
  intros E. rewrite E in *. discriminate.
Qed.

Lemma filter_cons_split (s : jsstring) : forall c t,
  filter (fun c => negb (c =? ZWNJ)) s = c :: t ->
  exists zs r, s = zs ++ c :: r /\ forallb isSeparator zs = true
               /\ filter (fun c => negb (c =? ZWNJ)) r = t.
Proof.
  induction s as [|a s IH]; intros c t H; [discriminate|].
  cbn [filter] in H. destruct (a =? ZWNJ) eqn:E; cbn [negb] in H.
  - destruct (IH _ _ H) as (zs & r & -> & Hz & Hr).
    exists (a :: zs), r. repeat split; [|exact Hr].
    cbn [forallb]. unfold isSeparator at 1. now rewrite E, Hz.
  - injection H as -> H. exists [], s. repeat split. exact H.
Qed.

Lemma filter_nil_separators (s : jsstring) :
  filter (fun c => negb (c =? ZWNJ)) s = [] -> forallb isSeparator s = true.
Proof.
  induction s as [|a s IH]; [reflexivity|]. cbn [filter forallb].
  unfold isSeparator at 1. destruct (a =? ZWNJ); cbn [negb]; [exact IH|discriminate].
Qed.

Lemma dropWhile_separators zs s :
  forallb isSeparator zs = true -> isSeparator (hd 0 s) = false ->
  dropWhile isSeparator (zs ++ s) = s.
Proof.
  intros Hz Hs. induction zs as [|z zs IH].
  - destruct s as [|a s]; [reflexivity|]. cbn [hd] in Hs. cbn [app dropWhile].
    now rewrite Hs.
  - cbn [forallb] in Hz. apply andb_true_iff in Hz. destruct Hz as [Hz Hzs].
    cbn [app dropWhile]. rewrite Hz. now apply IH.
Qed.

Lemma letter_or_separator c :
  existsb (N.eqb c) letters = true ->
  c = ZWNJ \/ is_some (lookup cyrillic2LatinMap c) = true.
Proof.
  intros H. apply spelled_In in H. destruct H as [<- |H]; [now left|right].
  apply (alphabet_check (fun c => is_some (lookup cyrillic2LatinMap c)));
    [vm_compute; reflexivity|exact H].
Qed.

Lemma unambiguous_tail c u : unambiguous (c :: u) = true -> unambiguous u = true.
Proof.
  cbn [unambiguous]. destruct u; [reflexivity|]. rewrite andb_true_iff. tauto.
Qed.

Lemma kept_guardedAs : forall text t',
  mappedCyrillic text = true ->
  spelled t' = true -> unambiguous t' = true ->
  filter (fun c => negb (c =? ZWNJ)) t' = text ->
  guardedAs text (flat_map lat t') = true.
Proof.
  induction text as [|c t IH]; intros t' Hm S U F.
  - apply filter_nil_separators in F. cbn [guardedAs].
    destruct (separators_spelling _ F) as (_ & -> & _). exact F.
  - destruct (filter_cons_split _ _ _ F) as (zs & r & -> & Hz & Hr).
    cbn [mappedCyrillic forallb] in Hm. apply andb_true_iff in Hm.
    destruct Hm as [Hc Hm]. fold (mappedCyrillic t) in Hm.
    destruct (mapped_letter c Hc) as (_ & _ & Ln & Lh & _ & Ac).
    destruct (separators_spelling _ Hz) as (_ & Ez & _ & Uz).
    rewrite Uz in U.
    assert (Sr : spelled r = true).
    { unfold spelled in *. rewrite forallb_app in S. cbn [forallb] in S.
      apply andb_true_iff in S. destruct S as [_ S].
      apply andb_true_iff in S. tauto. }
    rewrite flat_map_app, Ez. cbn [flat_map guardedAs].
    rewrite dropWhile_separators;
      [|exact Hz|destruct (lat c); [congruence|exact Lh]].
    rewrite isPrefix_app, skipn_app, Nat.sub_diag, skipn_all. cbn [skipn app andb].
    rewrite (IH r Hm Sr (unambiguous_tail _ _ U) Hr), andb_true_r.
    destruct t as [|d t'']; [reflexivity|].
    destruct (filter_cons_split _ _ _ Hr) as (zs' & r' & -> & Hz' & _).
    destruct zs' as [|z zs'].
    + cbn [app unambiguous] in U. apply andb_true_iff in U. destruct U as [U _].
      now rewrite U.
    + cbn [forallb] in Hz'. apply andb_true_iff in Hz'. destruct Hz' as [Hz1 _].
      unfold isSeparator in Hz1. apply N.eqb_eq in Hz1. subst z.
      cbn [app flat_map hd]. apply orb_true_r.
Qed.

Lemma guardedAs_kept : forall text g,
  mappedCyrillic text = true ->
  guardedAs text g = true ->
  exists t', spelled t' = true /\ unambiguous t' = true
             /\ filter (fun c => negb (c =? ZWNJ)) t' = text
             /\ g = flat_map lat t'
             /\ (isSeparator (hd 0 g) = false -> hd 0 t' = hd 0 text).
Proof.
  induction text as [|c t IH]; intros g Hm H.
  - cbn [guardedAs] in H. destruct (separators_spelling _ H) as (S & E & F & U).
    exists g. repeat split; auto.
    + rewrite <- (app_nil_r g). now rewrite U.
    + intros Hh. destruct g as [|a g']; [reflexivity|].
      cbn [forallb] in H. apply andb_true_iff in H. destruct H as [H _].
      cbn [hd] in Hh. congruence.
  - cbn [mappedCyrillic forallb] in Hm. apply andb_true_iff in Hm.
    destruct Hm as [Hc Hm]. fold (mappedCyrillic t) in Hm.
    destruct (mapped_letter c Hc) as (Sc & Nc & Ln & Lh & _ & Ac).
    cbn [guardedAs] in H.
    apply andb_true_iff in H. destruct H as [Hp H].
    apply andb_true_iff in H. destruct H as [Hcond Hrest].
    destruct (takeWhile_separators g) as [Eg Hz].
    set (zs := takeWhile isSeparator g) in *.
    set (g1 := dropWhile isSeparator g) in *.
    pose proof (isPrefix_split _ _ Hp) as E1.
    set (g2 := skipn (length (lat c)) g1) in *.
    destruct (IH g2 Hm Hrest) as (r & Sr & Ur & Fr & Er & Hr).
    destruct (separators_spelling _ Hz) as (Sz & Ez & Fz & Uz).
    exists (zs ++ c :: r). repeat split.
    + unfold spelled in *. rewrite forallb_app. cbn [forallb].
      now rewrite Sz, Sc, Sr.
    + rewrite Uz. cbn [unambiguous]. destruct r as [|d' r']; [reflexivity|].
      rewrite Ur, andb_true_r. apply negb_true_iff.
      cbn [spelled forallb] in Sr. apply andb_true_iff in Sr. destruct Sr as [Sd _].
      destruct t as [|d t''].
      * cbn [filter] in Fr. destruct (d' =? ZWNJ) eqn:Ed; [|discriminate].
        apply N.eqb_eq in Ed. now subst d'.
      * destruct (isSeparator (hd 0 g2)) eqn:Hs.
        -- rewrite Er in Hs. cbn [flat_map] in Hs.
           destruct (letter_or_separator _ Sd) as [-> |Md]; [exact Ac|].
           destruct (mapped_letter d' Md) as (_ & _ & Ldn & Ldh & _).
           destruct (lat d') as [|x l]; [congruence|]. cbn [app hd] in Hs.
           cbn [hd] in Ldh. congruence.
        -- rewrite orb_false_r in Hcond. apply negb_true_iff in Hcond.
           specialize (Hr eq_refl). cbn [hd] in Hr. now subst d'.
    + rewrite filter_app, Fz. cbn [app filter]. now rewrite Nc, Fr.
    + rewrite flat_map_app, Ez. cbn [flat_map]. rewrite <- Er.
      rewrite Eg at 1. f_equal. exact E1.
    + intros Hh. destruct zs as [|z zs'] eqn:Z; [reflexivity|].
      cbn [forallb] in Hz. apply andb_true_iff in Hz. destruct Hz as [Hz1 _].
      rewrite Eg in Hh. cbn [app hd] in Hh. congruence.
Qed.

Lemma guardedAs_keptApart text g :
  mappedCyrillic text = true ->
  guardedAs text g = true <-> keptApart text g.
Proof.
  intros Hm. split.
  - intros H. destruct (guardedAs_kept _ _ Hm H) as (t' & S & U & F & E & _).
    now exists t'.
  - intros (t' & S & U & F & ->). now apply kept_guardedAs.
Qed.

(** C1 (amended). A text of mapped Cyrillic letters comes back from
    [toLatin] followed by [toCyrillic] exactly when the exception guard
    keeps its letters apart: in the guarded Latin form the Latin form of
    every letter is whole (no [њ] or [џ] is split) and every two adjacent
    letters that together spell a digraph have a separator between
    them. *)
Theorem roundtrip_exactly text :
  mappedCyrillic text = true ->
  returns (toLatin text) None text
  <-> guardedAs text (handleDigraphExceptions (toLatin text)) = true.
Proof.
  intros Hm. rewrite (roundtrip_decided _ Hm). symmetry.
  now apply guardedAs_keptApart.
Qed.

Lemma roundtrip_exactly_witness :
  returns (toLatin (js "инјекцијаНадживетиАНЈОНљубавподјела")) None
          (js "инјекцијаНадживетиАНЈОНљубавподјела").
Proof.
  apply (proj2 (roundtrip_exactly (js "инјекцијаНадживетиАНЈОНљубавподјела") eq_refl)).
  vm_compute. reflexivity.
Defined.

Lemma roundtrip_exactly_fails :
  guardedAs (js "нј") (handleDigraphExceptions (toLatin (js "нј"))) = false
  /\ guardedAs (js "ањон") (handleDigraphExceptions (toLatin (js "ањон"))) = false
  /\ guardedAs (js "Нјутн") (handleDigraphExceptions (toLatin (js "Нјутн"))) = false.
Proof. vm_compute. repeat split. Qed.

(** * Regions and tokens together

    The working text between extraction and restoration: stretches of
    text with placeholders between them. *)

Inductive hole :=
| MarkerHole (i : nat)
| WordHole (i : nat).

Definition placeholder (h : hole) : jsstring :=
  match h with
  | MarkerHole i => markerPlaceholder i
  | WordHole i => wordPlaceholder i
  end.







(** ** The guard and the merges leave the placeholders alone *)






(** ** The scan copies the placeholders *)








(** ** Restoration *)






















Section Restoration.
Variable mk : nat -> hole.
Hypothesis mk_inj : forall i j, mk i = mk j -> i = j.
Variable x : jsstring.
Variable l : list (hole * jsstring).
Hypothesis holes_once : NoDup (map fst l).
Hypothesis x_free : forallb notPrefixChar x = true.
Hypothesis l_free : Forall (fun hy => forallb notPrefixChar (snd hy) = true) l.






End Restoration.

(** ** A text read as stretches, tokens and skip regions *)

Inductive piece :=
| Token (w : jsstring)
| Region (o c k : jsstring).








(** The holes of the pieces, numbered as the two extractions number
    them *)
Fixpoint number (i j : nat) (l : list (piece * jsstring)) : list (hole * jsstring) :=
  match l with
  | [] => []
  | (Token _, y) :: l' => (WordHole j, y) :: number i (S j) l'
  | (Region _ _ _, y) :: l' => (MarkerHole i, y) :: number (S i) j l'
  end.



(** ** A pass over text it does not match in *)

Section Gap.
Context {A St : Type}.
Variable m : option A -> list A -> option (nat * list A).
Variable replacer : St -> list A -> list A -> St * list A.


End Gap.

(** ** Handle skip markers, piece by piece *)








(** ** The forced skip, piece by piece *)





Lemma takeWhile_inside f s R :
  dropWhile f s <> [] -> takeWhile f (s ++ R) = takeWhile f s.
Proof.
  induction s as [|c s IH]; cbn [dropWhile takeWhile app]; [congruence|].
  destruct (f c); [|reflexivity]. intros H. now rewrite IH.
Qed.

Lemma dropWhile_nil_all f s : dropWhile f s = [] -> forallb f s = true.
Proof.
  induction s as [|c s IH]; [reflexivity|]. cbn [dropWhile forallb].
  destruct (f c); [exact IH|discriminate].
Qed.

Lemma dropWhile_first f s : f (hd 0 (dropWhile f s)) = true -> dropWhile f s = [].
Proof.
  induction s as [|c s IH]; [reflexivity|]. cbn [dropWhile].
  destruct (f c) eqn:E; [exact IH|]. cbn [hd]. congruence.
Qed.









Lemma english_nonempty w : containsEnglishLetter w = true -> w <> [].
Proof. intros H ->. discriminate. Qed.


(** ** The pieces through the whole conversion *)



Lemma number_stretches l : forall i j, map snd (number i j l) = map snd l.
Proof.
  induction l as [|[[w|o c k] y] l IH]; intros i j; cbn [number map snd];
    [reflexivity| |]; now rewrite IH.
Qed.
























(** With listed skip words a token can be lost as well: a listed word
    that spells the placeholder of the token is taken for text. *)
Lemma forced_skip_lost_with_listed_word :
  returns (js "quick") (skipOptions None (Some [js "__SKIP__WORD_0__"]) None)
          (57344 :: js "__SKIP__WORD_0__").
Proof. exists 32%nat. vm_compute. reflexivity. Qed.

(** ** The guard, match by match

    [SeparatedAt a b s s']: [s'] is [s] with separators put between some
    [a] and the [b] that follows it. *)
Inductive SeparatedAt (a b : N) : jsstring -> jsstring -> Prop :=
| SepAt_nil : SeparatedAt a b [] []
| SepAt_char c s s' : SeparatedAt a b s s' -> SeparatedAt a b (c :: s) (c :: s')
| SepAt_cut s s' :
    SeparatedAt a b s s' -> SeparatedAt a b (a :: b :: s) (a :: ZWNJ :: b :: s').

Lemma SeparatedAt_refl a b s : SeparatedAt a b s s.
Proof. induction s; constructor; auto. Qed.











(** ** A match and its pattern *)





Lemma prefix_by_self (k s : jsstring) : prefix_by (unit_eq false) k (k ++ s) = true.
Proof. apply (eq_trans (eq_refl : _ = isPrefix k (k ++ s))), isPrefix_app. Qed.



(** ** Where a pass can be cut *)






(** ** The match is found *)





(** ** The match through the passes of the guard *)





Section GuardedMatch.
Variables k0 k1 : N.
Variables a m1 m2 b : jsstring.
Hypothesis key_letters : k0 <> k1.
Hypothesis key_second : k1 <> ZWNJ.
Hypothesis key_before : occurs false [k0; k1] (m1 ++ [k0]) = false.
Hypothesis key_after : occurs false [k0; k1] (k1 :: m2) = false.












End GuardedMatch.

(** ** The three entries of the table *)













(** ** From the separator to two letters *)











(** ** The guarded digraph in a call of toCyrillic *)









